(** * snmp_exporter generator: tree preparation and module generation

    A shallow embedding of [generator/config-generator] (the file holding
    [PrepareTree], [metricType], [metricAccess], [minimizeOids],
    [generateConfigModule] and [sanitizeLabelName]) together with the
    properties its specification states about it.  The first part holds
    the definitions, the second part the lemmas and theorems.

    Go strings are byte sequences: they are modelled by [string], a list
    of 8-bit [ascii] characters.  [==], [<] and [sort.Strings] compare
    byte-wise, which is [String.compare]; stdpp packages the induced
    order as [String.le]. *)

From Stdlib Require Import Ascii ZArith Lia.
From Stdlib Require String.
From stdpp Require Import base option list sorting strings gmap.

#[global] Set Warnings "-clear-no-such-hyp".

(** ** The Go standard library functions the generator calls *)

(** [strings.HasPrefix(s, prefix)]. *)
Fixpoint strings_HasPrefix (s prefix : string) {struct prefix} : bool :=
  match prefix, s with
  | EmptyString, _ => true
  | String _ _, EmptyString => false
  | String c prefix', String d s' =>
      if Ascii.eqb c d then strings_HasPrefix s' prefix' else false
  end.

(** [sort.Strings]: sorts into increasing byte-wise order.  Equal strings
    cannot be told apart, so every sorting algorithm returns the same
    list (see [sort_Strings_unique]); merge sort is used here. *)
Definition sort_Strings (a : list string) : list string :=
  merge_sort String.le a.

(** Go's [<] on strings. *)
Definition string_lt : relation string := strict String.le.

(** ** The OID minimizer *)

(** One iteration of the [for _, oid := range oids] loop of
    [minimizeOids]; the loop state is [(prevOid, minimized)]. *)
Definition minimize_step (st : string * list string) (oid : string)
  : string * list string :=
  let '(prevOid, minimized) := st in
  if negb (strings_HasPrefix (oid +:+ ".") prevOid) || String.eqb prevOid ""
  then (oid +:+ ".", minimized ++ [oid])
  else (prevOid, minimized).

Definition minimizeOids (oids : list string) : list string :=
  let oids := sort_Strings oids in
  snd (fold_left minimize_step oids ("", [])).

(** The loop of [minimizeOids] written by recursion on the remaining
    input; [minimize_loop_scan] shows it is the same function. *)
Fixpoint scan (oids : list string) (prevOid : string) : list string :=
  match oids with
  | [] => []
  | oid :: rest =>
      if negb (strings_HasPrefix (oid +:+ ".") prevOid) || String.eqb prevOid ""
      then oid :: scan rest (oid +:+ ".")
      else scan rest prevOid
  end.

(** [a] is [b] or an ancestor of [b] in the OID tree: [a + "."] is a
    prefix of [b + "."]. *)
Definition dotted_prefix (a b : string) : Prop :=
  strings_HasPrefix (b +:+ ".") (a +:+ ".") = true.

(** Dotted-decimal OIDs: non-empty runs of decimal digits separated by
    single dots, with no leading or trailing dot. *)
Definition is_digit (c : ascii) : bool :=
  (48 <=? N_of_ascii c)%N && (N_of_ascii c <=? 57)%N.

Fixpoint valid_oid_from (in_segment : bool) (s : string) : bool :=
  match s with
  | EmptyString => in_segment
  | String c r =>
      if is_digit c then valid_oid_from true r
      else if Ascii.eqb c "."%char then in_segment && valid_oid_from false r
      else false
  end.

Definition valid_oid (s : string) : bool := valid_oid_from false s.

(** No two entries at different positions are related by [dotted_prefix]. *)
Definition antichain (l : list string) : Prop :=
  forall (i j : nat) (a b : string),
    l !! i = Some a -> l !! j = Some b -> i <> j -> ~ dotted_prefix a b.

(** Neither of two OIDs is the other or below the other. *)
Definition unrelated (a b : string) : Prop :=
  ~ dotted_prefix a b /\ ~ dotted_prefix b a.

(** Every entry of [l] passes the test of the loop of [minimizeOids] when
    [prev] is the loop's [prevOid] on reaching [l]. *)
Fixpoint chain_ok (prev : string) (l : list string) : Prop :=
  match l with
  | [] => True
  | x :: r =>
      negb (strings_HasPrefix (x +:+ ".") prev) || String.eqb prev "" = true
      /\ chain_ok (x +:+ ".") r
  end.

(** ** The label sanitizer *)

(** Membership of a byte in an inclusive range of byte values. *)
Definition byte_in (lo hi : N) (b : ascii) : bool :=
  (lo <=? N_of_ascii b)%N && (N_of_ascii b <=? hi)%N.

(** The width in bytes of the rune that Go's [utf8.DecodeRuneInString]
    reads at the head of a string: 1 for an ASCII byte, 2 to 4 for a
    well-formed multi-byte encoding, and 1 for a byte that starts no
    well-formed encoding (it is read as the rune U+FFFD).  The ranges are
    those of the [first] and [acceptRanges] tables of [unicode/utf8]. *)
Definition rune_width (s : string) : nat :=
  match s with
  | EmptyString => 0
  | String b0 r =>
      if byte_in 0x00 0x7F b0 then 1
      else if byte_in 0xC2 0xDF b0 then
        match r with
        | String b1 _ => if byte_in 0x80 0xBF b1 then 2 else 1
        | _ => 1
        end
      else if byte_in 0xE0 0xEF b0 then
        match r with
        | String b1 (String b2 _) =>
            let ok1 :=
              if byte_in 0xE0 0xE0 b0 then byte_in 0xA0 0xBF b1
              else if byte_in 0xED 0xED b0 then byte_in 0x80 0x9F b1
              else byte_in 0x80 0xBF b1 in
            if ok1 && byte_in 0x80 0xBF b2 then 3 else 1
        | _ => 1
        end
      else if byte_in 0xF0 0xF4 b0 then
        match r with
        | String b1 (String b2 (String b3 _)) =>
            let ok1 :=
              if byte_in 0xF0 0xF0 b0 then byte_in 0x90 0xBF b1
              else if byte_in 0xF4 0xF4 b0 then byte_in 0x80 0x8F b1
              else byte_in 0x80 0xBF b1 in
            if ok1 && byte_in 0x80 0xBF b2 && byte_in 0x80 0xBF b3
            then 4 else 1
        | _ => 1
        end
      else 1
  end.

(** The complement of the class of [invalidLabelCharRE],
    [[^a-zA-Z0-9_]]: the bytes the regular expression does not match. *)
Definition is_label_char (b : ascii) : bool :=
  byte_in 97 122 b || byte_in 65 90 b || byte_in 48 57 b
  || Ascii.eqb b "_"%char.

(** The runes of a string, each as the bytes that encode it: what Go's
    [for range] over a string, and the reading loop of its regexp engine,
    go through. *)
Fixpoint runes (s : string) : list string :=
  match s with
  | EmptyString => []
  | String b0 r0 =>
      match rune_width (String b0 r0), r0 with
      | 2, String b1 r1 => String b0 (String b1 "") :: runes r1
      | 3, String b1 (String b2 r2) =>
          String b0 (String b1 (String b2 "")) :: runes r2
      | 4, String b1 (String b2 (String b3 r3)) =>
          String b0 (String b1 (String b2 (String b3 ""))) :: runes r3
      | _, _ => String b0 "" :: runes r0
      end
  end.

(** [strings.Join(elems, sep)]. *)
Fixpoint strings_Join (elems : list string) (sep : string) : string :=
  match elems with
  | [] => ""
  | [e] => e
  | e :: rest => e +:+ sep +:+ strings_Join rest sep
  end.

(** What [ReplaceAllString(name, "_")] puts in place of one rune: the
    rune itself if [invalidLabelCharRE] does not match it, ["_"] if it
    does. *)
Definition sanitize_rune (r : string) : string :=
  match r with
  | String b EmptyString => if is_label_char b then r else "_"
  | _ => "_"
  end.

(** [sanitizeLabelName]: [invalidLabelCharRE.ReplaceAllString(name, "_")].
    Go's regexp engine reads its input rune by rune.  A rune in
    [[a-zA-Z0-9_]] is one ASCII byte and is copied; every other rune, a
    multi-byte one or the U+FFFD of a malformed byte included, matches the
    negated class and is replaced, whole, by one ["_"]. *)
Definition sanitizeLabelName (name : string) : string :=
  strings_Join (sanitize_rune <$> runes name) "".

(** The characters of [[A-Za-z0-9_]], spelled out. *)
Definition label_alphabet : list ascii :=
  String.list_ascii_of_string
    "ABCDEFGHIJKLMNOPQRSTUVWXYZabcdefghijklmnopqrstuvwxyz0123456789_".

(** Every byte of [s] satisfies [P]. *)
Fixpoint string_Forall (P : ascii -> Prop) (s : string) : Prop :=
  match s with
  | EmptyString => True
  | String c r => P c /\ string_Forall P r
  end.

(** ** The data model *)

(** A MIB object.  The declaration of the Go struct is not among the
    sources at hand; the fields are the ones [PrepareTree], [main] and
    [generateConfigModule] read and write.  [Type_] is the field [Type]. *)
#[warnings="-register-all"]
Inductive Node : Type := mkNode {
  Oid : string;
  Label : string;
  Augments : string;
  Children : list Node;
  Description : string;
  Type_ : string;
  Hint : string;
  TextualConvention : string;
  FixedSize : Z;
  Indexes : list string;
  Access : string
}.

(** Modelled from the spec: the declarations of the [config] package
    (the output model handed to the serializer) are missing from the
    sources.  The regex-extraction directives are a payload that the
    generator copies and never inspects: a list of named lists of
    (value, regex) pairs, [[]] for Go's [nil]. *)
Definition RegexpExtracts : Type := list (string * list (string * string)).

Module config.

Record Index : Type := mkIndex {
  Index_Labelname : string;
  Index_Type : string;
  Index_FixedSize : Z
}.

Record Lookup : Type := mkLookup {
  Lookup_Labels : list string;
  Lookup_Labelname : string;
  Lookup_Type : string;
  Lookup_Oid : string
}.

Record Metric : Type := mkMetric {
  Metric_Name : string;
  Metric_Oid : string;
  Metric_Type : string;
  Metric_Help : string;
  Metric_Indexes : list Index;
  Metric_Lookups : list Lookup;
  Metric_RegexpExtracts : RegexpExtracts
}.

(** [config.Module], without [WalkParams]: [generateConfigModule]
    leaves that field at its zero value and its caller fills it in. *)
Record Module_ : Type := mkModule {
  Walk : list string;
  Metrics : list Metric
}.

End config.
Import config.

(** The generator's input: one module of [generator.yml]. *)
Record Lookup_ : Type := mkLookupRule {
  OldIndex : string;
  NewIndex : string
}.

Record MetricOverrides : Type := mkMetricOverrides {
  Overrides_RegexpExtracts : RegexpExtracts
}.

(** [Overrides] is a Go map.  [generateConfigModule] ranges over it, in
    an order Go leaves unspecified: the field holds the entries of the map
    in the order this run's [range] yields them, so its keys are pairwise
    distinct. *)
Record ModuleConfig : Type := mkModuleConfig {
  cfg_Walk : list string;
  cfg_Lookups : list Lookup_;
  cfg_Overrides : list (string * MetricOverrides)
}.

(** ** Outcomes of a run *)

(** A run returns, or it is ended by [log.Fatalf] (which prints the
    message and exits), or it panics on a nil pointer. *)
Inductive result (A : Type) : Type :=
  | Ok (a : A)
  | Fatal (msg : string)
  | Panic.
Arguments Ok {A} a.
Arguments Fatal {A} msg.
Arguments Panic {A}.

#[global] Instance result_ret : MRet result := fun A a => Ok a.
#[global] Instance result_bind : MBind result := fun A B f m =>
  match m with
  | Ok a => f a
  | Fatal msg => Fatal msg
  | Panic => Panic
  end.

(** ** The classifiers *)

(** [metricType]: [Some k] stands for [(k, true)], [None] for
    [("", false)]. *)
Definition metricType (t : string) : option string :=
  if bool_decide (t ∈ ["INTEGER"; "GAUGE"; "TIMETICKS"; "UINTEGER";
                       "UNSIGNED32"; "INTEGER32"])
  then Some "gauge"
  else if bool_decide (t ∈ ["COUNTER"; "COUNTER64"]) then Some "counter"
  else if bool_decide (t ∈ ["OCTETSTR"; "BITSTRING"]) then Some "OctetString"
  else if bool_decide (t = "IPADDR") then Some "IpAddr"
  else if bool_decide (t = "NETADDR") then Some "InetAddress"
  else if bool_decide (t ∈ ["PhysAddress48"; "DisplayString"]) then Some t
  else None.

Definition metricAccess (a : string) : bool :=
  bool_decide (a ∈ ["ACCESS_READONLY"; "ACCESS_READWRITE"; "ACCESS_CREATE";
                    "ACCESS_NOACCESS"]).

(** ** Walking a tree that is only read *)

(** [WalkNode] with a callback that reads the nodes and updates a state
    of its own (in [generateConfigModule], the list of metrics). *)
Fixpoint WalkNode {St : Type} (n : Node) (f : Node -> St -> St) (st : St)
  : St :=
  match n with
  | mkNode _ _ _ children _ _ _ _ _ _ _ =>
      fold_left (fun st c => WalkNode c f st) children (f n st)
  end.

(** ** The module generator *)

(** In [generateConfigModule] the tree is only read, so a pointer
    [*Node] is modelled by the node it points to: the Name Index
    [nameToNode] is a finite map from OIDs and labels to nodes.  The
    warnings of [log.Warnf] are not modelled. *)

(** The first loop: resolve every [walk] entry to its node's OID. *)
Fixpoint resolveWalk (nameToNode : gmap string Node) (walk : list string)
    (toWalk : list string) : result (list string) :=
  match walk with
  | [] => Ok toWalk
  | oid :: rest =>
      match nameToNode !! oid with
      | None => Fatal ("Cannot find oid '" +:+ oid +:+ "' to walk")
      | Some node => resolveWalk nameToNode rest (toWalk ++ [Oid node])
      end
  end.

(** The loop over [n.Indexes] in the callback; [None] is the callback's
    early [return], which drops the candidate metric. *)
Fixpoint buildIndexes (nameToNode : gmap string Node) (indexes : list string)
    (acc : list Index) : option (list Index) :=
  match indexes with
  | [] => Some acc
  | i :: rest =>
      match nameToNode !! i with
      | None => None
      | Some indexNode =>
          match metricType (Type_ indexNode) with
          | None => None
          | Some t =>
              buildIndexes nameToNode rest
                (acc ++ [mkIndex i t (FixedSize indexNode)])
          end
      end
  end.

(** The callback given to [WalkNode]; the state is [out.Metrics]. *)
Definition visitNode (nameToNode : gmap string Node) (n : Node)
    (metrics : list Metric) : list Metric :=
  match metricType (Type_ n) with
  | None => metrics
  | Some t =>
      if negb (metricAccess (Access n)) then metrics
      else
        match buildIndexes nameToNode (Indexes n) [] with
        | None => metrics
        | Some indexes =>
            metrics ++
            [mkMetric (sanitizeLabelName (Label n)) (Oid n) t
               (Description n +:+ " - " +:+ Oid n) indexes [] []]
        end
  end.

(** The second loop, over the minimized walk list.  The state is
    [(out.Metrics, needToWalk)].  [nameToNode[oid]] is not checked: a
    missing entry yields a nil pointer, and [node.Oid] panics. *)
Fixpoint findMetrics (nameToNode : gmap string Node) (toWalk : list string)
    (st : list Metric * gset string) : result (list Metric * gset string) :=
  match toWalk with
  | [] => Ok st
  | oid :: rest =>
      match nameToNode !! oid with
      | None => Panic
      | Some node =>
          let '(metrics, needToWalk) := st in
          findMetrics nameToNode rest
            (WalkNode node (visitNode nameToNode) metrics,
             {[ Oid node ]} ∪ needToWalk)
      end
  end.

(** The body of the innermost loop of "Apply lookups", for one index of
    one metric; the state is [(metric.Lookups, needToWalk)]. *)
Definition lookupIndex (nameToNode : gmap string Node) (lookup : Lookup_)
    (index : Index) (st : list Lookup * gset string)
  : result (Index * (list Lookup * gset string)) :=
  let '(lookups, needToWalk) := st in
  if String.eqb (Index_Labelname index) (OldIndex lookup) then
    match nameToNode !! NewIndex lookup with
    | None => Fatal ("Unknown index '" +:+ NewIndex lookup +:+ "'")
    | Some indexNode =>
        match metricType (Type_ indexNode) with
        | None =>
            Fatal ("Unknown index type " +:+ Type_ indexNode +:+ " for "
                   +:+ NewIndex lookup)
        | Some typ =>
            Ok (mkIndex (sanitizeLabelName (Label indexNode))
                  (Index_Type index) (Index_FixedSize index),
                (lookups ++
                 [mkLookup [sanitizeLabelName (Label indexNode)]
                    (sanitizeLabelName (Label indexNode)) typ
                    (Oid indexNode)],
                 {[ Oid indexNode ]} ∪ needToWalk))
        end
    end
  else Ok (index, st).

(** [for _, index := range metric.Indexes]. *)
Fixpoint lookupIndexes (nameToNode : gmap string Node) (lookup : Lookup_)
    (indexes : list Index) (st : list Lookup * gset string)
  : result (list Index * (list Lookup * gset string)) :=
  match indexes with
  | [] => Ok ([], st)
  | index :: rest =>
      '(index', st') ← lookupIndex nameToNode lookup index st;
      '(rest', st'') ← lookupIndexes nameToNode lookup rest st';
      Ok (index' :: rest', st'')
  end.

(** [for _, metric := range out.Metrics]. *)
Fixpoint lookupMetrics (nameToNode : gmap string Node) (lookup : Lookup_)
    (metrics : list Metric) (needToWalk : gset string)
  : result (list Metric * gset string) :=
  match metrics with
  | [] => Ok ([], needToWalk)
  | metric :: rest =>
      '(indexes, (lookups, needToWalk')) ←
        lookupIndexes nameToNode lookup (Metric_Indexes metric)
          (Metric_Lookups metric, needToWalk);
      '(rest', needToWalk'') ←
        lookupMetrics nameToNode lookup rest needToWalk';
      Ok (mkMetric (Metric_Name metric) (Metric_Oid metric)
            (Metric_Type metric) (Metric_Help metric) indexes lookups
            (Metric_RegexpExtracts metric) :: rest',
          needToWalk'')
  end.

(** [for _, lookup := range cfg.Lookups]. *)
Fixpoint applyLookups (nameToNode : gmap string Node) (lookups : list Lookup_)
    (st : list Metric * gset string) : result (list Metric * gset string) :=
  match lookups with
  | [] => Ok st
  | lookup :: rest =>
      st' ← lookupMetrics nameToNode lookup st.1 st.2;
      applyLookups nameToNode rest st'
  end.

(** The body of the loops of "Apply module config overrides", for one
    entry of [cfg.Overrides] and one metric. *)
Definition overrideMetric (name : string) (params : MetricOverrides)
    (metric : Metric) : Metric :=
  if String.eqb name (Metric_Name metric) || String.eqb name (Metric_Oid metric)
  then mkMetric (Metric_Name metric) (Metric_Oid metric) (Metric_Type metric)
         (Metric_Help metric) (Metric_Indexes metric) (Metric_Lookups metric)
         (Overrides_RegexpExtracts params)
  else metric.

(** [for name, params := range cfg.Overrides], over the entries in the
    order [range] yields them. *)
Definition applyOverrides (overrides : list (string * MetricOverrides))
    (metrics : list Metric) : list Metric :=
  fold_left (fun metrics '(name, params) =>
               overrideMetric name params <$> metrics)
            overrides metrics.

(** The state of the run when the loop over [cfg.Lookups] has gone
    through the rules [lookups]. *)
Definition lookupsApplied (cfg : ModuleConfig) (nameToNode : gmap string Node)
    (lookups : list Lookup_) : result (list Metric * gset string) :=
  toWalk ← resolveWalk nameToNode (cfg_Walk cfg) [];
  st ← findMetrics nameToNode (minimizeOids toWalk) ([], ∅);
  applyLookups nameToNode lookups st.

(** [generateConfigModule].  The parameter [node] is shadowed before it
    is used.  [range needToWalk] yields the keys of the set in an
    unspecified order; [minimizeOids] sorts them, so any order gives the
    same [out.Walk] (see [minimizeOids_perm]). *)
Definition generateConfigModule (cfg : ModuleConfig) (node : Node)
    (nameToNode : gmap string Node) : result Module_ :=
  '(metrics, needToWalk) ← lookupsApplied cfg nameToNode (cfg_Lookups cfg);
  let metrics := applyOverrides (cfg_Overrides cfg) metrics in
  let oids := elements needToWalk in
  Ok (mkModule (minimizeOids oids) metrics).

(** An override key matches a metric by name or by OID. *)
Definition override_matches (name : string) (metric : Metric) : Prop :=
  name = Metric_Name metric \/ name = Metric_Oid metric.

(** What the loops of "Apply module config overrides" do to one metric. *)
Definition overrideAll (overrides : list (string * MetricOverrides))
    (metric : Metric) : Metric :=
  fold_left (fun metric '(name, params) => overrideMetric name params metric)
            overrides metric.

(** ** Preparing the tree *)

(** [PrepareTree] changes the nodes in place, through pointers: the
    pointers kept in [nameToNode] and the ones [WalkNode] follows reach
    the same nodes.  The store is the tree itself, and a pointer to a
    node is the path of child positions that leads to it from the root.
    No pass changes which children a node has, so a pointer always
    reaches the same node. *)
Definition ptr : Type := list nat.

Definition set_Children (children : list Node) (n : Node) : Node :=
  mkNode (Oid n) (Label n) (Augments n) children (Description n) (Type_ n)
    (Hint n) (TextualConvention n) (FixedSize n) (Indexes n) (Access n).

Definition set_Description (description : string) (n : Node) : Node :=
  mkNode (Oid n) (Label n) (Augments n) (Children n) description (Type_ n)
    (Hint n) (TextualConvention n) (FixedSize n) (Indexes n) (Access n).

Definition set_Type (type : string) (n : Node) : Node :=
  mkNode (Oid n) (Label n) (Augments n) (Children n) (Description n) type
    (Hint n) (TextualConvention n) (FixedSize n) (Indexes n) (Access n).

Definition set_Indexes (indexes : list string) (n : Node) : Node :=
  mkNode (Oid n) (Label n) (Augments n) (Children n) (Description n) (Type_ n)
    (Hint n) (TextualConvention n) (FixedSize n) indexes (Access n).

(** The node a pointer reaches. *)
Fixpoint deref (p : ptr) (root : Node) : option Node :=
  match p with
  | [] => Some root
  | i :: p' =>
      match Children root !! i with
      | Some c => deref p' c
      | None => None
      end
  end.

(** Assignment through a pointer: the node it reaches becomes [f] of
    itself. *)
Fixpoint update (p : ptr) (f : Node -> Node) (root : Node) : Node :=
  match p with
  | [] => f root
  | i :: p' => set_Children (alter (update p' f) i (Children root)) root
  end.

(** [WalkNode] with a callback that works through the pointer it is
    given, on a state [St] (the tree, or the map being built).  [n] is the
    node at [here] when the walk starts; its children are the same when
    the walk comes to them. *)
Fixpoint WalkNodePtr {St : Type} (n : Node) (here : ptr)
    (f : ptr -> St -> St) (st : St) : St :=
  match n with
  | mkNode _ _ _ children _ _ _ _ _ _ _ =>
      (fix walkChildren (cs : list Node) (i : nat) (st : St) : St :=
         match cs with
         | [] => st
         | c :: cs' =>
             walkChildren cs' (S i) (WalkNodePtr c (here ++ [i]) f st)
         end) children 0%nat (f here st)
  end.

(** [unicode.IsSpace], on an encoded rune: the six ASCII white-space
    bytes, U+0085, U+00A0, U+1680, U+2000 to U+200A, U+2028, U+2029,
    U+202F, U+205F and U+3000. *)
Definition unicode_IsSpace (r : string) : bool :=
  match r with
  | String b EmptyString => byte_in 9 13 b || byte_in 32 32 b
  | String b0 (String b1 EmptyString) =>
      byte_in 0xC2 0xC2 b0 && (byte_in 0x85 0x85 b1 || byte_in 0xA0 0xA0 b1)
  | String b0 (String b1 (String b2 EmptyString)) =>
      (byte_in 0xE1 0xE1 b0 && byte_in 0x9A 0x9A b1 && byte_in 0x80 0x80 b2)
      || (byte_in 0xE2 0xE2 b0 && byte_in 0x80 0x80 b1 &&
          (byte_in 0x80 0x8A b2 || byte_in 0xA8 0xA9 b2
           || byte_in 0xAF 0xAF b2))
      || (byte_in 0xE2 0xE2 b0 && byte_in 0x81 0x81 b1 && byte_in 0x9F 0x9F b2)
      || (byte_in 0xE3 0xE3 b0 && byte_in 0x80 0x80 b1 && byte_in 0x80 0x80 b2)
  | _ => false
  end.

(** The loop of [strings.Fields] over the runes; [cur] is the field being
    read, if any. *)
Fixpoint fields_loop (rs : list string) (cur : option string) : list string :=
  match rs with
  | [] => match cur with Some f => [f] | None => [] end
  | r :: rs' =>
      if unicode_IsSpace r then
        match cur with
        | Some f => f :: fields_loop rs' None
        | None => fields_loop rs' None
        end
      else
        fields_loop rs' (Some (match cur with Some f => f +:+ r | None => r end))
  end.

(** [strings.Fields]. *)
Definition strings_Fields (s : string) : list string :=
  fields_loop (runes s) None.

(** [strings.Split(s, ". ")[0]]: [s] up to its first [". "], all of [s]
    if it has none. *)
Fixpoint first_sentence (s : string) : string :=
  match s with
  | EmptyString => ""
  | String c r =>
      if strings_HasPrefix s ". " then "" else String c (first_sentence r)
  end.

(** [displayStringRe.MatchString], for the pattern [\d+[at]]: somewhere
    a decimal digit is followed by ['a'] or ['t']. *)
Fixpoint displayStringRe_MatchString (s : string) : bool :=
  match s with
  | String c ((String d _) as r) =>
      (is_digit c && (Ascii.eqb d "a" || Ascii.eqb d "t"))
      || displayStringRe_MatchString r
  | _ => false
  end.

(** The callbacks of the six walks of [PrepareTree], in order. *)

Definition indexNode (root : Node) (p : ptr) (nameToNode : gmap string ptr)
  : gmap string ptr :=
  match deref p root with
  | Some n => <[Label n := p]> (<[Oid n := p]> nameToNode)
  | None => nameToNode
  end.

Definition trimDescription (n : Node) : Node :=
  let s := strings_Join (strings_Fields (Description n)) " " in
  set_Description (first_sentence s) n.

Definition fixIndexes (n : Node) : Node :=
  set_Indexes
    ((fun i => if String.eqb i "INTEGER" then Label n else i) <$> Indexes n) n.

(** [for _, c := range n.Children { c.Indexes = indexes }]. *)
Definition setChildrenIndexes (indexes : list string) (n : Node) : Node :=
  set_Children (set_Indexes indexes <$> Children n) n.

(** [for _, c := range n.Children { c.Indexes = indexes }] and then
    [n.Indexes = indexes]. *)
Definition assignIndexes (indexes : list string) (n : Node) : Node :=
  set_Indexes indexes (setChildrenIndexes indexes n).

Definition copyAugments (nameToNode : gmap string ptr) (p : ptr) (root : Node)
  : Node :=
  match deref p root with
  | None => root
  | Some n =>
      if String.eqb (Augments n) "" then root
      else
        match nameToNode !! Augments n ≫= (fun q => deref q root) with
        | None => root
        | Some augmented =>
            update p (assignIndexes (Indexes augmented)) root
        end
  end.

Definition copyIndexesDown (p : ptr) (root : Node) : Node :=
  match deref p root with
  | None => root
  | Some n =>
      if bool_decide (length (Indexes n) <> 0%nat)
      then update p (setChildrenIndexes (Indexes n)) root
      else root
  end.

Definition setType (n : Node) : Node :=
  let n := if String.eqb (Hint n) "1x:" then set_Type "PhysAddress48" n
           else n in
  let n := if displayStringRe_MatchString (Hint n)
           then set_Type "DisplayString" n else n in
  if String.eqb (TextualConvention n) "DisplayString"
  then set_Type "DisplayString" n else n.

(** [PrepareTree]: the tree after the six walks, and [nameToNode]. *)
Definition PrepareTree (nodes : Node) : Node * gmap string ptr :=
  let nameToNode := WalkNodePtr nodes [] (indexNode nodes) ∅ in
  let nodes := WalkNodePtr nodes [] (fun p => update p trimDescription) nodes in
  let nodes := WalkNodePtr nodes [] (fun p => update p fixIndexes) nodes in
  let nodes := WalkNodePtr nodes [] (copyAugments nameToNode) nodes in
  let nodes := WalkNodePtr nodes [] copyIndexesDown nodes in
  let nodes := WalkNodePtr nodes [] (fun p => update p setType) nodes in
  (nodes, nameToNode).

(** The Name Index as [generateConfigModule] reads it: every name with
    the node its pointer reaches. *)
Definition derefAll (nodes : Node) (nameToNode : gmap string ptr)
  : gmap string Node :=
  omap (fun p => deref p nodes) nameToNode.

(** ** Notions used in the proofs about [PrepareTree] *)

(** The pointers to the nodes of a tree, in the order [WalkNode] visits
    them. *)
Fixpoint number_paths (i : nat) (l : list (list ptr)) : list ptr :=
  match l with
  | [] => []
  | ps :: l' => ((fun p => i :: p) <$> ps) ++ number_paths (S i) l'
  end.

Fixpoint paths (n : Node) : list ptr :=
  match n with
  | mkNode _ _ _ children _ _ _ _ _ _ _ =>
      [] :: number_paths 0 (map paths children)
  end.

(** Induction on trees, with the hypothesis for every child. *)
Fixpoint Node_children_ind (P : Node -> Prop)
    (H : forall n, Forall P (Children n) -> P n) (n : Node) : P n :=
  H n
    match n return Forall P (Children n) with
    | mkNode _ _ _ children _ _ _ _ _ _ _ =>
        (fix all (l : list Node) : Forall P l :=
           match l with
           | [] => @List.Forall_nil Node P
           | c :: l' =>
               @List.Forall_cons Node P c l' (Node_children_ind P H c) (all l')
           end) children
    end.

(** [q] is neither [p] nor a child of [p]. *)
Definition far (p q : ptr) : Prop := q <> p /\ forall i, q <> p ++ [i].

(** A callback body that leaves the shape of the tree alone: it keeps
    the label and [Augments] of the node and of its children, and the
    children of its children. *)
Definition local (g : Node -> Node) : Prop :=
  forall n,
    Label (g n) = Label n /\ Augments (g n) = Augments n /\
    length (Children (g n)) = length (Children n) /\
    forall i c, Children n !! i = Some c ->
      exists c', Children (g n) !! i = Some c' /\ Label c' = Label c /\
                 Augments c' = Augments c /\ Children c' = Children c.

(** What the proofs about [PrepareTree] keep track of, for a tree [t]
    that one of the walks is working on. *)

(** The nodes above [p] have no indexes. *)
Definition ancestors_unindexed (p : ptr) (t : Node) : Prop :=
  forall q r, p = q ++ r -> r <> [] -> Indexes <$> deref q t = Some [].

(** The node at [p] has the index list [v]. *)
Definition indexed_by (v : list string) (p : ptr) (t : Node) : Prop :=
  Indexes <$> deref p t = Some v.

(** A string of characters of [[A-Za-z0-9_]]. *)
Definition label_ok (s : string) : Prop :=
  string_Forall (fun c => c ∈ label_alphabet) s.

(** The name of a metric and the labelnames of its lookups are
    sanitized. *)
Definition metric_names_ok (metric : Metric) : Prop :=
  label_ok (Metric_Name metric) /\
  Forall (fun l => label_ok (Lookup_Labelname l)) (Metric_Lookups metric).



(** ** Example data *)

(** The interface counter of the end-to-end scenario, and its index. *)
Definition ifInOctets : Node :=
  mkNode "1.3.6.1.2.1.2.2.1.10" "ifInOctets" "" [] "" "COUNTER" "" "" 0
    ["ifIndex"] "ACCESS_READWRITE".

Definition ifIndex : Node :=
  mkNode "1.3.6.1.2.1.2.2.1.1" "ifIndex" "" [] "" "INTEGER" "" "" 0 []
    "ACCESS_READONLY".

Definition ifNameToNode : gmap string Node :=
  <["1.3.6.1.2.1.2.2.1.10" := ifInOctets]>
    (<["ifInOctets" := ifInOctets]>
       (<["1.3.6.1.2.1.2.2.1.1" := ifIndex]> (<["ifIndex" := ifIndex]> ∅))).

(** The tree whose nodes are exactly the root [ifInOctets] and
    [ifIndex], which is then the child of the root, and its Name
    Index. *)
Definition ifInOctetsTree : Node :=
  mkNode "1.3.6.1.2.1.2.2.1.10" "ifInOctets" "" [ifIndex] "" "COUNTER" "" "" 0
    ["ifIndex"] "ACCESS_READWRITE".

Definition ifTreeNameToNode : gmap string Node :=
  <["1.3.6.1.2.1.2.2.1.10" := ifInOctetsTree]>
    (<["ifInOctets" := ifInOctetsTree]>
       (<["1.3.6.1.2.1.2.2.1.1" := ifIndex]> (<["ifIndex" := ifIndex]> ∅))).

(** A table column indexed by an object whose label has a hyphen, as
    SMIv1 descriptors may. *)
Definition lanRxOctets : Node :=
  mkNode "1.3.6.1.4.1.9.1.2" "lanRxOctets" "" [] "" "COUNTER" "" "" 0
    ["lan-Index"] "ACCESS_READONLY".

Definition lanIndex : Node :=
  mkNode "1.3.6.1.4.1.9.1.1" "lan-Index" "" [] "" "INTEGER" "" "" 0 []
    "ACCESS_READONLY".

Definition lanNameToNode : gmap string Node :=
  <["1.3.6.1.4.1.9.1.2" := lanRxOctets]>
    (<["lanRxOctets" := lanRxOctets]>
       (<["1.3.6.1.4.1.9.1.1" := lanIndex]> (<["lan-Index" := lanIndex]> ∅))).

(** The metric of the end-to-end scenario, and two override entries that
    both select it, one by name and one by OID. *)
Definition ifInOctetsMetric : Metric :=
  mkMetric "ifInOctets" "1.3.6.1.2.1.2.2.1.10" "counter"
    " - 1.3.6.1.2.1.2.2.1.10" [mkIndex "ifIndex" "gauge" 0] [] [].

Definition overridesByNameAndOid : list (string * MetricOverrides) :=
  [("ifInOctets", mkMetricOverrides [("Rate", [("1", "^up$")])]);
   ("1.3.6.1.2.1.2.2.1.10", mkMetricOverrides [("Load", [("0", "^down$")])])].

(** A table row [A] indexed by an anonymous integer, and a row [B] that
    augments it, with one column. *)
Definition rowA : Node :=
  mkNode "1.1" "A" "" [] "" "" "" "" 0 ["INTEGER"] "".

Definition rowB : Node :=
  mkNode "1.2" "B" "A"
    [mkNode "1.2.1" "bColumn" "" [] "" "INTEGER" "" "" 0 [] "ACCESS_READONLY"]
    "" "" "" "" 0 [] "".

Definition augmentingTree : Node :=
  mkNode "1" "root" "" [rowA; rowB] "" "" "" "" 0 [] "".




(** A table entry indexed by [ifIndex], with two columns that have no
    indexes of their own. *)
Definition ifEntry : Node :=
  mkNode "1.3.6.1.2.1.2.2.1" "ifEntry" ""
    [mkNode "1.3.6.1.2.1.2.2.1.1" "ifIndex" "" []
       "A unique value,   greater than zero. It is recommended that values..."
       "INTEGER" "" "" 0 [] "ACCESS_READONLY";
     mkNode "1.3.6.1.2.1.2.2.1.2" "ifDescr" "" [] "A textual string"
       "OCTETSTR" "255a" "" 0 [] "ACCESS_READONLY"]
    "An entry" "" "" "" 0 ["ifIndex"] "ACCESS_NOACCESS".

(** The byte-wise image of a string. *)
Fixpoint string_map (f : ascii -> ascii) (s : string) : string :=
  match s with
  | EmptyString => EmptyString
  | String c r => String (f c) (string_map f r)
  end.

(** ** Notions used in the further properties of the generator *)

(** The nodes of a tree in pre-order: a node, then the trees of its
    children from first to last. *)
Fixpoint preorder (n : Node) : list Node :=
  match n with
  | mkNode _ _ _ children _ _ _ _ _ _ _ => n :: concat (map preorder children)
  end.

(** The index entry that the callback of [generateConfigModule] builds
    for the label [i], when [i] resolves to a node of classifiable
    type. *)
Definition indexOf (nameToNode : gmap string Node) (i : string)
  : option Index :=
  match nameToNode !! i with
  | None => None
  | Some indexNode =>
      match metricType (Type_ indexNode) with
      | None => None
      | Some t => Some (mkIndex i t (FixedSize indexNode))
      end
  end.

(** The metric that the callback of [generateConfigModule] appends for
    the node [n], if it appends one. *)
Definition metricOf (nameToNode : gmap string Node) (n : Node)
  : option Metric :=
  match metricType (Type_ n) with
  | None => None
  | Some t =>
      if metricAccess (Access n) then
        match mapM (indexOf nameToNode) (Indexes n) with
        | None => None
        | Some indexes =>
            Some (mkMetric (sanitizeLabelName (Label n)) (Oid n) t
                    (Description n +:+ " - " +:+ Oid n) indexes [] [])
        end
      else None
  end.

(** The output kinds of [metricType]. *)
Definition metricKinds : list string :=
  ["gauge"; "counter"; "OctetString"; "IpAddr"; "InetAddress";
   "PhysAddress48"; "DisplayString"].

(** The index label [i] cannot be used: it does not resolve, or it
    resolves to a node whose type has no output kind. *)
Definition index_unusable (nameToNode : gmap string Node) (i : string) : Prop :=
  match nameToNode !! i with
  | None => True
  | Some indexNode => metricType (Type_ indexNode) = None
  end.

(** [index] is the entry for the label [i]: [i] resolves to a node of
    classifiable type, and the entry has the label, the output kind and
    the fixed size of that node. *)
Definition index_for (nameToNode : gmap string Node) (i : string)
    (index : Index) : Prop :=
  exists indexNode,
    nameToNode !! i = Some indexNode /\
    metricType (Type_ indexNode) = Some (Index_Type index) /\
    Index_Labelname index = i /\
    Index_FixedSize index = FixedSize indexNode.

(** What a lookup rule whose target is [indexNode] makes of an index:
    an index labelled [OldIndex] gets the sanitized label of the target,
    any other index stays. *)
Definition rewriteIndex (lookup : Lookup_) (indexNode : Node) (index : Index)
  : Index :=
  if String.eqb (Index_Labelname index) (OldIndex lookup)
  then mkIndex (sanitizeLabelName (Label indexNode)) (Index_Type index)
         (Index_FixedSize index)
  else index.

(** The lookup entry for the target [indexNode] of output kind [typ]. *)
Definition lookupOf (indexNode : Node) (typ : string) : Lookup :=
  mkLookup [sanitizeLabelName (Label indexNode)]
    (sanitizeLabelName (Label indexNode)) typ (Oid indexNode).

(** The indexes that a lookup rule applies to. *)
Definition matching (lookup : Lookup_) (indexes : list Index) : list Index :=
  filter (fun i => Index_Labelname i = OldIndex lookup) indexes.

(** What a lookup rule makes of a metric: its matching indexes are
    rewritten, and one lookup entry is appended for each of them. *)
Definition rewriteMetric (lookup : Lookup_) (indexNode : Node) (typ : string)
    (metric : Metric) : Metric :=
  mkMetric (Metric_Name metric) (Metric_Oid metric) (Metric_Type metric)
    (Metric_Help metric)
    (rewriteIndex lookup indexNode <$> Metric_Indexes metric)
    (Metric_Lookups metric ++
     replicate (length (matching lookup (Metric_Indexes metric)))
       (lookupOf indexNode typ))
    (Metric_RegexpExtracts metric).

(** The lookup entry [l] comes from one of the rules [rules]: the target
    of the rule resolves to a node of classifiable type, and [l] is the
    entry for that node. *)
Definition lookup_from (nameToNode : gmap string Node) (rules : list Lookup_)
    (l : Lookup) : Prop :=
  exists rule indexNode typ,
    rule ∈ rules /\ nameToNode !! NewIndex rule = Some indexNode /\
    metricType (Type_ indexNode) = Some typ /\ l = lookupOf indexNode typ.

(** What the rules [rules] can have made of an index: its type and fixed
    size stay, and its labelname stays or is the sanitized label of the
    target of one of the rules. *)
Definition index_effect (nameToNode : gmap string Node) (rules : list Lookup_)
    (index index' : Index) : Prop :=
  Index_Type index' = Index_Type index /\
  Index_FixedSize index' = Index_FixedSize index /\
  (Index_Labelname index' = Index_Labelname index \/
   exists rule indexNode,
     rule ∈ rules /\ nameToNode !! NewIndex rule = Some indexNode /\
     Index_Labelname index' = sanitizeLabelName (Label indexNode)).

(** What the rules [rules] can have made of a metric, [needToWalk] being
    the OIDs to walk afterwards: name, OID, type, help and regex
    extractions stay, the indexes stay in place up to [index_effect], and
    lookup entries that come from the rules, with their OIDs among the
    OIDs to walk, are appended. *)
Definition lookups_effect (nameToNode : gmap string Node)
    (rules : list Lookup_) (needToWalk : gset string)
    (metric metric' : Metric) : Prop :=
  Metric_Name metric' = Metric_Name metric /\
  Metric_Oid metric' = Metric_Oid metric /\
  Metric_Type metric' = Metric_Type metric /\
  Metric_Help metric' = Metric_Help metric /\
  Metric_RegexpExtracts metric' = Metric_RegexpExtracts metric /\
  Forall2 (index_effect nameToNode rules)
    (Metric_Indexes metric) (Metric_Indexes metric') /\
  exists new,
    Metric_Lookups metric' = Metric_Lookups metric ++ new /\
    Forall (fun l => lookup_from nameToNode rules l /\
                     Lookup_Oid l ∈ needToWalk) new.

(** A Name Index in which the OID of every node it holds is a key, for
    a node with that OID.  The index that [PrepareTree] builds is of that
    kind when no label of the tree is the OID of a node. *)
Definition closed_index (nameToNode : gmap string Node) : Prop :=
  forall k n, nameToNode !! k = Some n ->
    exists n', nameToNode !! Oid n = Some n' /\ Oid n' = Oid n.

(** A Name Index in which the OID of every node it holds is a key. *)
Definition oids_are_keys (nameToNode : gmap string Node) : Prop :=
  forall k n, nameToNode !! k = Some n -> is_Some (nameToNode !! Oid n).

(** A metric as the metric walk leaves it: its type and the types of its
    indexes are output kinds, and it has no lookups and no regex
    extractions yet. *)
Definition fresh_metric (metric : Metric) : Prop :=
  Metric_Type metric ∈ metricKinds /\
  Forall (fun i => Index_Type i ∈ metricKinds) (Metric_Indexes metric) /\
  Metric_Lookups metric = [] /\ Metric_RegexpExtracts metric = [].

(** [output] is what a run with the rules [rules] made of the metric
    [found] that the metric walk had appended, [needToWalk] being the
    OIDs to walk in the end. *)
Definition output_of (nameToNode : gmap string Node) (rules : list Lookup_)
    (needToWalk : gset string) (found output : Metric) : Prop :=
  Metric_Name output = Metric_Name found /\
  Metric_Oid output = Metric_Oid found /\
  Metric_Type output = Metric_Type found /\
  Metric_Help output = Metric_Help found /\
  Forall2 (index_effect nameToNode rules)
    (Metric_Indexes found) (Metric_Indexes output) /\
  Forall (fun l => lookup_from nameToNode rules l /\
                   Lookup_Oid l ∈ needToWalk) (Metric_Lookups output).

(** A metric whose type, index types and lookup types are output
    kinds. *)
Definition metric_kinds_ok (metric : Metric) : Prop :=
  Metric_Type metric ∈ metricKinds /\
  Forall (fun i => Index_Type i ∈ metricKinds) (Metric_Indexes metric) /\
  Forall (fun l => Lookup_Type l ∈ metricKinds) (Metric_Lookups metric).

(** A lookup target whose type has no output kind. *)
Definition ifSpecific : Node :=
  mkNode "1.3.6.1.2.1.2.2.1.22" "ifSpecific" "" [] "" "OBJID" "" "" 0
    ["ifIndex"] "ACCESS_READONLY".

(** ** Notions used in the further properties of [PrepareTree] *)

(** The node at [p] goes by the name [name]: its OID or its label is
    [name]. *)
Definition named (nodes : Node) (name : string) (p : ptr) : bool :=
  match deref p nodes with
  | Some n => bool_decide (name = Oid n \/ name = Label n)
  | None => false
  end.

(** The tree whose every node is [g] of the node of [n] at the same
    place, with the children of that node treated the same way. *)
Fixpoint mapNodes (g : Node -> Node) (n : Node) : Node :=
  match n with
  | mkNode _ _ _ children _ _ _ _ _ _ _ =>
      set_Children (map (mapNodes g) children) (g n)
  end.

(** The body of the callback of "Copy indexes from table entries down to
    the entries". *)
Definition pushIndexes (n : Node) : Node :=
  if bool_decide (length (Indexes n) <> 0%nat)
  then setChildrenIndexes (Indexes n) n else n.

(** The index list that a child [c] of a node with the index list
    [indexes] has after the callback has run at that node. *)
Definition inherited (indexes : list string) (c : Node) : list string :=
  if bool_decide (length indexes <> 0%nat) then indexes else Indexes c.

(** The tree [n] with the index list [indexes] at its root and, below
    every node that has indexes, those indexes. *)
Fixpoint pushDown (indexes : list string) (n : Node) : Node :=
  match n with
  | mkNode _ _ _ children _ _ _ _ _ _ _ =>
      set_Children (map (fun c => pushDown (inherited indexes c) c) children)
        (set_Indexes indexes n)
  end.

(** What [PrepareTree] makes of a node [n0], apart from its index list
    and from what it makes of its children: the description is trimmed,
    the type is set, and nothing else changes. *)
Definition prepared_from (n0 n : Node) : Prop :=
  Oid n = Oid n0 /\ Label n = Label n0 /\ Augments n = Augments n0 /\
  Hint n = Hint n0 /\ TextualConvention n = TextualConvention n0 /\
  FixedSize n = FixedSize n0 /\ Access n = Access n0 /\
  Description n = Description (trimDescription n0) /\
  Type_ n = Type_ (setType n0) /\
  length (Children n) = length (Children n0).

(** [strings.Contains(s, substr)]. *)
Fixpoint strings_Contains (s substr : string) : bool :=
  strings_HasPrefix s substr ||
  match s with
  | String _ r => strings_Contains r substr
  | EmptyString => false
  end.

(** The ASCII white-space bytes: tab, line feed, vertical tab, form
    feed, carriage return and space. *)
Definition is_space_byte (b : ascii) : bool :=
  byte_in 9 13 b || byte_in 32 32 b.

(** A text whose only ASCII white space is single spaces, none of them
    at the start when [after_space] is set. *)
Fixpoint single_spaced (after_space : bool) (s : string) : bool :=
  match s with
  | EmptyString => true
  | String c r =>
      if is_space_byte c
      then Ascii.eqb c " " && negb after_space && single_spaced true r
      else single_spaced false r
  end.

(** A word: a string that is not empty and has no ASCII white space. *)
Definition word (f : string) : Prop :=
  f <> EmptyString /\ string_Forall (fun b => is_space_byte b = false) f.

(** * Properties *)

(** ** Properties of the string functions *)

Lemma app_nil_l_s (a : string) : "" +:+ a = a.
Proof. reflexivity. Qed.

Lemma app_cons_s (c : ascii) (a b : string) :
  String c a +:+ b = String c (a +:+ b).
Proof. reflexivity. Qed.


Lemma app_nil_r_s (a : string) : a +:+ "" = a.
Proof. induction a as [|x a IH]; [done|]. by rewrite app_cons_s, IH. Qed.

Lemma HasPrefix_spec (s p : string) :
  strings_HasPrefix s p = true <-> exists t, s = p +:+ t.
Proof.
  revert s. induction p as [|c p IH]; intros s; simpl.
  - split; [intros _; exists s; reflexivity | done].
  - destruct s as [|d s].
    + split; [done | intros [t Ht]; discriminate Ht].
    + destruct (Ascii.eqb c d) eqn:E.
      * apply Ascii.eqb_eq in E as ->. rewrite IH.
        split; intros [t Ht]; exists t.
        -- by rewrite app_cons_s, Ht.
        -- rewrite app_cons_s in Ht. by injection Ht.
      * apply Ascii.eqb_neq in E.
        split; [done|].
        intros [t Ht]. rewrite app_cons_s in Ht. injection Ht; congruence.
Qed.

Lemma HasPrefix_refl (s : string) : strings_HasPrefix s s = true.
Proof.
  induction s as [|c s IH]; simpl; [done|]. by rewrite Ascii.eqb_refl.
Qed.

Lemma dotted_prefix_refl (a : string) : dotted_prefix a a.
Proof. apply HasPrefix_refl. Qed.

Lemma HasPrefix_cons (c d : ascii) (s p : string) :
  strings_HasPrefix (String d s) (String c p) =
  if Ascii.eqb c d then strings_HasPrefix s p else false.
Proof. reflexivity. Qed.


Lemma HasPrefix_cons_inv (c d : ascii) (s p : string) :
  strings_HasPrefix (String d s) (String c p) = true ->
  c = d /\ strings_HasPrefix s p = true.
Proof.
  rewrite HasPrefix_cons. destruct (Ascii.eqb c d) eqn:E; [|done].
  by apply Ascii.eqb_eq in E.
Qed.

(** *** The byte-wise order *)

Lemma le_nil_l (s : string) : String.le "" s.
Proof. by destruct s. Qed.

Lemma le_nil_r (s : string) : String.le s "" -> s = "".
Proof. by destruct s. Qed.

Lemma le_cons_iff (c d : ascii) (s t : string) :
  String.le (String c s) (String d t) <->
  (N_of_ascii c < N_of_ascii d)%N \/ (c = d /\ String.le s t).
Proof.
  unfold String.le, String.leb. simpl. unfold Ascii.compare.
  destruct (N.compare_spec (N_of_ascii c) (N_of_ascii d)) as [E|L|G]; simpl.
  - assert (c = d) as -> by
      (rewrite <- (ascii_N_embedding c), <- (ascii_N_embedding d); by f_equal).
    split; [by right | intros [?|[_ ?]]; [lia | done]].
  - split; [by left | done].
  - split; [done | intros [?|[-> _]]; lia].
Qed.

(** Every byte is at least ['.'] (byte 46), the smallest byte of a
    dotted-decimal OID. *)
Fixpoint chars_ge_dot (s : string) : Prop :=
  match s with
  | EmptyString => True
  | String c r => (46 <= N_of_ascii c)%N /\ chars_ge_dot r
  end.

Lemma valid_oid_from_chars (b : bool) (s : string) :
  valid_oid_from b s = true -> chars_ge_dot s.
Proof.
  revert b. induction s as [|c s IH]; intros b; simpl; [done|].
  destruct (is_digit c) eqn:D.
  - intros H. split; [|by eapply IH].
    unfold is_digit in D. apply andb_prop in D as [D _].
    apply N.leb_le in D. lia.
  - destruct (Ascii.eqb c ".") eqn:E; [|done].
    apply Ascii.eqb_eq in E as ->.
    intros [_ H]%andb_prop. split; [done | by eapply IH].
Qed.

Lemma valid_oid_chars (s : string) : valid_oid s = true -> chars_ge_dot s.
Proof. apply valid_oid_from_chars. Qed.

(** A string lying between [p] and one of the OIDs below [p] is itself
    [p] or below [p], provided it has no byte smaller than ['.']. *)
Lemma dotted_prefix_between (p y x : string) :
  String.le p y -> String.le y x -> chars_ge_dot y ->
  dotted_prefix p x -> dotted_prefix p y.
Proof.
  unfold dotted_prefix. revert y x.
  induction p as [|c p IH]; intros y x Hpy Hyx Hy Hpx.
  - destruct y as [|e y]; [reflexivity|].
    destruct x as [|d x]; [by apply le_nil_r in Hyx|].
    change ("" +:+ ".") with (String "." "") in *.
    rewrite app_cons_s in *.
    apply HasPrefix_cons_inv in Hpx as [<- _].
    apply le_cons_iff in Hyx as [Hlt|[-> _]].
    + destruct Hy as [Hy _]. change (N_of_ascii ".") with 46%N in Hlt. lia.
    + by rewrite HasPrefix_cons, Ascii.eqb_refl.
  - destruct y as [|e y]; [by apply le_nil_r in Hpy|].
    destruct x as [|d x].
    { change ("" +:+ ".") with (String "." "") in Hpx.
      rewrite app_cons_s in Hpx.
      apply HasPrefix_cons_inv in Hpx as [_ Hpx]. by destruct p. }
    rewrite !app_cons_s in *.
    apply HasPrefix_cons_inv in Hpx as [<- Hpx].
    apply le_cons_iff in Hpy as [Hce|[<- Hpy]];
      apply le_cons_iff in Hyx as [Hec|[Hec Hyx]]; subst; try lia.
    rewrite HasPrefix_cons, Ascii.eqb_refl. destruct Hy as [_ Hy].
    by eapply IH.
Qed.

(** An OID that is another's dotted prefix is not above it. *)
Lemma dotted_prefix_le (a b : string) : dotted_prefix a b -> String.le a b.
Proof.
  unfold dotted_prefix. revert b.
  induction a as [|c a IH]; intros b H; [apply le_nil_l|].
  destruct b as [|d b].
  { change ("" +:+ ".") with (String "." "") in H.
    rewrite app_cons_s in H.
    apply HasPrefix_cons_inv in H as [_ H]. by destruct a. }
  rewrite !app_cons_s in H.
  apply HasPrefix_cons_inv in H as [<- H].
  apply le_cons_iff. right. split; [done | by apply IH].
Qed.

(** Two prefixes of one string are comparable. *)
Lemma HasPrefix_comparable (s p q : string) :
  strings_HasPrefix s p = true -> strings_HasPrefix s q = true ->
  strings_HasPrefix p q = true \/ strings_HasPrefix q p = true.
Proof.
  revert p q. induction s as [|c s IH]; intros [|a p] [|b q]; auto;
    [done|].
  intros [-> Hp]%HasPrefix_cons_inv [-> Hq]%HasPrefix_cons_inv.
  rewrite !HasPrefix_cons, Ascii.eqb_refl. by apply IH.
Qed.

(** *** Sorting *)

Lemma sort_Strings_perm (a : list string) : sort_Strings a ≡ₚ a.
Proof. apply merge_sort_Permutation. Qed.

Lemma sort_Strings_sorted (a : list string) :
  StronglySorted String.le (sort_Strings a).
Proof. apply (StronglySorted_merge_sort String.le). Qed.

(** The sorted list is determined by the multiset of its entries, whatever
    the algorithm and whatever the order of the input. *)
Lemma sort_Strings_unique (a b : list string) :
  a ≡ₚ b -> StronglySorted String.le b -> sort_Strings a = b.
Proof.
  intros Hp Hb. apply (StronglySorted_unique String.le); [| done |].
  - apply sort_Strings_sorted.
  - by rewrite sort_Strings_perm.
Qed.

Lemma StronglySorted_strict_le (l : list string) :
  StronglySorted string_lt l -> StronglySorted String.le l.
Proof.
  induction 1 as [|x l _ IH Hx]; constructor; [done|].
  eapply Forall_impl; [exact Hx|]. intros y Hy. by apply strict_include.
Qed.

Lemma StronglySorted_lookup_lt {A} (R : relation A) (l : list A) :
  StronglySorted R l ->
  forall (i j : nat) (a b : A),
    l !! i = Some a -> l !! j = Some b -> (i < j)%nat -> R a b.
Proof.
  induction 1 as [|x l _ IH Hx]; intros i j a b Hi Hj Hij; [done|].
  destruct j as [|j]; [lia|]. simpl in Hj.
  destruct i as [|i]; simpl in Hi.
  - injection Hi as <-. rewrite Forall_forall in Hx.
    apply Hx. by eapply list_elem_of_lookup_2.
  - eapply IH; [done..|lia].
Qed.

(** *** The minimizer's loop *)

Lemma minimize_loop_scan (oids : list string) (prev : string)
    (acc : list string) :
  snd (fold_left minimize_step oids (prev, acc)) = acc ++ scan oids prev.
Proof.
  revert prev acc. induction oids as [|oid rest IH]; intros prev acc; simpl.
  - by rewrite app_nil_r.
  - destruct (negb (strings_HasPrefix (oid +:+ ".") prev) || String.eqb prev "").
    + by rewrite IH, <- app_assoc.
    + by rewrite IH.
Qed.

Lemma minimizeOids_scan (oids : list string) :
  minimizeOids oids = scan (sort_Strings oids) "".
Proof. unfold minimizeOids. by rewrite minimize_loop_scan. Qed.

Lemma eqb_app_dot (p : string) : String.eqb (p +:+ ".") "" = false.
Proof. by destruct p. Qed.

(** What the loop does with its head element once [prevOid] is set. *)
Lemma scan_cons_dot (oid : string) (rest : list string) (p : string) :
  scan (oid :: rest) (p +:+ ".") =
  if strings_HasPrefix (oid +:+ ".") (p +:+ ".")
  then scan rest (p +:+ ".")
  else oid :: scan rest (oid +:+ ".").
Proof.
  simpl. rewrite eqb_app_dot, orb_false_r.
  by destruct (strings_HasPrefix (oid +:+ ".") (p +:+ ".")).
Qed.


Lemma scan_elem_of (l : list string) (prev x : string) :
  x ∈ scan l prev -> x ∈ l.
Proof.
  revert prev. induction l as [|y l IH]; intros prev; simpl; [done|].
  destruct (negb _ || _).
  - rewrite !elem_of_cons. intros [->|H]; [by left | right; by eapply IH].
  - rewrite elem_of_cons. intros H. right. by eapply IH.
Qed.

(** After [p] has been kept, nothing at or below [p] is kept. *)
Lemma scan_not_below (l : list string) (p x : string) :
  StronglySorted String.le l -> Forall chars_ge_dot l ->
  Forall (String.le p) l ->
  x ∈ scan l (p +:+ ".") -> ~ dotted_prefix p x.
Proof.
  induction l as [|y l IH]; intros Hs Hc Hp; [by rewrite elem_of_nil|].
  apply StronglySorted_cons in Hs as [Hy Hs].
  apply Forall_cons in Hc as [Hcy Hc]. apply Forall_cons in Hp as [Hpy Hp].
  rewrite scan_cons_dot.
  destruct (strings_HasPrefix (y +:+ ".") (p +:+ ".")) eqn:E.
  - by apply IH.
  - rewrite elem_of_cons. intros [->|Hx] Hpx.
    + unfold dotted_prefix in Hpx. congruence.
    + apply scan_elem_of in Hx. rewrite Forall_forall in Hy.
      assert (dotted_prefix p y) as Hd.
      { apply (dotted_prefix_between p y x); auto. }
      unfold dotted_prefix in Hd. congruence.
Qed.

(** The kept OIDs are strictly increasing. *)
Lemma scan_sorted_lt (l : list string) (prev : string) :
  StronglySorted String.le l ->
  Sorted string_lt (scan l prev) /\
  forall p, prev = p +:+ "." -> Forall (String.le p) l ->
            HdRel string_lt p (scan l prev).
Proof.
  revert prev. induction l as [|x l IH]; intros prev Hs.
  { split; [constructor | intros; constructor]. }
  apply StronglySorted_cons in Hs as [Hx Hs]. simpl.
  destruct (negb _ || _) eqn:K.
  - destruct (IH (x +:+ ".") Hs) as [IH1 IH2]. split.
    + constructor; [done | by apply IH2].
    + intros p -> [Hpx _]%Forall_cons. constructor. split; [done|].
      intros Hxp. assert (x = p) as -> by by apply (anti_symm String.le).
      by rewrite HasPrefix_refl, eqb_app_dot in K.
  - destruct (IH prev Hs) as [IH1 IH2]. split; [done|].
    intros p -> [_ Hp]%Forall_cons. by apply IH2.
Qed.

Lemma scan_strongly_sorted_lt (l : list string) (prev : string) :
  StronglySorted String.le l -> StronglySorted string_lt (scan l prev).
Proof.
  intros Hs. apply Sorted_StronglySorted; [apply _|].
  by apply scan_sorted_lt.
Qed.

Lemma scan_above (l : list string) (p : string) :
  StronglySorted String.le l -> Forall (String.le p) l ->
  Forall (string_lt p) (scan l (p +:+ ".")).
Proof.
  intros Hs Hp.
  assert (Sorted string_lt (p :: scan l (p +:+ "."))) as H.
  { destruct (scan_sorted_lt l (p +:+ ".") Hs) as [H1 H2].
    constructor; [done | by apply H2]. }
  apply Sorted_StronglySorted in H; [|apply _].
  by apply StronglySorted_cons in H as [H _].
Qed.

Lemma scan_unrelated (l : list string) (prev : string) :
  StronglySorted String.le l -> Forall chars_ge_dot l ->
  StronglySorted unrelated (scan l prev).
Proof.
  revert prev. induction l as [|x l IH]; intros prev Hs Hc; [constructor|].
  pose proof Hs as [Hx Hs']%StronglySorted_cons.
  pose proof Hc as [_ Hc']%Forall_cons. simpl.
  destruct (negb _ || _); [|by apply IH].
  constructor; [by apply IH|].
  apply Forall_forall. intros z Hz. split.
  - by apply (scan_not_below l x z).
  - intros Hzx%dotted_prefix_le.
    pose proof (scan_above l x Hs' Hx) as Ha.
    rewrite Forall_forall in Ha. by destruct (Ha z Hz).
Qed.

Lemma StronglySorted_unrelated_antichain (l : list string) :
  StronglySorted unrelated l -> antichain l.
Proof.
  intros Hs i j a b Hi Hj Hij.
  destruct (decide (i < j)%nat) as [Hlt|Hge].
  - by destruct (StronglySorted_lookup_lt unrelated l Hs i j a b).
  - by destruct (StronglySorted_lookup_lt unrelated l Hs j i b a);
      [..|lia|].
Qed.

(** Every input OID is at or below a kept one, unless it is at or below
    the prefix the loop started with. *)
Lemma scan_cover (l : list string) (prev x : string) :
  x ∈ l ->
  (exists a, a ∈ scan l prev /\ dotted_prefix a x) \/
  (prev <> "" /\ strings_HasPrefix (x +:+ ".") prev = true).
Proof.
  revert prev. induction l as [|y l IH]; intros prev; [by rewrite elem_of_nil|].
  rewrite elem_of_cons. simpl. intros Hx.
  destruct (negb _ || _) eqn:K.
  - left. destruct Hx as [->|Hx].
    + exists y. split; [by left | apply dotted_prefix_refl].
    + destruct (IH (y +:+ ".") Hx) as [(a & Ha & Hax)|[_ H]].
      * exists a. split; [by right | done].
      * exists y. split; [by left | done].
  - apply orb_false_elim in K as [K1 K2]. apply negb_false_iff in K1.
    assert (prev <> "") as Hne by (intros ->; done).
    destruct Hx as [->|Hx]; [by right|].
    destruct (IH prev Hx) as [(a & Ha & Hax)|H]; [left; by exists a | by right].
Qed.

Lemma scan_chain_ok (l : list string) (prev : string) :
  chain_ok prev (scan l prev).
Proof.
  revert prev. induction l as [|x l IH]; intros prev; simpl; [done|].
  destruct (negb _ || _) eqn:K; [|apply IH]. simpl. by rewrite K.
Qed.

Lemma chain_ok_scan (l : list string) (prev : string) :
  chain_ok prev l -> scan l prev = l.
Proof.
  revert prev. induction l as [|x l IH]; intros prev; simpl; [done|].
  intros [-> H]. by rewrite IH.
Qed.

Lemma StronglySorted_lt_NoDup (l : list string) :
  StronglySorted string_lt l -> NoDup l.
Proof.
  induction 1 as [|x l _ IH Hx]; constructor; [|done].
  intros Hin. rewrite Forall_forall in Hx.
  by apply (irreflexivity string_lt x), Hx.
Qed.

Lemma minimizeOids_sorted (oids : list string) :
  StronglySorted string_lt (minimizeOids oids).
Proof.
  rewrite minimizeOids_scan.
  apply scan_strongly_sorted_lt, sort_Strings_sorted.
Qed.

Lemma minimizeOids_perm (oids oids' : list string) :
  oids ≡ₚ oids' -> minimizeOids oids = minimizeOids oids'.
Proof.
  intros Hp. rewrite !minimizeOids_scan. f_equal.
  apply sort_Strings_unique; [|apply sort_Strings_sorted].
  by rewrite Hp, sort_Strings_perm.
Qed.

Lemma minimizeOids_elem_of (oids : list string) (x : string) :
  x ∈ minimizeOids oids -> x ∈ oids.
Proof.
  rewrite minimizeOids_scan. intros H%scan_elem_of.
  by rewrite sort_Strings_perm in H.
Qed.

(** ** The OID minimizer: the stated properties *)

Example minimizeOids_example :
  minimizeOids ["1.3.6.1.2.1.2.2.1.10"; "1.3.6.1.2.1.31"; "1.3.6.1.2.1.2";
                "1.3.6.1.2.1.20"; "1.3.6.1.2.1.2"; "1.3.6.1.2.1.2.2"]
  = ["1.3.6.1.2.1.2"; "1.3.6.1.2.1.20"; "1.3.6.1.2.1.31"].
Proof. vm_compute. reflexivity. Qed.

(** C1. On valid dotted-decimal OIDs the output of [minimizeOids] is an
    antichain for the dotted-prefix order (no kept OID is another kept
    OID's dotted prefix), it only contains input OIDs, and every input
    OID that was dropped has exactly one kept OID as its dotted-prefix
    ancestor. *)
Theorem minimizeOids_antichain_cover (oids : list string) :
  Forall (fun o => valid_oid o = true) oids ->
  antichain (minimizeOids oids) /\
  (forall a, a ∈ minimizeOids oids -> a ∈ oids) /\
  (forall x, x ∈ oids -> x ∉ minimizeOids oids ->
     exists! a, a ∈ minimizeOids oids /\ a <> x /\ dotted_prefix a x).
Proof.
  intros Hv.
  assert (antichain (minimizeOids oids)) as Hanti.
  { rewrite minimizeOids_scan. apply StronglySorted_unrelated_antichain.
    apply scan_unrelated; [apply sort_Strings_sorted|].
    rewrite sort_Strings_perm. eapply Forall_impl; [exact Hv|].
    intros o. apply valid_oid_chars. }
  split; [done|]. split; [apply minimizeOids_elem_of|].
  intros x Hx Hnot.
  assert (x ∈ sort_Strings oids) as Hx' by by rewrite sort_Strings_perm.
  destruct (scan_cover _ "" x Hx') as [(a & Ha & Hax)|[? _]]; [|done].
  rewrite <- minimizeOids_scan in Ha.
  exists a. split.
  - split; [done|]. split; [|done]. by intros ->.
  - intros a' (Ha' & _ & Ha'x).
    destruct (list_elem_of_lookup_1 _ _ Ha) as [i Hi].
    destruct (list_elem_of_lookup_1 _ _ Ha') as [j Hj].
    destruct (decide (i = j)) as [->|Hij]; [congruence|].
    destruct (HasPrefix_comparable _ _ _ Hax Ha'x) as [H|H]; exfalso.
    + by apply (Hanti j i a' a).
    + by apply (Hanti i j a a').
Qed.

Lemma minimizeOids_antichain_cover_witness :
  let oids := ["1.3.6.1.2.1.2.2.1.10"; "1.3.6.1.2.1.31"; "1.3.6.1.2.1.2";
               "1.3.6.1.2.1.20"] in
  Forall (fun o => valid_oid o = true) oids /\
  (antichain (minimizeOids oids) /\
   (forall a, a ∈ minimizeOids oids -> a ∈ oids) /\
   (forall x, x ∈ oids -> x ∉ minimizeOids oids ->
      exists! a, a ∈ minimizeOids oids /\ a <> x /\ dotted_prefix a x)).
Proof.
  intros oids.
  assert (Forall (fun o => valid_oid o = true) oids) as Hv
    by (repeat constructor).
  split; [exact Hv|]. exact (minimizeOids_antichain_cover oids Hv).
Defined.

(** C9. [minimizeOids] is idempotent, on every list of strings. *)
Theorem minimizeOids_idempotent (oids : list string) :
  minimizeOids (minimizeOids oids) = minimizeOids oids.
Proof.
  rewrite (minimizeOids_scan (minimizeOids oids)).
  rewrite (sort_Strings_unique (minimizeOids oids) (minimizeOids oids));
    [| done | apply StronglySorted_strict_le, minimizeOids_sorted].
  rewrite minimizeOids_scan at 1 2.
  apply chain_ok_scan, scan_chain_ok.
Qed.

(** ** The label sanitizer: the stated properties *)

Example sanitizeLabelName_example :
  sanitizeLabelName "if-In.Octets 64" = "if_In_Octets_64".
Proof. reflexivity. Qed.

(** A two-byte rune (here U+00E9) is replaced by a single underscore, a
    stray continuation byte by one underscore of its own. *)
Example sanitizeLabelName_utf8 :
  sanitizeLabelName (String "195" (String "169" (String "169" "x"))) = "__x".
Proof. reflexivity. Qed.

Lemma is_label_char_alphabet (c : ascii) :
  is_label_char c = true <-> c ∈ label_alphabet.
Proof.
  split.
  - destruct c as [[] [] [] [] [] [] [] []]; vm_compute; intros H;
      first [discriminate H | repeat first [by left | right]].
  - unfold label_alphabet. simpl. rewrite !elem_of_cons, elem_of_nil.
    intros H. repeat destruct H as [->|H]; done.
Qed.

Lemma string_Forall_app (P : ascii -> Prop) (a b : string) :
  string_Forall P a -> string_Forall P b -> string_Forall P (a +:+ b).
Proof.
  induction a as [|c a IH]; [done|]. rewrite app_cons_s.
  intros [Hc Ha] Hb. split; [done | by apply IH].
Qed.

Lemma strings_Join_cons_empty (e : string) (rest : list string) :
  strings_Join (e :: rest) "" = e +:+ strings_Join rest "".
Proof. destruct rest; [by rewrite app_nil_r_s | done]. Qed.

Lemma is_label_char_ascii (c : ascii) :
  is_label_char c = true -> byte_in 0 127 c = true.
Proof. destruct c as [[] [] [] [] [] [] [] []]; vm_compute; done. Qed.

Lemma runes_ascii (c : ascii) (s : string) :
  byte_in 0 127 c = true -> runes (String c s) = String c "" :: runes s.
Proof.
  intros H. cbn [runes rune_width]. rewrite H. done.
Qed.

Lemma sanitizeLabelName_fixed (s : string) :
  string_Forall (fun c => is_label_char c = true) s ->
  sanitizeLabelName s = s.
Proof.
  unfold sanitizeLabelName. induction s as [|c s IH]; [done|].
  intros [Hc H]. rewrite runes_ascii by by apply is_label_char_ascii.
  rewrite fmap_cons, strings_Join_cons_empty, IH by done.
  cbn [sanitize_rune]. by rewrite Hc.
Qed.

Lemma sanitize_rune_label_chars (r : string) :
  string_Forall (fun c => is_label_char c = true) (sanitize_rune r).
Proof.
  destruct r as [|b [|b' r]]; [done| |done]. cbn [sanitize_rune].
  destruct (is_label_char b) eqn:E; done.
Qed.

Lemma sanitizeLabelName_label_chars (s : string) :
  string_Forall (fun c => is_label_char c = true) (sanitizeLabelName s).
Proof.
  unfold sanitizeLabelName.
  induction (runes s) as [|r rs IH]; [done|].
  rewrite fmap_cons, strings_Join_cons_empty.
  apply string_Forall_app; [apply sanitize_rune_label_chars | done].
Qed.

(** C8. The sanitizer is total (it is a function defined on every
    string), idempotent, and its output only has characters of
    [[A-Za-z0-9_]]. *)
Theorem sanitizeLabelName_idempotent (x : string) :
  sanitizeLabelName (sanitizeLabelName x) = sanitizeLabelName x /\
  string_Forall (fun c => c ∈ label_alphabet) (sanitizeLabelName x).
Proof.
  split.
  - apply sanitizeLabelName_fixed, sanitizeLabelName_label_chars.
  - pose proof (sanitizeLabelName_label_chars x) as H.
    induction (sanitizeLabelName x) as [|c s IH]; [done|].
    destruct H as [Hc H]. split; [by apply is_label_char_alphabet | auto].
Qed.

(** ** The module generator: the stated properties *)

Lemma resolveWalk_unresolved (nameToNode : gmap string Node)
    (walk toWalk : list string) (oid : string) :
  oid ∈ walk -> nameToNode !! oid = None ->
  exists oid', oid' ∈ walk /\ nameToNode !! oid' = None /\
    resolveWalk nameToNode walk toWalk =
    Fatal ("Cannot find oid '" +:+ oid' +:+ "' to walk").
Proof.
  revert toWalk. induction walk as [|o walk IH]; intros toWalk Hin Hnone.
  { by apply elem_of_nil in Hin. }
  simpl. destruct (nameToNode !! o) as [n|] eqn:Ho.
  - apply elem_of_cons in Hin as [->|Hin]; [congruence|].
    destruct (IH (toWalk ++ [Oid n]) Hin Hnone) as (oid' & ? & ? & ?).
    exists oid'. split; [by right | done].
  - exists o. split; [by left | done].
Qed.

(** C5. If some [walk] entry does not resolve in the Name Index, the run
    is ended by [log.Fatalf] on the first such entry and no output
    module is produced. *)
Theorem walk_unresolved_fatal (cfg : ModuleConfig) (node : Node)
    (nameToNode : gmap string Node) (oid : string) :
  oid ∈ cfg_Walk cfg -> nameToNode !! oid = None ->
  exists oid', oid' ∈ cfg_Walk cfg /\ nameToNode !! oid' = None /\
    generateConfigModule cfg node nameToNode =
    Fatal ("Cannot find oid '" +:+ oid' +:+ "' to walk").
Proof.
  intros Hin Hnone.
  destruct (resolveWalk_unresolved nameToNode (cfg_Walk cfg) [] oid Hin Hnone)
    as (oid' & ? & ? & Hr).
  exists oid'. split; [done|]. split; [done|].
  unfold generateConfigModule, lookupsApplied. by rewrite Hr.
Qed.

Lemma walk_unresolved_fatal_witness :
  "doesNotExist" ∈ cfg_Walk (mkModuleConfig ["ifInOctets"; "doesNotExist"] [] [])
  /\ ifNameToNode !! "doesNotExist" = None
  /\ exists oid',
      oid' ∈ cfg_Walk (mkModuleConfig ["ifInOctets"; "doesNotExist"] [] []) /\
      ifNameToNode !! oid' = None /\
      generateConfigModule
        (mkModuleConfig ["ifInOctets"; "doesNotExist"] [] [])
        ifInOctets ifNameToNode =
      Fatal ("Cannot find oid '" +:+ oid' +:+ "' to walk").
Proof.
  assert ("doesNotExist" ∈
          cfg_Walk (mkModuleConfig ["ifInOctets"; "doesNotExist"] [] []))
    as Hin by (right; left).
  assert (ifNameToNode !! "doesNotExist" = None) as Hnone
    by (vm_compute; reflexivity).
  split; [exact Hin|]. split; [exact Hnone|].
  exact (walk_unresolved_fatal _ ifInOctets ifNameToNode _ Hin Hnone).
Defined.







(** C2 as stated fails: in the tree whose nodes are exactly the root
    [ifInOctets] and [ifIndex], the second node is below the first, the
    walk of ["ifInOctets"] visits both, and the output has two
    metrics. *)
Lemma end_to_end_two_metrics :
  ~ (forall (X Y node : Node) (nameToNode : gmap string Node),
       Oid X = "1.3.6.1.2.1.2.2.1.10" -> Label X = "ifInOctets" ->
       Type_ X = "COUNTER" -> Access X = "ACCESS_READWRITE" ->
       Indexes X = ["ifIndex"] -> Children X = [Y] ->
       Oid Y = "1.3.6.1.2.1.2.2.1.1" -> Label Y = "ifIndex" ->
       Type_ Y = "INTEGER" -> Access Y = "ACCESS_READONLY" ->
       Indexes Y = [] -> Children Y = [] ->
       nameToNode !! "1.3.6.1.2.1.2.2.1.10" = Some X ->
       nameToNode !! "ifInOctets" = Some X ->
       nameToNode !! "1.3.6.1.2.1.2.2.1.1" = Some Y ->
       nameToNode !! "ifIndex" = Some Y ->
       exists (m : Metric) (i : Index),
         generateConfigModule (mkModuleConfig ["ifInOctets"] [] []) node
           nameToNode
         = Ok (mkModule ["1.3.6.1.2.1.2.2.1.10"] [m]) /\
         Metric_Name m = "ifInOctets" /\ Metric_Type m = "counter" /\
         Metric_Indexes m = [i] /\
         Index_Labelname i = "ifIndex" /\ Index_Type i = "gauge").
Proof.
  intros H.
  destruct (H ifInOctetsTree ifIndex ifInOctetsTree ifTreeNameToNode)
    as (m & i & Hrun & _);
    try reflexivity; try (vm_compute; reflexivity).
  vm_compute in Hrun. discriminate Hrun.
Qed.

Lemma sanitizeLabelName_ok (s : string) : label_ok (sanitizeLabelName s).
Proof.
  unfold label_ok. pose proof (sanitizeLabelName_label_chars s) as H.
  induction (sanitizeLabelName s) as [|c r IH]; [done|].
  destruct H as [Hc H]. split; [by apply is_label_char_alphabet | auto].
Qed.

Lemma WalkNode_invariant {St : Type} (P : St -> Prop) (f : Node -> St -> St)
    (n : Node) (st : St) :
  (forall n st, P st -> P (f n st)) -> P st -> P (WalkNode n f st).
Proof.
  intros Hf. revert st. induction n as [n IH] using Node_children_ind.
  intros st Hst. destruct n as [? ? ? cs ? ? ? ? ? ? ?].
  cbn [WalkNode Children] in *.
  match goal with |- P (fold_left _ _ ?a) =>
    assert (P a) as Ha by (by apply Hf); revert Ha; generalize a end.
  induction cs as [|c cs IHcs]; intros a Ha; [exact Ha|].
  apply Forall_cons in IH as [Hc Hcs]. cbn [fold_left].
  apply IHcs; [done|]. by apply Hc.
Qed.

Lemma findMetrics_names_ok (nameToNode : gmap string Node)
    (toWalk : list string) (st st' : list Metric * gset string) :
  Forall metric_names_ok st.1 ->
  findMetrics nameToNode toWalk st = Ok st' ->
  Forall metric_names_ok st'.1.
Proof.
  revert st. induction toWalk as [|oid rest IH]; intros [ms ntw] Hst.
  { by intros [= <-]. }
  cbn [findMetrics]. destruct (nameToNode !! oid) as [node|]; [|done].
  apply IH. cbn [fst].
  apply (WalkNode_invariant (Forall metric_names_ok)); [|done].
  intros n metrics Hms. unfold visitNode.
  destruct (metricType (Type_ n)); [|done].
  destruct (negb (metricAccess (Access n))); [done|].
  destruct (buildIndexes nameToNode (Indexes n) []); [|done].
  apply Forall_app. split; [done|]. constructor; [|done].
  split; [apply sanitizeLabelName_ok | constructor].
Qed.

Lemma lookupIndexes_names_ok (nameToNode : gmap string Node)
    (lookup : Lookup_) (indexes indexes' : list Index)
    (st st' : list Lookup * gset string) :
  Forall (fun l => label_ok (Lookup_Labelname l)) st.1 ->
  lookupIndexes nameToNode lookup indexes st = Ok (indexes', st') ->
  Forall (fun l => label_ok (Lookup_Labelname l)) st'.1.
Proof.
  revert indexes' st. induction indexes as [|index rest IH];
    intros indexes' [ls ntw] Hst.
  { by intros [= <- <-]. }
  cbn [lookupIndexes].
  destruct (lookupIndex nameToNode lookup index (ls, ntw))
    as [[index1 [ls1 ntw1]]| |] eqn:E1; [|done..].
  cbn [mbind result_bind].
  destruct (lookupIndexes nameToNode lookup rest (ls1, ntw1))
    as [[rest1 st1]| |] eqn:E2; [|done..].
  cbn [mbind result_bind]. intros [= <- <-].
  apply (IH rest1 (ls1, ntw1)); [|done]. cbn [fst].
  unfold lookupIndex in E1.
  destruct (String.eqb _ _); [|by injection E1 as <- <- <-].
  destruct (nameToNode !! NewIndex lookup) as [indexNode|]; [|done].
  destruct (metricType (Type_ indexNode)); [|done].
  injection E1 as <- <- <-. apply Forall_app. split; [done|].
  constructor; [apply sanitizeLabelName_ok | done].
Qed.

Lemma lookupMetrics_names_ok (nameToNode : gmap string Node)
    (lookup : Lookup_) (metrics metrics' : list Metric)
    (needToWalk needToWalk' : gset string) :
  Forall metric_names_ok metrics ->
  lookupMetrics nameToNode lookup metrics needToWalk = Ok (metrics', needToWalk')
  -> Forall metric_names_ok metrics'.
Proof.
  revert metrics' needToWalk. induction metrics as [|m rest IH];
    intros metrics' ntw Hms.
  { by intros [= <- <-]. }
  apply Forall_cons in Hms as [[Hname Hls] Hrest]. cbn [lookupMetrics].
  destruct (lookupIndexes nameToNode lookup (Metric_Indexes m)
              (Metric_Lookups m, ntw)) as [[indexes [ls ntw1]]| |] eqn:E1;
    [|done..].
  cbn [mbind result_bind].
  destruct (lookupMetrics nameToNode lookup rest ntw1)
    as [[rest1 ntw2]| |] eqn:E2; [|done..].
  cbn [mbind result_bind]. intros [= <- <-].
  constructor; [|by eapply IH]. split; [done|]. cbn [Metric_Lookups].
  by apply (lookupIndexes_names_ok nameToNode lookup (Metric_Indexes m)
              indexes (Metric_Lookups m, ntw) (ls, ntw1) Hls E1).
Qed.

Lemma applyLookups_names_ok (nameToNode : gmap string Node)
    (lookups : list Lookup_) (st st' : list Metric * gset string) :
  Forall metric_names_ok st.1 ->
  applyLookups nameToNode lookups st = Ok st' ->
  Forall metric_names_ok st'.1.
Proof.
  revert st. induction lookups as [|lookup rest IH]; intros st Hst.
  { by intros [= <-]. }
  cbn [applyLookups].
  destruct (lookupMetrics nameToNode lookup st.1 st.2) as [[ms ntw]| |] eqn:E;
    [|done..].
  cbn [mbind result_bind]. apply IH. cbn [fst].
  by eapply lookupMetrics_names_ok.
Qed.

(** C3, at an input where it fails.  The metric name and the lookup
    labelnames go through [sanitizeLabelName], and so does an index
    labelname that a lookup rewrites; the labelname of an index taken
    from [n.Indexes] does not.  For a column indexed by the object
    [lan-Index] the output index keeps the hyphen. *)
Theorem index_labelname_not_sanitized :
  generateConfigModule (mkModuleConfig ["lanRxOctets"] [] []) lanRxOctets
    lanNameToNode
  = Ok (mkModule ["1.3.6.1.4.1.9.1.2"]
          [mkMetric "lanRxOctets" "1.3.6.1.4.1.9.1.2" "counter"
             " - 1.3.6.1.4.1.9.1.2" [mkIndex "lan-Index" "gauge" 0] [] []])
  /\ ~ string_Forall (fun c => c ∈ label_alphabet) "lan-Index"
  /\ sanitizeLabelName "lan-Index" = "lan_Index".
Proof.
  split; [vm_compute; reflexivity|]. split; [|reflexivity].
  simpl. intros (_ & _ & _ & H & _).
  apply is_label_char_alphabet in H. discriminate H.
Qed.

(** The lookup step, when the rule applies to some index. *)
Lemma lookupIndexes_unresolved (nameToNode : gmap string Node)
    (lookup : Lookup_) (indexes : list Index)
    (st : list Lookup * gset string) :
  nameToNode !! NewIndex lookup = None ->
  (exists i, i ∈ indexes /\ Index_Labelname i = OldIndex lookup) ->
  lookupIndexes nameToNode lookup indexes st =
  Fatal ("Unknown index '" +:+ NewIndex lookup +:+ "'").
Proof.
  intros Hnone. revert st.
  induction indexes as [|index rest IH]; intros st (i & Hi & Hlab).
  { by apply elem_of_nil in Hi. }
  destruct st as [lookups needToWalk].
  cbn [lookupIndexes]. unfold lookupIndex.
  destruct (String.eqb (Index_Labelname index) (OldIndex lookup)) eqn:E.
  - by rewrite Hnone.
  - cbn [mbind result_bind]. rewrite IH; [done|].
    apply elem_of_cons in Hi as [->|Hi]; [|by exists i].
    apply String.eqb_neq in E. done.
Qed.

(** A rule whose [OldIndex] labels no index changes nothing, and its
    [NewIndex] is not looked at. *)
Lemma lookupIndexes_inert (nameToNode : gmap string Node)
    (lookup : Lookup_) (indexes : list Index)
    (st : list Lookup * gset string) :
  Forall (fun i => Index_Labelname i <> OldIndex lookup) indexes ->
  lookupIndexes nameToNode lookup indexes st = Ok (indexes, st).
Proof.
  induction 1 as [|index rest Hi _ IH]; [done|].
  cbn [lookupIndexes]. unfold lookupIndex. destruct st as [ls ntw].
  apply String.eqb_neq in Hi. rewrite Hi.
  cbn [mbind result_bind]. by rewrite IH.
Qed.

Lemma lookupMetrics_inert (nameToNode : gmap string Node)
    (lookup : Lookup_) (metrics : list Metric) (needToWalk : gset string) :
  Forall (fun m => Forall (fun i => Index_Labelname i <> OldIndex lookup)
                     (Metric_Indexes m)) metrics ->
  lookupMetrics nameToNode lookup metrics needToWalk = Ok (metrics, needToWalk).
Proof.
  induction 1 as [|m rest Hm _ IH]; [done|].
  cbn [lookupMetrics]. rewrite lookupIndexes_inert by done.
  cbn [mbind result_bind]. rewrite IH. by destruct m.
Qed.

Lemma lookupMetrics_unresolved (nameToNode : gmap string Node)
    (lookup : Lookup_) (metrics : list Metric) (needToWalk : gset string) :
  nameToNode !! NewIndex lookup = None ->
  (exists m i, m ∈ metrics /\ i ∈ Metric_Indexes m /\
               Index_Labelname i = OldIndex lookup) ->
  lookupMetrics nameToNode lookup metrics needToWalk =
  Fatal ("Unknown index '" +:+ NewIndex lookup +:+ "'").
Proof.
  intros Hnone. revert needToWalk.
  induction metrics as [|metric rest IH];
    intros needToWalk (m & i & Hm & Hi & Hlab).
  { by apply elem_of_nil in Hm. }
  cbn [lookupMetrics].
  destruct (decide (Exists (fun i' => Index_Labelname i' = OldIndex lookup)
                      (Metric_Indexes metric))) as [Hex|Hnex].
  - apply Exists_exists in Hex. by rewrite lookupIndexes_unresolved.
  - apply not_Exists_Forall in Hnex; [|intros ?; apply _].
    rewrite lookupIndexes_inert by done.
    cbn [mbind result_bind]. rewrite IH; [done|].
    apply elem_of_cons in Hm as [->|Hm]; [|by exists m, i].
    rewrite Forall_forall in Hnex. by destruct (Hnex i Hi).
Qed.

Lemma applyLookups_app (nameToNode : gmap string Node)
    (pre post : list Lookup_) (st : list Metric * gset string) :
  applyLookups nameToNode (pre ++ post) st =
  applyLookups nameToNode pre st ≫= applyLookups nameToNode post.
Proof.
  revert st. induction pre as [|l pre IH]; intros st; [done|].
  cbn [app applyLookups].
  destruct (lookupMetrics nameToNode l st.1 st.2); cbn [mbind result_bind];
    [apply IH | done..].
Qed.


(** C4, as the code has it.  A lookup rule whose [NewIndex] does not
    resolve ends the run with [log.Fatalf] when the rule is reached and
    its [OldIndex] labels an index of some metric at that point. *)
Theorem lookup_unresolved_fatal (cfg : ModuleConfig) (node : Node)
    (nameToNode : gmap string Node) (pre post : list Lookup_)
    (rule : Lookup_) (metrics : list Metric) (needToWalk : gset string) :
  cfg_Lookups cfg = pre ++ rule :: post ->
  nameToNode !! NewIndex rule = None ->
  lookupsApplied cfg nameToNode pre = Ok (metrics, needToWalk) ->
  (exists m i, m ∈ metrics /\ i ∈ Metric_Indexes m /\
               Index_Labelname i = OldIndex rule) ->
  generateConfigModule cfg node nameToNode =
  Fatal ("Unknown index '" +:+ NewIndex rule +:+ "'").
Proof.
  intros Hl Hnone Hpre Hex.
  unfold generateConfigModule. rewrite Hl.
  unfold lookupsApplied in *.
  destruct (resolveWalk nameToNode (cfg_Walk cfg) []) as [toWalk| |];
    [|done..].
  cbn [mbind result_bind] in *.
  destruct (findMetrics nameToNode (minimizeOids toWalk) ([], ∅)) as [st| |];
    [|done..].
  cbn [mbind result_bind] in *.
  rewrite applyLookups_app, Hpre. cbn [mbind result_bind applyLookups fst snd].
  by rewrite lookupMetrics_unresolved.
Qed.

Lemma lookup_unresolved_fatal_witness :
  let cfg := mkModuleConfig ["ifInOctets"]
               [mkLookupRule "ifIndex" "doesNotExist"] [] in
  generateConfigModule cfg ifInOctets ifNameToNode =
  Fatal "Unknown index 'doesNotExist'".
Proof.
  intros cfg.
  apply (lookup_unresolved_fatal cfg ifInOctets ifNameToNode []
           [] (mkLookupRule "ifIndex" "doesNotExist")
           [mkMetric "ifInOctets" "1.3.6.1.2.1.2.2.1.10" "counter"
              " - 1.3.6.1.2.1.2.2.1.10" [mkIndex "ifIndex" "gauge" 0] [] []]
           {["1.3.6.1.2.1.2.2.1.10"]}).
  - reflexivity.
  - vm_compute. reflexivity.
  - vm_compute. reflexivity.
  - eexists _, _. split; [by left|]. split; [by left | reflexivity].
Defined.

(** C4 as stated fails: a rule whose [OldIndex] labels no index is never
    resolved, and the run returns a module. *)
Lemma lookup_unresolved_not_always_fatal :
  ~ (forall (cfg : ModuleConfig) (node : Node) (nameToNode : gmap string Node)
       (rule : Lookup_),
       rule ∈ cfg_Lookups cfg -> nameToNode !! NewIndex rule = None ->
       forall m, generateConfigModule cfg node nameToNode <> Ok m).
Proof.
  intros H.
  apply (H (mkModuleConfig ["ifInOctets"]
              [mkLookupRule "ifDescr" "doesNotExist"] [])
           ifInOctets ifNameToNode (mkLookupRule "ifDescr" "doesNotExist")
           ltac:(by left) ltac:(vm_compute; reflexivity)
           (mkModule ["1.3.6.1.2.1.2.2.1.10"]
              [mkMetric "ifInOctets" "1.3.6.1.2.1.2.2.1.10" "counter"
                 " - 1.3.6.1.2.1.2.2.1.10" [mkIndex "ifIndex" "gauge" 0]
                 [] []])).
  vm_compute. reflexivity.
Qed.

(** ** The override step *)

Lemma applyOverrides_overrideAll (overrides : list (string * MetricOverrides))
    (metrics : list Metric) :
  applyOverrides overrides metrics = overrideAll overrides <$> metrics.
Proof.
  unfold applyOverrides, overrideAll. revert metrics.
  induction overrides as [|[name params] overrides IH]; intros metrics; simpl.
  - by rewrite list_fmap_id.
  - rewrite IH, <- list_fmap_compose. done.
Qed.

Lemma overrideMetric_matches (name : string) (params : MetricOverrides)
    (metric : Metric) :
  override_matches name metric ->
  Metric_RegexpExtracts (overrideMetric name params metric) =
  Overrides_RegexpExtracts params.
Proof.
  unfold overrideMetric. intros [->| ->]; rewrite String.eqb_refl; simpl;
    [done|]. by rewrite orb_true_r.
Qed.

Lemma overrideMetric_no_match (name : string) (params : MetricOverrides)
    (metric : Metric) :
  ~ override_matches name metric -> overrideMetric name params metric = metric.
Proof.
  unfold overrideMetric, override_matches. intros H.
  destruct (String.eqb name (Metric_Name metric)) eqn:E1.
  { apply String.eqb_eq in E1. tauto. }
  destruct (String.eqb name (Metric_Oid metric)) eqn:E2; [|done].
  apply String.eqb_eq in E2. tauto.
Qed.

Lemma overrideMetric_fields (name : string) (params : MetricOverrides)
    (metric : Metric) :
  let metric' := overrideMetric name params metric in
  Metric_Name metric' = Metric_Name metric /\
  Metric_Oid metric' = Metric_Oid metric /\
  Metric_Type metric' = Metric_Type metric /\
  Metric_Help metric' = Metric_Help metric /\
  Metric_Indexes metric' = Metric_Indexes metric /\
  Metric_Lookups metric' = Metric_Lookups metric.
Proof. unfold overrideMetric. by destruct (_ || _). Qed.

Lemma overrideAll_fields (overrides : list (string * MetricOverrides))
    (metric : Metric) :
  let metric' := overrideAll overrides metric in
  Metric_Name metric' = Metric_Name metric /\
  Metric_Oid metric' = Metric_Oid metric /\
  Metric_Type metric' = Metric_Type metric /\
  Metric_Help metric' = Metric_Help metric /\
  Metric_Indexes metric' = Metric_Indexes metric /\
  Metric_Lookups metric' = Metric_Lookups metric.
Proof.
  unfold overrideAll. revert metric.
  induction overrides as [|[name params] overrides IH]; intros metric;
    [done|].
  cbn [fold_left].
  destruct (IH (overrideMetric name params metric)) as (-> & -> & -> & -> & -> & ->).
  apply overrideMetric_fields.
Qed.

Lemma override_matches_fields (name : string) (m m' : Metric) :
  Metric_Name m' = Metric_Name m -> Metric_Oid m' = Metric_Oid m ->
  override_matches name m' <-> override_matches name m.
Proof. unfold override_matches. by intros -> ->. Qed.

Lemma overrideAll_no_match (overrides : list (string * MetricOverrides))
    (metric : Metric) :
  (forall name params, (name, params) ∈ overrides ->
                       ~ override_matches name metric) ->
  overrideAll overrides metric = metric.
Proof.
  unfold overrideAll.
  induction overrides as [|[name params] overrides IH]; intros H; [done|].
  cbn [fold_left]. rewrite overrideMetric_no_match.
  - apply IH. intros n p Hin. apply (H n p). by right.
  - apply (H name params). by left.
Qed.

Lemma overrideAll_last_match (pre post : list (string * MetricOverrides))
    (name : string) (params : MetricOverrides) (metric : Metric) :
  override_matches name metric ->
  (forall name' params', (name', params') ∈ post ->
                         ~ override_matches name' metric) ->
  Metric_RegexpExtracts (overrideAll (pre ++ (name, params) :: post) metric) =
  Overrides_RegexpExtracts params.
Proof.
  intros Hm Hpost. unfold overrideAll. rewrite fold_left_app.
  cbn [fold_left]. fold (overrideAll pre metric).
  destruct (overrideAll_fields pre metric) as (Hn & Ho & _).
  set (m1 := overrideAll pre metric) in *.
  destruct (overrideMetric_fields name params m1) as (Hn' & Ho' & _).
  fold (overrideAll post (overrideMetric name params m1)).
  rewrite overrideAll_no_match.
  - apply overrideMetric_matches. by apply (override_matches_fields name metric).
  - intros n p Hin Hmatch. apply (Hpost n p Hin).
    eapply override_matches_fields; [| |exact Hmatch]; congruence.
Qed.

(** C7, as the code has it.  The override step keeps the metrics in
    place: same length, and at every position the same name, OID, type,
    help, indexes and lookups.  A metric that no key matches is
    unchanged; a metric that some key matches, by name or by OID, ends
    with the directives of the last matching entry that [range] yields. *)
Theorem applyOverrides_annotates (overrides : list (string * MetricOverrides))
    (metrics : list Metric) :
  length (applyOverrides overrides metrics) = length metrics /\
  forall (i : nat) (m : Metric), metrics !! i = Some m ->
    exists m', applyOverrides overrides metrics !! i = Some m' /\
      Metric_Name m' = Metric_Name m /\ Metric_Oid m' = Metric_Oid m /\
      Metric_Type m' = Metric_Type m /\ Metric_Help m' = Metric_Help m /\
      Metric_Indexes m' = Metric_Indexes m /\
      Metric_Lookups m' = Metric_Lookups m /\
      ((forall name params, (name, params) ∈ overrides ->
                            ~ override_matches name m) -> m' = m) /\
      (forall pre name params post,
         overrides = pre ++ (name, params) :: post ->
         override_matches name m ->
         (forall name' params', (name', params') ∈ post ->
                                ~ override_matches name' m) ->
         Metric_RegexpExtracts m' = Overrides_RegexpExtracts params).
Proof.
  rewrite applyOverrides_overrideAll. split; [by rewrite length_fmap|].
  intros i m Hi. exists (overrideAll overrides m).
  split; [by rewrite list_lookup_fmap, Hi|].
  destruct (overrideAll_fields overrides m) as (? & ? & ? & ? & ? & ?).
  repeat (split; [done|]). split.
  - apply overrideAll_no_match.
  - intros pre name params post ->. apply overrideAll_last_match.
Qed.

Lemma applyOverrides_annotates_witness :
  exists m', applyOverrides overridesByNameAndOid [ifInOctetsMetric] !! 0%nat
             = Some m' /\
    Metric_Name m' = "ifInOctets" /\
    Metric_RegexpExtracts m' = [("Load", [("0", "^down$")])].
Proof.
  destruct (applyOverrides_annotates overridesByNameAndOid [ifInOctetsMetric])
    as [_ H].
  destruct (H 0%nat ifInOctetsMetric eq_refl)
    as (m' & Hm' & Hname & _ & _ & _ & _ & _ & _ & Hlast).
  exists m'. split; [exact Hm'|]. split; [exact Hname|].
  apply (Hlast [("ifInOctets", mkMetricOverrides [("Rate", [("1", "^up$")])])]
           "1.3.6.1.2.1.2.2.1.10"
           (mkMetricOverrides [("Load", [("0", "^down$")])]) []).
  - reflexivity.
  - right. reflexivity.
  - intros name' params' Hin. by apply elem_of_nil in Hin.
Defined.

(** C7 as stated fails when two keys select one metric, one by its name
    and one by its OID: the metric cannot end with the directives of
    both. *)
Lemma applyOverrides_two_keys :
  ~ (forall (overrides : list (string * MetricOverrides))
       (metrics : list Metric),
       NoDup overrides.*1 ->
       forall (i : nat) (m : Metric) (name : string) (params : MetricOverrides),
         metrics !! i = Some m -> (name, params) ∈ overrides ->
         override_matches name m ->
         exists m', applyOverrides overrides metrics !! i = Some m' /\
           Metric_RegexpExtracts m' = Overrides_RegexpExtracts params).
Proof.
  intros H.
  assert (NoDup overridesByNameAndOid.*1) as Hnd
    by (apply (bool_decide_unpack _); vm_compute; exact I).
  assert (("ifInOctets", mkMetricOverrides [("Rate", [("1", "^up$")])])
          ∈ overridesByNameAndOid) as Hin by (by left).
  assert (override_matches "ifInOctets" ifInOctetsMetric) as Hmatch
    by (by left).
  destruct (H overridesByNameAndOid [ifInOctetsMetric] Hnd
              0%nat ifInOctetsMetric "ifInOctets" _ eq_refl Hin Hmatch)
    as (m' & Hm' & Hre).
  vm_compute in Hm'. injection Hm' as <-. discriminate Hre.
Qed.

(** ** The walk list of the output *)

Lemma generateConfigModule_Ok (cfg : ModuleConfig) (node : Node)
    (nameToNode : gmap string Node) (m : Module_) :
  generateConfigModule cfg node nameToNode = Ok m ->
  exists metrics needToWalk,
    lookupsApplied cfg nameToNode (cfg_Lookups cfg) = Ok (metrics, needToWalk)
    /\ m = mkModule (minimizeOids (elements needToWalk))
             (applyOverrides (cfg_Overrides cfg) metrics).
Proof.
  unfold generateConfigModule.
  destruct (lookupsApplied cfg nameToNode (cfg_Lookups cfg))
    as [[metrics needToWalk]| |]; [|done..].
  cbn [mbind result_bind]. intros [= <-]. by exists metrics, needToWalk.
Qed.

(** In every module that is generated, the name of every metric and the
    labelname of every lookup are sanitized. *)
Lemma generated_names_sanitized (cfg : ModuleConfig) (node : Node)
    (nameToNode : gmap string Node) (m : Module_) :
  generateConfigModule cfg node nameToNode = Ok m ->
  Forall metric_names_ok (Metrics m).
Proof.
  intros (metrics & needToWalk & Hl & ->)%generateConfigModule_Ok.
  cbn [Metrics]. rewrite applyOverrides_overrideAll.
  assert (Forall metric_names_ok metrics) as Hms.
  { unfold lookupsApplied in Hl.
    destruct (resolveWalk nameToNode (cfg_Walk cfg) []) as [toWalk| |];
      [|done..].
    cbn [mbind result_bind] in Hl.
    destruct (findMetrics nameToNode (minimizeOids toWalk) ([], ∅))
      as [st| |] eqn:E; [|done..].
    cbn [mbind result_bind] in Hl.
    pose proof (findMetrics_names_ok nameToNode (minimizeOids toWalk)
                  ([], ∅) st (Forall_nil_2 _) E) as Hst.
    apply (applyLookups_names_ok nameToNode (cfg_Lookups cfg) st
             (metrics, needToWalk) Hst Hl). }
  apply Forall_fmap. eapply Forall_impl; [exact Hms|].
  intros metric [Hname Hls]. unfold metric_names_ok. cbn.
  destruct (overrideAll_fields (cfg_Overrides cfg) metric)
    as (-> & _ & _ & _ & _ & ->). done.
Qed.

(** C10. The output of [minimizeOids] is sorted in ascending byte-wise
    order and has no duplicates, and it does not depend on the order of
    the input.  So the walk list of a generated module is sorted and
    duplicate-free, and it is the same whatever order [range] yields the
    set of needed OIDs in. *)
Theorem minimizeOids_sorted_nodup (oids oids' : list string)
    (cfg : ModuleConfig) (node : Node) (nameToNode : gmap string Node)
    (m : Module_) :
  oids ≡ₚ oids' ->
  generateConfigModule cfg node nameToNode = Ok m ->
  (StronglySorted String.le (minimizeOids oids) /\
   NoDup (minimizeOids oids) /\
   minimizeOids oids' = minimizeOids oids) /\
  (StronglySorted String.le (Walk m) /\ NoDup (Walk m) /\
   exists metrics needToWalk,
     lookupsApplied cfg nameToNode (cfg_Lookups cfg) = Ok (metrics, needToWalk)
     /\ forall order, order ≡ₚ elements needToWalk ->
                      Walk m = minimizeOids order).
Proof.
  intros Hp Hm.
  pose proof (fun l => StronglySorted_strict_le _ (minimizeOids_sorted l)) as Hs.
  pose proof (fun l => StronglySorted_lt_NoDup _ (minimizeOids_sorted l)) as Hn.
  split; [split; [apply Hs|]; split; [apply Hn | by apply minimizeOids_perm]|].
  apply generateConfigModule_Ok in Hm as (metrics & needToWalk & Hl & ->).
  cbn [Walk]. split; [apply Hs|]. split; [apply Hn|].
  exists metrics, needToWalk. split; [done|].
  intros order Ho. by apply minimizeOids_perm.
Qed.

Lemma minimizeOids_sorted_nodup_witness :
  let oids := ["1.3.6.1.2.1.31"; "1.3.6.1.2.1.2"; "1.3.6.1.2.1.2.2"] in
  let oids' := ["1.3.6.1.2.1.2"; "1.3.6.1.2.1.31"; "1.3.6.1.2.1.2.2"] in
  let m := mkModule ["1.3.6.1.2.1.2.2.1.10"] [ifInOctetsMetric] in
  oids ≡ₚ oids' /\
  generateConfigModule (mkModuleConfig ["ifInOctets"] [] []) ifInOctets
    ifNameToNode = Ok m /\
  StronglySorted String.le (minimizeOids oids) /\
  NoDup (minimizeOids oids) /\
  minimizeOids oids' = minimizeOids oids /\
  StronglySorted String.le (Walk m) /\ NoDup (Walk m).
Proof.
  intros oids oids' m.
  assert (oids ≡ₚ oids') as Hp.
  { apply Permutation_swap. }
  assert (generateConfigModule (mkModuleConfig ["ifInOctets"] [] [])
            ifInOctets ifNameToNode = Ok m) as Hm
    by (vm_compute; reflexivity).
  split; [exact Hp|]. split; [exact Hm|].
  destruct (minimizeOids_sorted_nodup oids oids' _ _ _ m Hp Hm)
    as [(H1 & H2 & H3) (H4 & H5 & _)].
  repeat split; assumption.
Defined.

(** ** Pointers into the tree *)

Lemma set_Children_same (n : Node) : set_Children (Children n) n = n.
Proof. by destruct n. Qed.

Lemma deref_app (p q : ptr) (t : Node) :
  deref (p ++ q) t = deref p t ≫= deref q.
Proof.
  revert t. induction p as [|i p IH]; intros t; [done|].
  cbn [app deref]. destruct (Children t !! i); [apply IH | done].
Qed.

Lemma deref_update_eq (g : Node -> Node) (p : ptr) (t n : Node) :
  deref p t = Some n -> deref p (update p g t) = Some (g n).
Proof.
  revert t. induction p as [|i p IH]; intros t; cbn [deref update].
  - by intros [= ->].
  - destruct (Children t !! i) as [c|] eqn:E; [|done]. intros H.
    cbn [set_Children Children]. rewrite list_lookup_alter_eq, E.
    cbn [fmap option_fmap option_map]. by apply IH.
Qed.

Lemma update_invalid (g : Node -> Node) (p : ptr) (t : Node) :
  deref p t = None -> update p g t = t.
Proof.
  revert t. induction p as [|i p IH]; intros t; cbn [deref update]; [done|].
  intros H. transitivity (set_Children (Children t) t);
    [|apply set_Children_same]. f_equal.
  apply list_eq. intros j. destruct (decide (j = i)) as [->|Hne].
  - rewrite list_lookup_alter_eq. destruct (Children t !! i) as [c|]; [|done].
    cbn. by rewrite IH.
  - by rewrite list_lookup_alter_ne.
Qed.

Lemma deref_update_child (g : Node -> Node) (p : ptr) (i : nat) (t n : Node) :
  deref p t = Some n -> deref (p ++ [i]) (update p g t) = Children (g n) !! i.
Proof.
  intros H. rewrite deref_app, (deref_update_eq g p t n H). cbn.
  by destruct (Children (g n) !! i).
Qed.


Lemma far_cons (i : nat) (p q : ptr) : far (i :: p) (i :: q) -> far p q.
Proof.
  intros [H1 H2]. split; [congruence|]. intros j ->. by apply (H2 j).
Qed.

(** Away from [p] and its children an assignment through [p] changes no
    label, no [Augments] and no index list. *)
Lemma deref_update_far (g : Node -> Node) (p q : ptr) (t : Node) :
  local g -> far p q ->
  Label <$> deref q (update p g t) = Label <$> deref q t /\
  Augments <$> deref q (update p g t) = Augments <$> deref q t /\
  Indexes <$> deref q (update p g t) = Indexes <$> deref q t.
Proof.
  intros Hg. revert q t. induction p as [|i p IH]; intros q t Hfar.
  - destruct Hfar as [H1 H2]. destruct q as [|i [|j r]]; [done| |].
    { by destruct (H2 i). }
    cbn [update]. destruct (Hg t) as (_ & _ & Hlen & Hch).
    assert (deref (i :: j :: r) (g t) = deref (i :: j :: r) t) as ->; [|done].
    cbn [deref]. destruct (Children t !! i) as [c|] eqn:E.
    + destruct (Hch i c E) as (c' & -> & _ & _ & ->). done.
    + apply lookup_ge_None in E. rewrite <- Hlen in E.
      apply lookup_ge_None in E. by rewrite E.
  - cbn [update]. destruct q as [|j q]; [done|].
    cbn [deref set_Children Children].
    destruct (decide (j = i)) as [->|Hne].
    + rewrite list_lookup_alter_eq. destruct (Children t !! i) as [c|]; [|done].
      cbn [fmap option_fmap option_map]. apply IH. by eapply far_cons.
    + by rewrite list_lookup_alter_ne.
Qed.

Lemma ptr_trichotomy (p q : ptr) :
  q = p \/ (exists i, q = p ++ [i]) \/ far p q.
Proof.
  destruct (decide (q = p)) as [->|Hne]; [by left|]. right.
  destruct (decide (length q = S (length p) /\ take (length p) q = p))
    as [[Hl Ht]|Hn].
  - left. destruct (drop (length p) q) as [|i [|j r]] eqn:Hd.
    + apply (f_equal length) in Hd. rewrite length_drop in Hd. simpl in Hd. lia.
    + exists i. by rewrite <- (take_drop (length p) q), Ht, Hd.
    + apply (f_equal length) in Hd. rewrite length_drop in Hd. simpl in Hd. lia.
  - right. split; [done|]. intros i ->. apply Hn.
    rewrite length_app, take_app_length. simpl. split; [lia | done].
Qed.

(** An assignment through a pointer changes no label and no [Augments]. *)
Lemma deref_update_names (g : Node -> Node) (p q : ptr) (t : Node) :
  local g ->
  Label <$> deref q (update p g t) = Label <$> deref q t /\
  Augments <$> deref q (update p g t) = Augments <$> deref q t.
Proof.
  intros Hg. destruct (deref p t) as [n|] eqn:Hp;
    [|by rewrite update_invalid].
  destruct (Hg n) as (Hl & Ha & Hlen & Hch).
  destruct (ptr_trichotomy p q) as [->|[[i ->]|Hfar]].
  - rewrite (deref_update_eq g p t n Hp), Hp. cbn. by rewrite Hl, Ha.
  - rewrite (deref_update_child g p i t n Hp), deref_app, Hp. cbn.
    destruct (Children n !! i) as [c|] eqn:E.
    + destruct (Hch i c E) as (c' & -> & Hl' & Ha' & _). cbn.
      by rewrite Hl', Ha'.
    + apply lookup_ge_None in E. rewrite <- Hlen in E.
      apply lookup_ge_None in E. by rewrite E.
  - destruct (deref_update_far g p q t Hg Hfar) as (? & ? & _). done.
Qed.

(** ** The walks *)

Lemma fold_left_fmap {A B C : Type} (f : A -> C -> A) (g : B -> C)
    (l : list B) (a : A) :
  fold_left f (g <$> l) a = fold_left (fun a x => f a (g x)) l a.
Proof. revert a. induction l as [|x l IH]; intros a; [done|]. apply IH. Qed.

Lemma fold_left_pointwise {A B : Type} (f g : A -> B -> A) (l : list B)
    (a : A) :
  (forall a x, f a x = g a x) -> fold_left f l a = fold_left g l a.
Proof.
  intros H. revert a. induction l as [|x l IH]; intros a; [done|].
  cbn [fold_left]. by rewrite H, IH.
Qed.

(** [WalkNode] calls its callback on the pointers of [paths], in order. *)
Lemma WalkNodePtr_paths {St : Type} (f : ptr -> St -> St) (n : Node)
    (here : ptr) (st : St) :
  WalkNodePtr n here f st =
  fold_left (fun st p => f (here ++ p) st) (paths n) st.
Proof.
  revert here st. induction n as [n IH] using Node_children_ind.
  intros here st. destruct n as [? ? ? cs ? ? ? ? ? ? ?].
  cbn [WalkNodePtr paths fold_left Children] in *. rewrite app_nil_r.
  generalize (f here st) as st'. generalize 0%nat as i.
  induction cs as [|c cs IHcs]; intros i st'; [done|].
  apply Forall_cons in IH as [Hc Hcs].
  cbn [map number_paths]. rewrite fold_left_app, fold_left_fmap, Hc.
  rewrite (IHcs Hcs). f_equal.
  apply fold_left_pointwise. intros st'' p. by rewrite <- app_assoc.
Qed.

Lemma number_paths_elem (l : list (list ptr)) (k i : nat) (ps : list ptr)
    (p : ptr) :
  l !! i = Some ps -> p ∈ ps -> (k + i)%nat :: p ∈ number_paths k l.
Proof.
  revert k i. induction l as [|ps' l IH]; intros k i Hl Hp; [done|].
  cbn [number_paths]. apply elem_of_app. destruct i as [|i]; simpl in Hl.
  - injection Hl as ->. left. rewrite Nat.add_0_r. by apply list_elem_of_fmap_2.
  - right. replace (k + S i)%nat with (S k + i)%nat by lia. by apply IH.
Qed.

(** Every node is visited. *)
Lemma deref_paths (p : ptr) (t n : Node) : deref p t = Some n -> p ∈ paths t.
Proof.
  revert t. induction p as [|i p IH]; intros t H.
  - destruct t. by left.
  - cbn [deref] in H. destruct (Children t !! i) as [c|] eqn:E; [|done].
    destruct t as [? ? ? cs ? ? ? ? ? ? ?]. cbn [paths Children] in *. right.
    apply (number_paths_elem _ 0 i (paths c)); [|by apply IH].
    by rewrite list_lookup_fmap, E.
Qed.

Lemma fold_left_invariant {A B : Type} (P : A -> Prop) (f : A -> B -> A)
    (l : list B) (a : A) :
  (forall a x, P a -> P (f a x)) -> P a -> P (fold_left f l a).
Proof.
  intros Hf. revert a. induction l as [|x l IH]; intros a Ha; [exact Ha|].
  cbn [fold_left]. by apply IH, Hf.
Qed.

(** A property that every call of the callback keeps holds after the
    walk. *)
Lemma WalkNodePtr_invariant {St : Type} (P : St -> Prop)
    (f : ptr -> St -> St) (n : Node) (here : ptr) (st : St) :
  (forall p st, P st -> P (f p st)) -> P st -> P (WalkNodePtr n here f st).
Proof.
  intros Hf Hst. rewrite WalkNodePtr_paths.
  apply fold_left_invariant; [|done]. intros a x. apply Hf.
Qed.

(** A property [Q] that the call on [p0] brings about and every call
    keeps, given an invariant [P], holds after a walk that comes
    across [p0]. *)
Lemma WalkNodePtr_visit {St : Type} (P Q : St -> Prop)
    (f : ptr -> St -> St) (t n : Node) (p0 : ptr) (st : St) :
  deref p0 t = Some n ->
  (forall p st, P st -> P (f p st)) ->
  (forall st, P st -> Q (f p0 st)) ->
  (forall p st, P st -> Q st -> Q (f p st)) ->
  P st -> P (WalkNodePtr t [] f st) /\ Q (WalkNodePtr t [] f st).
Proof.
  intros Hp0 HP Hvisit HQ Hst.
  rewrite WalkNodePtr_paths. cbn [app].
  apply deref_paths, list_elem_of_split in Hp0 as (l1 & l2 & ->).
  rewrite fold_left_app. cbn [fold_left].
  apply (fold_left_invariant (fun s => P s /\ Q s)).
  { intros a x [Ha Hq]. split; [by apply HP | by apply HQ]. }
  assert (P (fold_left (fun st p => f p st) l1 st)) as H1.
  { apply fold_left_invariant; [|done]. intros a x. apply HP. }
  split; [by apply HP | by apply Hvisit].
Qed.

(** ** What the callbacks of [PrepareTree] change *)

Lemma local_same_children (g : Node -> Node) :
  (forall n, Label (g n) = Label n /\ Augments (g n) = Augments n /\
             Children (g n) = Children n) ->
  local g.
Proof.
  intros H n. destruct (H n) as (Hl & Ha & Hc).
  split; [done|]. split; [done|]. rewrite Hc. split; [done|].
  intros i c Hi. by exists c.
Qed.

Lemma local_trimDescription : local trimDescription.
Proof. by apply local_same_children. Qed.

Lemma local_setType : local setType.
Proof.
  apply local_same_children. intros n. unfold setType.
  repeat match goal with |- context [if ?b then _ else _] => destruct b end;
    done.
Qed.

Lemma local_setChildrenIndexes (indexes : list string) :
  local (setChildrenIndexes indexes).
Proof.
  intros n. split; [done|]. split; [done|].
  cbn [setChildrenIndexes set_Children Children].
  split; [by rewrite length_fmap|].
  intros i c Hi. exists (set_Indexes indexes c).
  by rewrite list_lookup_fmap, Hi.
Qed.

Lemma local_assignIndexes (indexes : list string) :
  local (assignIndexes indexes).
Proof.
  intros n. destruct (local_setChildrenIndexes indexes n) as (? & ? & ? & ?).
  done.
Qed.

(** A callback body that leaves the children alone changes the index
    list of its own node only. *)
Lemma update_own_Indexes (g : Node -> Node) (p q : ptr) (t n : Node) :
  (forall n, Label (g n) = Label n /\ Augments (g n) = Augments n /\
             Children (g n) = Children n) ->
  deref p t = Some n ->
  Indexes <$> deref q (update p g t) =
  if decide (q = p) then Some (Indexes (g n)) else Indexes <$> deref q t.
Proof.
  intros Hg Hp. destruct (decide (q = p)) as [->|Hne].
  { by rewrite (deref_update_eq g p t n Hp). }
  destruct (ptr_trichotomy p q) as [->|[[i ->]|Hfar]]; [done| |].
  - rewrite (deref_update_child g p i t n Hp), deref_app, Hp.
    destruct (Hg n) as (_ & _ & ->). cbn. by destruct (Children n !! i).
  - by apply deref_update_far; [apply local_same_children|].
Qed.

(** [setChildrenIndexes] and [assignIndexes] give the children their
    new index list. *)
Lemma update_children_Indexes (g : Node -> Node) (indexes : list string)
    (p : ptr) (i : nat) (t n : Node) :
  (forall n, Children (g n) = set_Indexes indexes <$> Children n) ->
  deref p t = Some n ->
  Indexes <$> deref (p ++ [i]) (update p g t) =
  (fun _ => indexes) <$> deref (p ++ [i]) t.
Proof.
  intros Hg Hp.
  rewrite (deref_update_child g p i t n Hp), deref_app, Hp, Hg.
  rewrite list_lookup_fmap. cbn. by destruct (Children n !! i).
Qed.

(** The three places an assignment of [indexes] to the children of the
    node at [p] can be seen from. *)
Lemma update_push_Indexes (g : Node -> Node) (indexes : list string)
    (p q : ptr) (t n : Node) :
  local g ->
  (forall n, Children (g n) = set_Indexes indexes <$> Children n) ->
  deref p t = Some n ->
  (q = p /\ Indexes <$> deref q (update p g t) = Some (Indexes (g n))) \/
  (exists i, q = p ++ [i] /\
     Indexes <$> deref q (update p g t) = (fun _ => indexes) <$> deref q t) \/
  (far p q /\ Indexes <$> deref q (update p g t) = Indexes <$> deref q t).
Proof.
  intros Hg Hc Hp. destruct (ptr_trichotomy p q) as [->|[[i ->]|Hfar]].
  - left. by rewrite (deref_update_eq g p t n Hp).
  - right. left. exists i. split; [done|].
    by apply (update_children_Indexes g indexes p i t n).
  - right. right. split; [done|]. by apply deref_update_far.
Qed.

(** ** The two stages together *)

(** The table-entry scenario: both columns get the indexes of their row,
    the descriptions are trimmed to their first sentence, the display
    hint makes [ifDescr] a [DisplayString]; walking the row gives one
    metric per column. *)
Example prepare_then_generate :
  let '(nodes, nameToNode) := PrepareTree ifEntry in
  (Indexes <$> Children nodes) = [["ifIndex"]; ["ifIndex"]] /\
  generateConfigModule (mkModuleConfig ["ifEntry"] [] []) nodes
    (derefAll nodes nameToNode)
  = Ok (mkModule ["1.3.6.1.2.1.2.2.1"]
          [mkMetric "ifIndex" "1.3.6.1.2.1.2.2.1.1" "gauge"
             "A unique value, greater than zero - 1.3.6.1.2.1.2.2.1.1"
             [mkIndex "ifIndex" "gauge" 0] [] [];
           mkMetric "ifDescr" "1.3.6.1.2.1.2.2.1.2" "DisplayString"
             "A textual string - 1.3.6.1.2.1.2.2.1.2"
             [mkIndex "ifIndex" "gauge" 0] [] []]).
Proof. vm_compute. split; reflexivity. Qed.

(** * Further properties of the generator *)

(** ** The OID minimizer *)

Lemma HasPrefix_trans (s p q : string) :
  strings_HasPrefix s p = true -> strings_HasPrefix p q = true ->
  strings_HasPrefix s q = true.
Proof.
  revert s p. induction q as [|c q IH]; intros s p Hsp Hpq; [done|].
  destruct p as [|b p]; [done|]. destruct s as [|a s]; [done|].
  apply HasPrefix_cons_inv in Hsp as [-> Hsp].
  apply HasPrefix_cons_inv in Hpq as [-> Hpq].
  rewrite HasPrefix_cons, Ascii.eqb_refl. by eapply IH.
Qed.

Lemma dotted_prefix_trans (a b c : string) :
  dotted_prefix a b -> dotted_prefix b c -> dotted_prefix a c.
Proof. unfold dotted_prefix. intros Hab Hbc. by eapply HasPrefix_trans. Qed.

Lemma dotted_prefix_antisym (a b : string) :
  dotted_prefix a b -> dotted_prefix b a -> a = b.
Proof.
  intros Hab%dotted_prefix_le Hba%dotted_prefix_le.
  by apply (anti_symm String.le).
Qed.

Lemma minimizeOids_cover (oids : list string) (x : string) :
  x ∈ oids -> exists a, a ∈ minimizeOids oids /\ dotted_prefix a x.
Proof.
  intros Hx. rewrite minimizeOids_scan.
  assert (x ∈ sort_Strings oids) as Hx' by by rewrite sort_Strings_perm.
  by destruct (scan_cover _ "" x Hx') as [H|[? _]].
Qed.

Lemma minimizeOids_antichain_elem (oids : list string) (a b : string) :
  Forall (fun o => valid_oid o = true) oids ->
  a ∈ minimizeOids oids -> b ∈ minimizeOids oids -> dotted_prefix a b ->
  a = b.
Proof.
  intros Hv Ha Hb Hab.
  assert (antichain (minimizeOids oids)) as Hanti.
  { rewrite minimizeOids_scan. apply StronglySorted_unrelated_antichain.
    apply scan_unrelated; [apply sort_Strings_sorted|].
    rewrite sort_Strings_perm. eapply Forall_impl; [exact Hv|].
    intros o. apply valid_oid_chars. }
  destruct (list_elem_of_lookup_1 _ _ Ha) as [i Hi].
  destruct (list_elem_of_lookup_1 _ _ Hb) as [j Hj].
  destruct (decide (i = j)) as [->|Hij]; [congruence|].
  by destruct (Hanti i j a b).
Qed.

(** X1. Whatever strings it is given, [minimizeOids] returns input
    entries only, and every input entry is one of them or has one of them
    as a dotted prefix: nothing that was asked for falls out of the
    walk. *)
Theorem minimizeOids_covers_input (oids : list string) :
  (forall a, a ∈ minimizeOids oids -> a ∈ oids) /\
  (forall x, x ∈ oids ->
     exists a, a ∈ minimizeOids oids /\ dotted_prefix a x).
Proof.
  split.
  - intros a. rewrite minimizeOids_scan. intros Ha%scan_elem_of.
    by rewrite sort_Strings_perm in Ha.
  - intros x Hx. rewrite minimizeOids_scan.
    assert (x ∈ sort_Strings oids) as Hx' by by rewrite sort_Strings_perm.
    by destruct (scan_cover _ "" x Hx') as [H|[? _]].
Qed.

(** X2. On valid OIDs, the output of [minimizeOids] is exactly the set of
    roots of the input: an input OID is kept if and only if no other
    input OID is a dotted prefix of it. *)
Theorem minimizeOids_keeps_roots (oids : list string) (x : string) :
  Forall (fun o => valid_oid o = true) oids ->
  x ∈ minimizeOids oids <->
  x ∈ oids /\ forall a, a ∈ oids -> dotted_prefix a x -> a = x.
Proof.
  intros Hv. split.
  - intros Hx. split; [by apply minimizeOids_elem_of|].
    intros a Ha Hax.
    destruct (minimizeOids_cover oids a Ha) as (a' & Ha' & Ha'a).
    assert (a' = x) as ->.
    { apply (minimizeOids_antichain_elem oids); [done..|].
      by eapply dotted_prefix_trans. }
    by apply dotted_prefix_antisym.
  - intros [Hx Hroot].
    destruct (minimizeOids_cover oids x Hx) as (a & Ha & Hax).
    rewrite <- (Hroot a); [done | by apply minimizeOids_elem_of | done].
Qed.

Lemma minimizeOids_keeps_roots_witness :
  let oids := ["1.3.6.1.2.1.2.2.1.10"; "1.3.6.1.2.1.31"; "1.3.6.1.2.1.2"] in
  Forall (fun o => valid_oid o = true) oids /\
  ("1.3.6.1.2.1.2" ∈ minimizeOids oids <->
   "1.3.6.1.2.1.2" ∈ oids /\
   forall a, a ∈ oids -> dotted_prefix a "1.3.6.1.2.1.2" -> a = "1.3.6.1.2.1.2").
Proof.
  intros oids.
  assert (Forall (fun o => valid_oid o = true) oids) as Hv
    by (repeat constructor).
  split; [exact Hv|].
  exact (minimizeOids_keeps_roots oids "1.3.6.1.2.1.2" Hv).
Defined.

(** X3. On valid OIDs, the output of [minimizeOids] depends on the set of
    its input entries only: neither their order nor their repetitions
    matter. *)
Theorem minimizeOids_set_ext (oids oids' : list string) :
  Forall (fun o => valid_oid o = true) oids ->
  Forall (fun o => valid_oid o = true) oids' ->
  (forall x, x ∈ oids <-> x ∈ oids') ->
  minimizeOids oids = minimizeOids oids'.
Proof.
  intros Hv Hv' Hsame.
  apply (StronglySorted_unique String.le).
  - apply StronglySorted_strict_le, minimizeOids_sorted.
  - apply StronglySorted_strict_le, minimizeOids_sorted.
  - apply NoDup_Permutation.
    + apply StronglySorted_lt_NoDup, minimizeOids_sorted.
    + apply StronglySorted_lt_NoDup, minimizeOids_sorted.
    + assert (forall l l' x,
                Forall (fun o => valid_oid o = true) l ->
                (forall y, y ∈ l -> y ∈ l') ->
                (forall y, y ∈ l' -> y ∈ l) ->
                x ∈ minimizeOids l -> x ∈ minimizeOids l') as Hsub.
      { intros l l' x Hl H1 H2 Hx.
        pose proof (minimizeOids_elem_of l x Hx) as Hxl.
        destruct (minimizeOids_cover l' x (H1 x Hxl)) as (a' & Ha' & Ha'x).
        pose proof (H2 a' (minimizeOids_elem_of l' a' Ha')) as Ha'l.
        destruct (minimizeOids_cover l a' Ha'l) as (a & Ha & Haa').
        assert (a = x) as ->.
        { apply (minimizeOids_antichain_elem l); [done..|].
          by eapply dotted_prefix_trans. }
        by rewrite (dotted_prefix_antisym x a'). }
      intros x. split; apply Hsub; try done; intros y; apply Hsame.
Qed.

Lemma minimizeOids_set_ext_witness :
  let oids := ["1.3.6.1.2.1.31"; "1.3.6.1.2.1.2"; "1.3.6.1.2.1.31"] in
  let oids' := ["1.3.6.1.2.1.2"; "1.3.6.1.2.1.31"] in
  Forall (fun o => valid_oid o = true) oids /\
  Forall (fun o => valid_oid o = true) oids' /\
  (forall x, x ∈ oids <-> x ∈ oids') /\
  minimizeOids oids = minimizeOids oids'.
Proof.
  intros oids oids'.
  assert (Forall (fun o => valid_oid o = true) oids) as Hv
    by (repeat constructor).
  assert (Forall (fun o => valid_oid o = true) oids') as Hv'
    by (repeat constructor).
  assert (forall x, x ∈ oids <-> x ∈ oids') as Hsame.
  { intros x. unfold oids, oids'. rewrite !elem_of_cons, !elem_of_nil.
    tauto. }
  split; [exact Hv|]. split; [exact Hv'|]. split; [exact Hsame|].
  exact (minimizeOids_set_ext oids oids' Hv Hv' Hsame).
Defined.

(** ** The label sanitizer *)

(** The first rune of a non-empty string and the rest of the string. *)
Lemma runes_cons (b0 : ascii) (r0 : string) :
  exists chunk rest,
    runes (String b0 r0) = chunk :: runes rest /\
    String b0 r0 = chunk +:+ rest /\
    (0 < String.length chunk)%nat /\
    (String.length rest < String.length (String b0 r0))%nat.
Proof.
  cbn [runes].
  destruct (rune_width (String b0 r0)) as [|[|[|[|[|w]]]]];
    destruct r0 as [|b1 [|b2 [|b3 r3]]];
    eexists _, _; (split; [reflexivity|]);
    (split; [reflexivity|]); simpl; lia.
Qed.

Lemma length_app_s (a b : string) :
  String.length (a +:+ b) = (String.length a + String.length b)%nat.
Proof. induction a as [|c a IH]; [done|]. rewrite app_cons_s. simpl. lia. Qed.

Lemma length_sanitize_rune (r : string) :
  String.length (sanitize_rune r) = 1%nat.
Proof.
  destruct r as [|b [|b' r]]; [done| |done]. cbn [sanitize_rune].
  by destruct (is_label_char b).
Qed.

Lemma length_sanitize_runes (rs : list string) :
  String.length (strings_Join (sanitize_rune <$> rs) "") = length rs.
Proof.
  induction rs as [|r rs IH]; [done|].
  rewrite fmap_cons, strings_Join_cons_empty, length_app_s,
    length_sanitize_rune, IH. done.
Qed.

Lemma length_runes (s : string) : (length (runes s) <= String.length s)%nat.
Proof.
  assert (forall n s, (String.length s < n)%nat ->
                      (length (runes s) <= String.length s)%nat) as H;
    [|apply (H (S (String.length s))); lia].
  clear s. induction n as [|n IH]; intros s Hn; [lia|].
  destruct s as [|b0 r0]; [done|].
  destruct (runes_cons b0 r0) as (chunk & rest & -> & Hs & Hc & Hr).
  specialize (IH rest ltac:(lia)).
  apply (f_equal String.length) in Hs. rewrite length_app_s in Hs.
  cbn [length]. lia.
Qed.

(** X4. [sanitizeLabelName] writes one byte for every rune it reads: the
    output is never longer than the input, and on an ASCII input it is
    the input with every byte outside [[A-Za-z0-9_]] replaced by ['_'],
    byte for byte. *)
Theorem sanitizeLabelName_bytewise (name : string) :
  String.length (sanitizeLabelName name) = length (runes name) /\
  (String.length (sanitizeLabelName name) <= String.length name)%nat /\
  (string_Forall (fun c => byte_in 0 127 c = true) name ->
   sanitizeLabelName name =
   string_map (fun c => if is_label_char c then c else "_"%char) name).
Proof.
  unfold sanitizeLabelName. split; [apply length_sanitize_runes|].
  split; [rewrite length_sanitize_runes; apply length_runes|].
  induction name as [|c name IH]; [done|]. intros [Hc H].
  rewrite runes_ascii by done.
  rewrite fmap_cons, strings_Join_cons_empty, IH by done.
  cbn [sanitize_rune string_map]. by destruct (is_label_char c).
Qed.

Lemma sanitizeLabelName_bytewise_witness :
  string_Forall (fun c => byte_in 0 127 c = true) "if-Index.1" /\
  sanitizeLabelName "if-Index.1" =
  string_map (fun c => if is_label_char c then c else "_"%char) "if-Index.1".
Proof.
  assert (string_Forall (fun c => byte_in 0 127 c = true) "if-Index.1") as H
    by (simpl; repeat split; reflexivity).
  split; [exact H|].
  destruct (sanitizeLabelName_bytewise "if-Index.1") as (_ & _ & Hb).
  exact (Hb H).
Defined.

(** ** Finding the metrics *)

Lemma fold_left_concat {A B : Type} (f : A -> B -> A) (ls : list (list B))
    (a : A) :
  fold_left f (concat ls) a = fold_left (fun a l => fold_left f l a) ls a.
Proof.
  revert a. induction ls as [|l ls IH]; intros a; [done|].
  cbn [concat fold_left]. by rewrite fold_left_app, IH.
Qed.

(** [WalkNode] calls its callback on the nodes of the tree in
    pre-order. *)
Lemma WalkNode_preorder {St : Type} (f : Node -> St -> St) (n : Node)
    (st : St) :
  WalkNode n f st = fold_left (fun st n => f n st) (preorder n) st.
Proof.
  revert st. induction n as [n IH] using Node_children_ind.
  intros st. destruct n as [? ? ? cs ? ? ? ? ? ? ?].
  cbn [WalkNode preorder fold_left Children] in *.
  rewrite fold_left_concat.
  match goal with |- fold_left _ _ ?a = _ => generalize a as st' end.
  induction cs as [|c cs IHcs]; intros st'; [done|].
  apply Forall_cons in IH as [Hc Hcs].
  cbn [map fold_left]. rewrite Hc. by apply IHcs.
Qed.

Lemma buildIndexes_mapM (nameToNode : gmap string Node)
    (indexes : list string) (acc : list Index) :
  buildIndexes nameToNode indexes acc =
  (fun l => acc ++ l) <$> mapM (indexOf nameToNode) indexes.
Proof.
  revert acc. induction indexes as [|i rest IH]; intros acc.
  { cbn. by rewrite app_nil_r. }
  cbn [buildIndexes mapM].
  assert (indexOf nameToNode i =
          match nameToNode !! i with
          | None => None
          | Some indexNode =>
              match metricType (Type_ indexNode) with
              | None => None
              | Some t => Some (mkIndex i t (FixedSize indexNode))
              end
          end) as -> by done.
  destruct (nameToNode !! i) as [indexNode|]; [|done].
  destruct (metricType (Type_ indexNode)) as [t|]; [|done].
  rewrite IH. cbn.
  destruct (mapM (indexOf nameToNode) rest) as [l|]; [|done].
  cbn. by rewrite <- app_assoc.
Qed.

Lemma visitNode_metricOf (nameToNode : gmap string Node) (n : Node)
    (metrics : list Metric) :
  visitNode nameToNode n metrics =
  metrics ++ option_list (metricOf nameToNode n).
Proof.
  unfold visitNode, metricOf.
  destruct (metricType (Type_ n)) as [t|]; [|by rewrite app_nil_r].
  destruct (metricAccess (Access n)); cbn [negb]; [|by rewrite app_nil_r].
  rewrite buildIndexes_mapM.
  destruct (mapM (indexOf nameToNode) (Indexes n)) as [l|];
    [done | by rewrite app_nil_r].
Qed.

Lemma visitNodes_metricOf (nameToNode : gmap string Node) (l : list Node)
    (metrics : list Metric) :
  fold_left (fun ms n => visitNode nameToNode n ms) l metrics =
  metrics ++ omap (metricOf nameToNode) l.
Proof.
  revert metrics. induction l as [|n l IH]; intros metrics.
  { by rewrite app_nil_r. }
  cbn [fold_left]. rewrite IH, visitNode_metricOf, <- app_assoc. f_equal.
  cbn [omap list_omap]. by destruct (metricOf nameToNode n).
Qed.

(** X5. The second loop of [generateConfigModule] panics if one of the
    OIDs to walk is not in the Name Index; otherwise it appends, for the
    walk roots in order, the metrics of the nodes below each root in
    pre-order (discovery order), and adds the OIDs of the roots to the set
    of OIDs to walk. *)
Theorem findMetrics_preorder (nameToNode : gmap string Node)
    (toWalk : list string) (metrics : list Metric) (needToWalk : gset string) :
  findMetrics nameToNode toWalk (metrics, needToWalk) =
  match mapM (fun oid => nameToNode !! oid) toWalk with
  | None => Panic
  | Some roots =>
      Ok (metrics ++ omap (metricOf nameToNode) (roots ≫= preorder),
          list_to_set (Oid <$> roots) ∪ needToWalk)
  end.
Proof.
  revert metrics needToWalk.
  induction toWalk as [|oid rest IH]; intros metrics needToWalk.
  { cbn. rewrite app_nil_r. f_equal. f_equal. set_solver. }
  cbn [findMetrics mapM].
  destruct (nameToNode !! oid) as [node|]; [|done].
  rewrite IH. cbn.
  destruct (mapM (fun oid => nameToNode !! oid) rest) as [roots|]; [|done].
  cbn. rewrite WalkNode_preorder, visitNodes_metricOf.
  rewrite omap_app, <- app_assoc. f_equal. f_equal. set_solver.
Qed.

Lemma indexOf_Some (nameToNode : gmap string Node) (i : string)
    (index : Index) :
  indexOf nameToNode i = Some index <-> index_for nameToNode i index.
Proof.
  unfold indexOf, index_for. split.
  - destruct (nameToNode !! i) as [indexNode|]; [|done].
    destruct (metricType (Type_ indexNode)) as [t|] eqn:E; [|done].
    intros [= <-]. by exists indexNode.
  - intros (indexNode & -> & -> & <- & <-). by destruct index.
Qed.

Lemma indexOf_None (nameToNode : gmap string Node) (i : string) :
  indexOf nameToNode i = None <-> index_unusable nameToNode i.
Proof.
  unfold indexOf, index_unusable.
  destruct (nameToNode !! i) as [indexNode|]; [|done].
  by destruct (metricType (Type_ indexNode)).
Qed.

(** X6. The callback of the metric walk either appends one metric or
    leaves the list alone.  It appends a metric, with the sanitized
    label, the OID, the output kind, the help text [description - OID],
    one index per entry of [n.Indexes] in the same order and no lookups,
    when the type of the node has an output kind, its access is exposed
    and every index label resolves to a node of classifiable type.  It
    leaves the list alone when the type has no output kind, or the access
    is not exposed, or some index label is unusable. *)
Theorem visitNode_cases (nameToNode : gmap string Node) (n : Node)
    (metrics : list Metric) :
  (forall t indexes,
     metricType (Type_ n) = Some t -> metricAccess (Access n) = true ->
     Forall2 (index_for nameToNode) (Indexes n) indexes ->
     visitNode nameToNode n metrics =
     metrics ++ [mkMetric (sanitizeLabelName (Label n)) (Oid n) t
                   (Description n +:+ " - " +:+ Oid n) indexes [] []]) /\
  (metricType (Type_ n) = None \/ metricAccess (Access n) = false \/
   Exists (index_unusable nameToNode) (Indexes n) ->
   visitNode nameToNode n metrics = metrics).
Proof.
  rewrite visitNode_metricOf. unfold metricOf. split.
  - intros t indexes -> -> Hidx.
    assert (mapM (indexOf nameToNode) (Indexes n) = Some indexes) as ->; [|done].
    apply mapM_Some. eapply Forall2_impl; [exact Hidx|].
    intros i index. apply indexOf_Some.
  - intros [->|[Ha|Hex]]; [by rewrite app_nil_r | |].
    + destruct (metricType (Type_ n)); rewrite ?Ha; by rewrite app_nil_r.
    + destruct (metricType (Type_ n)); [|by rewrite app_nil_r].
      destruct (metricAccess (Access n)); [|by rewrite app_nil_r].
      assert (mapM (indexOf nameToNode) (Indexes n) = None) as ->;
        [|by rewrite app_nil_r].
      apply mapM_None. eapply Exists_impl; [exact Hex|].
      intros i. apply indexOf_None.
Qed.

Lemma visitNode_cases_witness :
  Exists (index_unusable ifNameToNode) ["ifIndex"; "noSuchIndex"] /\
  visitNode ifNameToNode
    (mkNode "1.3.6.1.2.1.2.2.1.10" "ifInOctets" "" [] "" "COUNTER" "" "" 0
       ["ifIndex"; "noSuchIndex"] "ACCESS_READWRITE") [ifInOctetsMetric]
  = [ifInOctetsMetric].
Proof.
  assert (Exists (index_unusable ifNameToNode) ["ifIndex"; "noSuchIndex"])
    as Hex.
  { apply Exists_cons_tl, Exists_cons_hd. vm_compute. exact I. }
  split; [exact Hex|].
  destruct (visitNode_cases ifNameToNode
              (mkNode "1.3.6.1.2.1.2.2.1.10" "ifInOctets" "" [] "" "COUNTER"
                 "" "" 0 ["ifIndex"; "noSuchIndex"] "ACCESS_READWRITE")
              [ifInOctetsMetric]) as [_ Hskip].
  apply Hskip. right. right. exact Hex.
Defined.

(** ** The lookups *)

Lemma lookupIndexes_resolved (nameToNode : gmap string Node)
    (lookup : Lookup_) (indexNode : Node) (typ : string)
    (indexes : list Index) (lookups : list Lookup) (needToWalk : gset string) :
  nameToNode !! NewIndex lookup = Some indexNode ->
  metricType (Type_ indexNode) = Some typ ->
  lookupIndexes nameToNode lookup indexes (lookups, needToWalk) =
  Ok (rewriteIndex lookup indexNode <$> indexes,
      (lookups ++ replicate (length (matching lookup indexes))
                    (lookupOf indexNode typ),
       list_to_set ((fun _ => Oid indexNode) <$> matching lookup indexes)
       ∪ needToWalk)).
Proof.
  intros Hnode Htyp. revert lookups needToWalk.
  induction indexes as [|index rest IH]; intros lookups needToWalk.
  { cbn. rewrite app_nil_r. do 3 f_equal. set_solver. }
  cbn [lookupIndexes]. unfold lookupIndex, matching, rewriteIndex.
  rewrite filter_cons, fmap_cons.
  destruct (String.eqb (Index_Labelname index) (OldIndex lookup)) eqn:E.
  - apply String.eqb_eq in E. rewrite decide_True by done.
    rewrite Hnode, Htyp. cbn [mbind result_bind]. rewrite IH.
    cbn [mbind result_bind length replicate].
    rewrite <- app_assoc. cbn [app]. do 3 f_equal.
    rewrite fmap_cons, list_to_set_cons. set_solver.
  - apply String.eqb_neq in E. rewrite decide_False by done.
    cbn [mbind result_bind]. rewrite IH. done.
Qed.

(** X7. A lookup rule whose target resolves to a node of classifiable
    type never fails.  It rewrites every metric in place: each index
    labelled [OldIndex] gets the sanitized label of the target, one
    lookup entry for the target is appended per rewritten index, and the
    OID of the target joins the OIDs to walk once an index is
    rewritten. *)
Theorem lookupMetrics_resolved (nameToNode : gmap string Node)
    (lookup : Lookup_) (indexNode : Node) (typ : string)
    (metrics : list Metric) (needToWalk : gset string) :
  nameToNode !! NewIndex lookup = Some indexNode ->
  metricType (Type_ indexNode) = Some typ ->
  lookupMetrics nameToNode lookup metrics needToWalk =
  Ok (rewriteMetric lookup indexNode typ <$> metrics,
      list_to_set ((fun _ => Oid indexNode) <$>
                   (metrics ≫= fun m => matching lookup (Metric_Indexes m)))
      ∪ needToWalk).
Proof.
  intros Hnode Htyp. revert needToWalk.
  induction metrics as [|m rest IH]; intros needToWalk.
  { cbn. do 2 f_equal. set_solver. }
  cbn [lookupMetrics].
  rewrite (lookupIndexes_resolved _ _ indexNode typ) by done.
  cbn [mbind result_bind]. rewrite IH. cbn [mbind result_bind fmap list_fmap].
  f_equal. f_equal.
  rewrite bind_cons, fmap_app, list_to_set_app_L. set_solver.
Qed.

Lemma lookupMetrics_resolved_witness :
  ifNameToNode !! NewIndex (mkLookupRule "ifIndex" "ifInOctets")
  = Some ifInOctets /\
  metricType (Type_ ifInOctets) = Some "counter" /\
  lookupMetrics ifNameToNode (mkLookupRule "ifIndex" "ifInOctets")
    [ifInOctetsMetric] ∅ =
  Ok ([mkMetric "ifInOctets" "1.3.6.1.2.1.2.2.1.10" "counter"
         " - 1.3.6.1.2.1.2.2.1.10" [mkIndex "ifInOctets" "gauge" 0]
         [mkLookup ["ifInOctets"] "ifInOctets" "counter"
            "1.3.6.1.2.1.2.2.1.10"] []],
      {[ "1.3.6.1.2.1.2.2.1.10" ]}).
Proof.
  assert (ifNameToNode !! NewIndex (mkLookupRule "ifIndex" "ifInOctets")
          = Some ifInOctets) as Hnode by (vm_compute; reflexivity).
  assert (metricType (Type_ ifInOctets) = Some "counter") as Htyp
    by reflexivity.
  split; [exact Hnode|]. split; [exact Htyp|].
  rewrite (lookupMetrics_resolved ifNameToNode _ ifInOctets "counter"
             [ifInOctetsMetric] ∅ Hnode Htyp).
  vm_compute. reflexivity.
Defined.

(** *** What the lookups keep and what they add *)

Lemma index_effect_refl (nameToNode : gmap string Node) (rules : list Lookup_)
    (index : Index) :
  index_effect nameToNode rules index index.
Proof. split; [done|]. split; [done|]. by left. Qed.

Lemma index_effect_mono (nameToNode : gmap string Node)
    (rules rules' : list Lookup_) (index index' : Index) :
  rules ⊆ rules' ->
  index_effect nameToNode rules index index' ->
  index_effect nameToNode rules' index index'.
Proof.
  intros Hsub (? & ? & [?|(rule & node & ? & ? & ?)]).
  - split; [done|]. split; [done|]. by left.
  - split; [done|]. split; [done|]. right. exists rule, node.
    split; [by apply Hsub | done].
Qed.

Lemma index_effect_trans (nameToNode : gmap string Node)
    (rules : list Lookup_) (i1 i2 i3 : Index) :
  index_effect nameToNode rules i1 i2 ->
  index_effect nameToNode rules i2 i3 ->
  index_effect nameToNode rules i1 i3.
Proof.
  intros (Ht & Hf & Hl) (Ht' & Hf' & Hl').
  split; [congruence|]. split; [congruence|].
  destruct Hl' as [Hl'|Hl']; [|by right].
  rewrite Hl'. done.
Qed.

Lemma lookup_from_mono (nameToNode : gmap string Node)
    (rules rules' : list Lookup_) (l : Lookup) :
  rules ⊆ rules' -> lookup_from nameToNode rules l ->
  lookup_from nameToNode rules' l.
Proof.
  intros Hsub (rule & node & typ & ? & ? & ? & ?).
  exists rule, node, typ. split; [by apply Hsub | done].
Qed.

Lemma lookups_effect_refl (nameToNode : gmap string Node)
    (rules : list Lookup_) (needToWalk : gset string) (metric : Metric) :
  lookups_effect nameToNode rules needToWalk metric metric.
Proof.
  repeat (split; [done|]). split.
  - apply Forall2_same_length_lookup. split; [done|].
    intros i x y Hx Hy. replace y with x by congruence.
    apply index_effect_refl.
  - exists []. by rewrite app_nil_r.
Qed.

Lemma lookups_effect_mono (nameToNode : gmap string Node)
    (rules rules' : list Lookup_) (needToWalk needToWalk' : gset string)
    (metric metric' : Metric) :
  rules ⊆ rules' -> needToWalk ⊆ needToWalk' ->
  lookups_effect nameToNode rules needToWalk metric metric' ->
  lookups_effect nameToNode rules' needToWalk' metric metric'.
Proof.
  intros Hr Hn (? & ? & ? & ? & ? & Hi & new & ? & Hnew).
  repeat (split; [done|]). split.
  - eapply Forall2_impl; [exact Hi|]. intros. by eapply index_effect_mono.
  - exists new. split; [done|]. eapply Forall_impl; [exact Hnew|].
    intros l [? ?]. split; [by eapply lookup_from_mono | by apply Hn].
Qed.

Lemma lookups_effect_trans (nameToNode : gmap string Node)
    (rules : list Lookup_) (needToWalk : gset string) (m1 m2 m3 : Metric) :
  lookups_effect nameToNode rules needToWalk m1 m2 ->
  lookups_effect nameToNode rules needToWalk m2 m3 ->
  lookups_effect nameToNode rules needToWalk m1 m3.
Proof.
  intros (? & ? & ? & ? & ? & Hi & new & Hl & Hnew)
         (? & ? & ? & ? & ? & Hi' & new' & Hl' & Hnew').
  repeat (split; [congruence|]). split.
  - eapply Forall2_trans; [|exact Hi|exact Hi'].
    intros. by eapply index_effect_trans.
  - exists (new ++ new'). split; [by rewrite Hl', Hl, app_assoc|].
    by apply Forall_app.
Qed.

Lemma lookupIndexes_effect (nameToNode : gmap string Node)
    (rule : Lookup_) (indexes indexes' : list Index)
    (lookups lookups' : list Lookup) (needToWalk needToWalk' : gset string) :
  lookupIndexes nameToNode rule indexes (lookups, needToWalk) =
  Ok (indexes', (lookups', needToWalk')) ->
  needToWalk ⊆ needToWalk' /\
  Forall2 (index_effect nameToNode [rule]) indexes indexes' /\
  exists new, lookups' = lookups ++ new /\
    Forall (fun l => lookup_from nameToNode [rule] l /\
                     Lookup_Oid l ∈ needToWalk') new.
Proof.
  revert indexes' lookups needToWalk.
  induction indexes as [|index rest IH]; intros indexes' lookups needToWalk.
  { intros [= <- <- <-]. split; [done|]. split; [constructor|].
    exists []. by rewrite app_nil_r. }
  cbn [lookupIndexes].
  destruct (lookupIndex nameToNode rule index (lookups, needToWalk))
    as [[index1 [ls1 ntw1]]| |] eqn:E1; [|done..].
  cbn [mbind result_bind].
  destruct (lookupIndexes nameToNode rule rest (ls1, ntw1))
    as [[rest1 [ls2 ntw2]]| |] eqn:E2; [|done..].
  cbn [mbind result_bind]. intros [= <- <- <-].
  destruct (IH _ _ _ E2) as (Hsub & Hrest & new2 & -> & Hnew2).
  unfold lookupIndex in E1.
  destruct (String.eqb (Index_Labelname index) (OldIndex rule)) eqn:Eq.
  - destruct (nameToNode !! NewIndex rule) as [node|] eqn:Hnode; [|done].
    destruct (metricType (Type_ node)) as [typ|] eqn:Htyp; [|done].
    injection E1 as <- <- <-.
    split; [set_solver|]. split.
    + constructor; [|done]. split; [done|]. split; [done|].
      right. exists rule, node. split; [by left | done].
    + exists (lookupOf node typ :: new2).
      split; [by rewrite <- app_assoc|].
      constructor; [|done]. split.
      * exists rule, node, typ. split; [by left | done].
      * cbn. set_solver.
  - injection E1 as <- <- <-. split; [done|]. split.
    + constructor; [apply index_effect_refl | done].
    + by exists new2.
Qed.

Lemma lookupMetrics_effect (nameToNode : gmap string Node)
    (rule : Lookup_) (metrics metrics' : list Metric)
    (needToWalk needToWalk' : gset string) :
  lookupMetrics nameToNode rule metrics needToWalk = Ok (metrics', needToWalk')
  -> needToWalk ⊆ needToWalk' /\
     Forall2 (lookups_effect nameToNode [rule] needToWalk') metrics metrics'.
Proof.
  revert metrics' needToWalk.
  induction metrics as [|m rest IH]; intros metrics' needToWalk.
  { intros [= <- <-]. split; [done | constructor]. }
  cbn [lookupMetrics].
  destruct (lookupIndexes nameToNode rule (Metric_Indexes m)
              (Metric_Lookups m, needToWalk))
    as [[indexes [ls ntw1]]| |] eqn:E1; [|done..].
  cbn [mbind result_bind].
  destruct (lookupMetrics nameToNode rule rest ntw1)
    as [[rest1 ntw2]| |] eqn:E2; [|done..].
  cbn [mbind result_bind]. intros [= <- <-].
  destruct (IH _ _ E2) as (Hsub & Hrest).
  destruct (lookupIndexes_effect _ _ _ _ _ _ _ _ E1)
    as (Hsub1 & Hidx & new & -> & Hnew).
  split; [set_solver|]. constructor; [|done].
  unfold lookups_effect.
  cbn [Metric_Name Metric_Oid Metric_Type Metric_Help Metric_RegexpExtracts
       Metric_Indexes Metric_Lookups].
  do 5 (split; [reflexivity|]). split; [exact Hidx|].
  exists new. split; [done|]. eapply Forall_impl; [exact Hnew|].
  intros l [? ?]. split; [done | by apply Hsub].
Qed.

Lemma applyLookups_effect (nameToNode : gmap string Node)
    (rules : list Lookup_) (st st' : list Metric * gset string) :
  applyLookups nameToNode rules st = Ok st' ->
  st.2 ⊆ st'.2 /\
  Forall2 (lookups_effect nameToNode rules st'.2) st.1 st'.1.
Proof.
  revert st. induction rules as [|rule rest IH]; intros st.
  { intros [= <-]. split; [done|].
    apply Forall2_same_length_lookup. split; [done|].
    intros i x y Hx Hy. replace y with x by congruence.
    apply lookups_effect_refl. }
  cbn [applyLookups].
  destruct (lookupMetrics nameToNode rule st.1 st.2) as [[ms1 ntw1]| |] eqn:E1;
    [|done..].
  cbn [mbind result_bind]. intros E2.
  destruct (lookupMetrics_effect _ _ _ _ _ _ E1) as (Hsub1 & H1).
  destruct (IH _ E2) as (Hsub2 & H2). cbn [fst snd] in *.
  split; [set_solver|].
  eapply Forall2_trans; [| |exact H2].
  { intros x y z Hxy Hyz. eapply lookups_effect_trans; [exact Hxy|].
    eapply lookups_effect_mono; [| |exact Hyz]; [set_solver | done]. }
  eapply Forall2_impl; [exact H1|].
  intros x y Hxy. eapply lookups_effect_mono; [| |exact Hxy]; set_solver.
Qed.

(** *** The stages of a run *)

Lemma metricType_kinds (t k : string) :
  metricType t = Some k -> k ∈ metricKinds.
Proof.
  unfold metricType, metricKinds.
  repeat case_bool_decide; intros [= <-]; set_solver.
Qed.

Lemma metricOf_fresh (nameToNode : gmap string Node) (n : Node) (m : Metric) :
  metricOf nameToNode n = Some m -> fresh_metric m.
Proof.
  unfold metricOf.
  destruct (metricType (Type_ n)) as [t|] eqn:Ht; [|done].
  destruct (metricAccess (Access n)); [|done].
  destruct (mapM (indexOf nameToNode) (Indexes n)) as [indexes|] eqn:Hi;
    [|done].
  intros [= <-]. split; [by eapply metricType_kinds|]. split; [|done].
  cbn. apply mapM_Some in Hi. apply Forall_forall. intros index Hin.
  apply list_elem_of_lookup_1 in Hin as [j Hj].
  destruct (Forall2_lookup_r _ _ _ _ _ Hi Hj) as (i & _ & Hidx).
  apply indexOf_Some in Hidx as (node & _ & Ht' & _).
  by eapply metricType_kinds.
Qed.

Lemma findMetrics_fresh (nameToNode : gmap string Node)
    (toWalk : list string) (st st' : list Metric * gset string) :
  Forall fresh_metric st.1 ->
  findMetrics nameToNode toWalk st = Ok st' ->
  Forall fresh_metric st'.1.
Proof.
  revert st. induction toWalk as [|oid rest IH]; intros [ms ntw] Hst.
  { by intros [= <-]. }
  cbn [findMetrics]. destruct (nameToNode !! oid) as [node|]; [|done].
  apply IH. cbn [fst].
  apply (WalkNode_invariant (Forall fresh_metric)); [|done].
  intros n metrics Hms. rewrite visitNode_metricOf.
  apply Forall_app. split; [done|].
  destruct (metricOf nameToNode n) as [m|] eqn:E; [|constructor].
  constructor; [by eapply metricOf_fresh | constructor].
Qed.

Lemma findMetrics_needToWalk (nameToNode : gmap string Node)
    (toWalk : list string) (st st' : list Metric * gset string) :
  findMetrics nameToNode toWalk st = Ok st' ->
  st.2 ⊆ st'.2 /\
  forall oid, oid ∈ toWalk ->
    exists node, nameToNode !! oid = Some node /\ Oid node ∈ st'.2.
Proof.
  revert st. induction toWalk as [|oid rest IH]; intros [ms ntw].
  { intros [= <-]. split; [done|]. intros oid Hin. by apply elem_of_nil in Hin. }
  cbn [findMetrics]. destruct (nameToNode !! oid) as [node|] eqn:E; [|done].
  intros H. destruct (IH _ H) as [Hsub Hall]. cbn [snd] in *.
  split; [set_solver|]. intros o [->|Hin]%elem_of_cons; [|by apply Hall].
  exists node. split; [done|]. apply Hsub. set_solver.
Qed.

Lemma findMetrics_resolved (nameToNode : gmap string Node)
    (toWalk : list string) (st : list Metric * gset string) :
  (forall oid, oid ∈ toWalk -> is_Some (nameToNode !! oid)) ->
  exists st', findMetrics nameToNode toWalk st = Ok st'.
Proof.
  revert st. induction toWalk as [|oid rest IH]; intros [ms ntw] Hall.
  { by eexists. }
  cbn [findMetrics]. destruct (Hall oid) as [node ->]; [by left|].
  apply IH. intros o Ho. apply Hall. by right.
Qed.

Lemma resolveWalk_Ok (nameToNode : gmap string Node)
    (walk acc toWalk : list string) :
  resolveWalk nameToNode walk acc = Ok toWalk ->
  (forall e, e ∈ walk ->
     exists n, nameToNode !! e = Some n /\ Oid n ∈ toWalk) /\
  (forall o, o ∈ toWalk ->
     o ∈ acc \/ exists e n, e ∈ walk /\ nameToNode !! e = Some n /\ o = Oid n)
  /\ (forall o, o ∈ acc -> o ∈ toWalk).
Proof.
  revert acc. induction walk as [|e walk IH]; intros acc.
  { intros [= <-]. split; [|split; [by left | done]].
    intros e He. by apply elem_of_nil in He. }
  cbn [resolveWalk]. destruct (nameToNode !! e) as [n|] eqn:E; [|done].
  intros H. destruct (IH _ H) as (H1 & H2 & H3).
  split; [|split].
  - intros e' [->|He']%elem_of_cons.
    + exists n. split; [done|]. apply H3. set_solver.
    + by apply H1.
  - intros o Ho. destruct (H2 o Ho) as [[Hacc|Hlast]%elem_of_app|Hex].
    + by left.
    + apply list_elem_of_singleton in Hlast as ->. right. exists e, n.
      split; [by left | done].
    + destruct Hex as (e' & n' & ? & ? & ?). right. exists e', n'.
      split; [by right | done].
  - intros o Ho. apply H3. set_solver.
Qed.

Lemma resolveWalk_resolved (nameToNode : gmap string Node)
    (walk acc : list string) :
  (forall e, e ∈ walk -> is_Some (nameToNode !! e)) ->
  exists toWalk, resolveWalk nameToNode walk acc = Ok toWalk.
Proof.
  revert acc. induction walk as [|e walk IH]; intros acc Hall.
  { by eexists. }
  cbn [resolveWalk]. destruct (Hall e) as [n ->]; [by left|].
  apply IH. intros e' He'. apply Hall. by right.
Qed.

Lemma resolveWalk_not_Panic (nameToNode : gmap string Node)
    (walk acc : list string) :
  resolveWalk nameToNode walk acc <> Panic.
Proof.
  revert acc. induction walk as [|e walk IH]; intros acc; [done|].
  cbn [resolveWalk]. destruct (nameToNode !! e); [apply IH | done].
Qed.

Lemma lookupIndexes_not_Panic (nameToNode : gmap string Node)
    (rule : Lookup_) (indexes : list Index) (st : list Lookup * gset string) :
  lookupIndexes nameToNode rule indexes st <> Panic.
Proof.
  revert st. induction indexes as [|index rest IH]; intros [ls ntw]; [done|].
  cbn [lookupIndexes]. unfold lookupIndex.
  destruct (String.eqb _ _).
  - destruct (nameToNode !! NewIndex rule) as [node|]; [|done].
    destruct (metricType (Type_ node)); [|done].
    cbn [mbind result_bind].
    destruct (lookupIndexes nameToNode rule rest _) as [[? ?]| |] eqn:E;
      [done|done|]. by apply IH in E.
  - cbn [mbind result_bind].
    destruct (lookupIndexes nameToNode rule rest _) as [[? ?]| |] eqn:E;
      [done|done|]. by apply IH in E.
Qed.

Lemma lookupMetrics_not_Panic (nameToNode : gmap string Node)
    (rule : Lookup_) (metrics : list Metric) (needToWalk : gset string) :
  lookupMetrics nameToNode rule metrics needToWalk <> Panic.
Proof.
  revert needToWalk. induction metrics as [|m rest IH]; intros ntw; [done|].
  cbn [lookupMetrics].
  destruct (lookupIndexes nameToNode rule (Metric_Indexes m) _)
    as [[indexes [ls ntw1]]| |] eqn:E1; [|done|].
  - cbn [mbind result_bind].
    destruct (lookupMetrics nameToNode rule rest ntw1) as [[? ?]| |] eqn:E2;
      [done|done|]. by apply IH in E2.
  - by apply lookupIndexes_not_Panic in E1.
Qed.

Lemma applyLookups_not_Panic (nameToNode : gmap string Node)
    (rules : list Lookup_) (st : list Metric * gset string) :
  applyLookups nameToNode rules st <> Panic.
Proof.
  revert st. induction rules as [|rule rest IH]; intros st; [done|].
  cbn [applyLookups].
  destruct (lookupMetrics nameToNode rule st.1 st.2) as [st1| |] eqn:E;
    [apply IH | done |]. by apply lookupMetrics_not_Panic in E.
Qed.

Lemma lookupMetrics_resolved_Ok (nameToNode : gmap string Node)
    (rule : Lookup_) (indexNode : Node) (typ : string)
    (metrics : list Metric) (needToWalk : gset string) :
  nameToNode !! NewIndex rule = Some indexNode ->
  metricType (Type_ indexNode) = Some typ ->
  exists st', lookupMetrics nameToNode rule metrics needToWalk = Ok st'.
Proof.
  intros Hnode Htyp. revert needToWalk.
  induction metrics as [|m rest IH]; intros needToWalk; [by eexists|].
  cbn [lookupMetrics].
  rewrite (lookupIndexes_resolved _ _ indexNode typ) by done.
  cbn [mbind result_bind].
  match goal with |- context [lookupMetrics nameToNode rule rest ?n] =>
    destruct (IH n) as [[ms ntw] ->] end.
  by eexists.
Qed.

Lemma applyLookups_resolved_Ok (nameToNode : gmap string Node)
    (rules : list Lookup_) (st : list Metric * gset string) :
  Forall (fun rule => exists indexNode typ,
            nameToNode !! NewIndex rule = Some indexNode /\
            metricType (Type_ indexNode) = Some typ) rules ->
  exists st', applyLookups nameToNode rules st = Ok st'.
Proof.
  intros Hall. revert st.
  induction Hall as [|rule rest (node & typ & Hnode & Htyp) _ IH]; intros st.
  { by eexists. }
  cbn [applyLookups].
  destruct (lookupMetrics_resolved_Ok nameToNode rule node typ st.1 st.2
              Hnode Htyp) as [st1 ->].
  apply IH.
Qed.

(** A run that returns has gone through the stages: the walk entries
    were resolved, the metrics found, the lookups and then the overrides
    applied, and the OIDs to walk minimized. *)
Lemma generateConfigModule_stages (cfg : ModuleConfig) (node : Node)
    (nameToNode : gmap string Node) (m : Module_) :
  generateConfigModule cfg node nameToNode = Ok m ->
  exists toWalk discovered needed0 metrics needed,
    resolveWalk nameToNode (cfg_Walk cfg) [] = Ok toWalk /\
    findMetrics nameToNode (minimizeOids toWalk) ([], ∅)
      = Ok (discovered, needed0) /\
    applyLookups nameToNode (cfg_Lookups cfg) (discovered, needed0)
      = Ok (metrics, needed) /\
    m = mkModule (minimizeOids (elements needed))
          (overrideAll (cfg_Overrides cfg) <$> metrics).
Proof.
  intros (metrics & needed & Hl & ->)%generateConfigModule_Ok.
  unfold lookupsApplied in Hl.
  destruct (resolveWalk nameToNode (cfg_Walk cfg) []) as [toWalk| |];
    [|done..].
  cbn [mbind result_bind] in Hl.
  destruct (findMetrics nameToNode (minimizeOids toWalk) ([], ∅))
    as [[discovered needed0]| |] eqn:E; [|done..].
  cbn [mbind result_bind] in Hl.
  exists toWalk, discovered, needed0, metrics, needed.
  by rewrite applyOverrides_overrideAll.
Qed.

Lemma generateConfigModule_outputs (cfg : ModuleConfig) (node : Node)
    (nameToNode : gmap string Node) (m : Module_) :
  generateConfigModule cfg node nameToNode = Ok m ->
  exists discovered needed0 needed,
    lookupsApplied cfg nameToNode [] = Ok (discovered, needed0) /\
    Forall fresh_metric discovered /\
    needed0 ⊆ needed /\
    Walk m = minimizeOids (elements needed) /\
    Forall2 (output_of nameToNode (cfg_Lookups cfg) needed)
      discovered (Metrics m).
Proof.
  intros (toWalk & discovered & needed0 & metrics & needed & Hr & Hf & Ha & ->)
    %generateConfigModule_stages.
  exists discovered, needed0, needed.
  pose proof (findMetrics_fresh nameToNode (minimizeOids toWalk) ([], ∅)
                (discovered, needed0) (Forall_nil_2 _) Hf) as Hfresh.
  destruct (applyLookups_effect _ _ _ _ Ha) as [Hsub Heff].
  cbn [fst snd] in *.
  split; [unfold lookupsApplied; by rewrite Hr; cbn; rewrite Hf|].
  split; [done|]. split; [done|]. split; [done|].
  cbn [Metrics]. apply Forall2_fmap_r.
  apply Forall2_same_length_lookup. split; [by eapply Forall2_length|].
  intros i d o Hd Ho.
  destruct (Forall2_lookup_l _ _ _ _ _ Heff Hd) as (o' & Ho' & He).
  replace o' with o in * by congruence.
  rewrite Forall_lookup in Hfresh.
  destruct (Hfresh i d Hd) as (_ & _ & Hnol & _).
  destruct He as (? & ? & ? & ? & _ & Hidx & new & Hl & Hnew).
  destruct (overrideAll_fields (cfg_Overrides cfg) o)
    as (Hn & Hoid & Ht & Hh & Hi & Hls).
  unfold compose, output_of. rewrite Hn, Hoid, Ht, Hh, Hi, Hls.
  do 4 (split; [done|]). split; [done|].
  by rewrite Hl, Hnol.
Qed.

(** X8. The lookups and the overrides keep the metrics that the metric
    walk found, one for one and in order, with their names, OIDs, types
    and help texts.  The indexes stay in place with their types and fixed
    sizes; the labelname of an index stays or is the sanitized label of
    the target of a lookup rule.  Every lookup entry of the output is the
    entry for the target of a rule that resolved to a node of
    classifiable type, and its OID is among the OIDs whose minimization
    is the walk list. *)
Theorem lookups_and_overrides_keep_metrics (cfg : ModuleConfig) (node : Node)
    (nameToNode : gmap string Node) (m : Module_) :
  generateConfigModule cfg node nameToNode = Ok m ->
  exists discovered needed0 needed,
    lookupsApplied cfg nameToNode [] = Ok (discovered, needed0) /\
    needed0 ⊆ needed /\
    Walk m = minimizeOids (elements needed) /\
    Forall2 (output_of nameToNode (cfg_Lookups cfg) needed)
      discovered (Metrics m).
Proof.
  intros (discovered & needed0 & needed & H1 & _ & H2 & H3 & H4)
    %generateConfigModule_outputs.
  by exists discovered, needed0, needed.
Qed.

Lemma lookups_and_overrides_keep_metrics_witness :
  exists discovered needed0 needed,
    lookupsApplied
      (mkModuleConfig ["ifInOctets"] [mkLookupRule "ifIndex" "ifInOctets"]
         overridesByNameAndOid) ifNameToNode [] = Ok (discovered, needed0) /\
    needed0 ⊆ needed /\
    Walk (mkModule ["1.3.6.1.2.1.2.2.1.10"]
            [mkMetric "ifInOctets" "1.3.6.1.2.1.2.2.1.10" "counter"
               " - 1.3.6.1.2.1.2.2.1.10" [mkIndex "ifInOctets" "gauge" 0]
               [mkLookup ["ifInOctets"] "ifInOctets" "counter"
                  "1.3.6.1.2.1.2.2.1.10"]
               [("Load", [("0", "^down$")])]])
    = minimizeOids (elements needed) /\
    Forall2 (output_of ifNameToNode [mkLookupRule "ifIndex" "ifInOctets"]
               needed)
      discovered
      [mkMetric "ifInOctets" "1.3.6.1.2.1.2.2.1.10" "counter"
         " - 1.3.6.1.2.1.2.2.1.10" [mkIndex "ifInOctets" "gauge" 0]
         [mkLookup ["ifInOctets"] "ifInOctets" "counter"
            "1.3.6.1.2.1.2.2.1.10"]
         [("Load", [("0", "^down$")])]].
Proof.
  apply (lookups_and_overrides_keep_metrics
           (mkModuleConfig ["ifInOctets"]
              [mkLookupRule "ifIndex" "ifInOctets"] overridesByNameAndOid)
           ifInOctets ifNameToNode).
  vm_compute. reflexivity.
Defined.

(** X9. In every module that is generated, the type of every metric, of
    every index and of every lookup is one of the seven output kinds of
    [metricType]. *)
Theorem generated_types_are_kinds (cfg : ModuleConfig) (node : Node)
    (nameToNode : gmap string Node) (m : Module_) :
  generateConfigModule cfg node nameToNode = Ok m ->
  Forall metric_kinds_ok (Metrics m).
Proof.
  intros (discovered & needed0 & needed & _ & Hfresh & _ & _ & Hout)
    %generateConfigModule_outputs.
  apply Forall_lookup. intros i o Ho.
  destruct (Forall2_lookup_r _ _ _ _ _ Hout Ho) as (d & Hd & He).
  rewrite Forall_lookup in Hfresh.
  destruct (Hfresh i d Hd) as (Ht & Hit & _ & _).
  destruct He as (_ & _ & Ht' & _ & Hidx & Hls).
  split; [by rewrite Ht'|]. split.
  - apply Forall_lookup. intros j idx' Hj.
    destruct (Forall2_lookup_r _ _ _ _ _ Hidx Hj) as (idx & Hidx0 & (-> & _)).
    rewrite Forall_lookup in Hit. by eapply Hit.
  - eapply Forall_impl; [exact Hls|].
    intros l [(rule & n & typ & _ & _ & Htyp & ->) _]. cbn.
    by eapply metricType_kinds.
Qed.

Lemma generated_types_are_kinds_witness :
  Forall metric_kinds_ok
    (Metrics (mkModule ["1.3.6.1.2.1.2.2.1.10"] [ifInOctetsMetric])).
Proof.
  apply (generated_types_are_kinds (mkModuleConfig ["ifInOctets"] [] [])
           ifInOctets ifNameToNode).
  vm_compute. reflexivity.
Defined.

Lemma lookupIndexes_unclassifiable (nameToNode : gmap string Node)
    (lookup : Lookup_) (indexNode : Node) (indexes : list Index)
    (st : list Lookup * gset string) :
  nameToNode !! NewIndex lookup = Some indexNode ->
  metricType (Type_ indexNode) = None ->
  Exists (fun i => Index_Labelname i = OldIndex lookup) indexes ->
  lookupIndexes nameToNode lookup indexes st =
  Fatal ("Unknown index type " +:+ Type_ indexNode +:+ " for "
         +:+ NewIndex lookup).
Proof.
  intros Hnode Htyp. revert st.
  induction indexes as [|index rest IH]; intros [ls ntw] Hex.
  { by apply Exists_nil in Hex. }
  cbn [lookupIndexes]. unfold lookupIndex.
  destruct (String.eqb (Index_Labelname index) (OldIndex lookup)) eqn:E.
  - by rewrite Hnode, Htyp.
  - cbn [mbind result_bind]. rewrite IH; [done|].
    apply Exists_cons in Hex as [Hex|Hex]; [|done].
    by apply String.eqb_neq in E.
Qed.

Lemma lookupMetrics_unclassifiable (nameToNode : gmap string Node)
    (lookup : Lookup_) (indexNode : Node) (metrics : list Metric)
    (needToWalk : gset string) :
  nameToNode !! NewIndex lookup = Some indexNode ->
  metricType (Type_ indexNode) = None ->
  (exists m i, m ∈ metrics /\ i ∈ Metric_Indexes m /\
               Index_Labelname i = OldIndex lookup) ->
  lookupMetrics nameToNode lookup metrics needToWalk =
  Fatal ("Unknown index type " +:+ Type_ indexNode +:+ " for "
         +:+ NewIndex lookup).
Proof.
  intros Hnode Htyp. revert needToWalk.
  induction metrics as [|metric rest IH];
    intros needToWalk (m & i & Hm & Hi & Hlab).
  { by apply elem_of_nil in Hm. }
  cbn [lookupMetrics].
  destruct (decide (Exists (fun i' => Index_Labelname i' = OldIndex lookup)
                      (Metric_Indexes metric))) as [Hex|Hnex].
  - by rewrite (lookupIndexes_unclassifiable _ _ indexNode).
  - apply not_Exists_Forall in Hnex; [|intros ?; apply _].
    rewrite lookupIndexes_inert by done.
    cbn [mbind result_bind]. rewrite IH; [done|].
    apply elem_of_cons in Hm as [->|Hm]; [|by exists m, i].
    rewrite Forall_forall in Hnex. by destruct (Hnex i Hi).
Qed.

(** X10. A lookup rule whose target resolves to a node whose type has no
    output kind ends the run with [log.Fatalf], naming the type and the
    target, when the rule is reached and its [OldIndex] labels an index
    of some metric at that point. *)
Theorem lookup_unclassifiable_fatal (cfg : ModuleConfig) (node : Node)
    (nameToNode : gmap string Node) (pre post : list Lookup_)
    (rule : Lookup_) (indexNode : Node) (metrics : list Metric)
    (needToWalk : gset string) :
  cfg_Lookups cfg = pre ++ rule :: post ->
  nameToNode !! NewIndex rule = Some indexNode ->
  metricType (Type_ indexNode) = None ->
  lookupsApplied cfg nameToNode pre = Ok (metrics, needToWalk) ->
  (exists m i, m ∈ metrics /\ i ∈ Metric_Indexes m /\
               Index_Labelname i = OldIndex rule) ->
  generateConfigModule cfg node nameToNode =
  Fatal ("Unknown index type " +:+ Type_ indexNode +:+ " for "
         +:+ NewIndex rule).
Proof.
  intros Hl Hnode Htyp Hpre Hex.
  unfold generateConfigModule. rewrite Hl.
  unfold lookupsApplied in *.
  destruct (resolveWalk nameToNode (cfg_Walk cfg) []) as [toWalk| |];
    [|done..].
  cbn [mbind result_bind] in *.
  destruct (findMetrics nameToNode (minimizeOids toWalk) ([], ∅)) as [st| |];
    [|done..].
  cbn [mbind result_bind] in *.
  rewrite applyLookups_app, Hpre. cbn [mbind result_bind applyLookups fst snd].
  by rewrite (lookupMetrics_unclassifiable _ _ indexNode).
Qed.

Lemma lookup_unclassifiable_fatal_witness :
  generateConfigModule
    (mkModuleConfig ["ifInOctets"] [mkLookupRule "ifIndex" "ifSpecific"] [])
    ifInOctets (<["ifSpecific" := ifSpecific]> ifNameToNode)
  = Fatal "Unknown index type OBJID for ifSpecific".
Proof.
  apply (lookup_unclassifiable_fatal
           (mkModuleConfig ["ifInOctets"]
              [mkLookupRule "ifIndex" "ifSpecific"] [])
           ifInOctets (<["ifSpecific" := ifSpecific]> ifNameToNode) [] []
           (mkLookupRule "ifIndex" "ifSpecific") ifSpecific
           [ifInOctetsMetric] {["1.3.6.1.2.1.2.2.1.10"]}).
  - reflexivity.
  - vm_compute. reflexivity.
  - reflexivity.
  - vm_compute. reflexivity.
  - exists ifInOctetsMetric, (mkIndex "ifIndex" "gauge" 0).
    split; [by left|]. split; [by left | reflexivity].
Defined.

(** X11. With a closed Name Index, the walk list of a generated module
    covers everything that was asked for: the OID of the node of every
    [walk] entry, and the OID of every lookup entry of the output, is in
    the walk list or has an entry of the walk list as a dotted prefix. *)
Theorem walk_covers_requests (cfg : ModuleConfig) (node : Node)
    (nameToNode : gmap string Node) (m : Module_) :
  closed_index nameToNode ->
  generateConfigModule cfg node nameToNode = Ok m ->
  (forall e, e ∈ cfg_Walk cfg ->
     exists n a, nameToNode !! e = Some n /\
                 a ∈ Walk m /\ dotted_prefix a (Oid n)) /\
  (forall metric l, metric ∈ Metrics m -> l ∈ Metric_Lookups metric ->
     exists a, a ∈ Walk m /\ dotted_prefix a (Lookup_Oid l)).
Proof.
  intros Hclosed Hm. split.
  - apply generateConfigModule_stages in Hm
      as (toWalk & discovered & needed0 & metrics & needed & Hr & Hf & Ha & ->).
    cbn [Walk].
    destruct (resolveWalk_Ok _ _ _ _ Hr) as (Hwalk & Hfrom & _).
    destruct (findMetrics_needToWalk _ _ _ _ Hf) as [_ Hroots].
    destruct (applyLookups_effect _ _ _ _ Ha) as [Hsub _].
    cbn [fst snd] in *.
    intros e He. destruct (Hwalk e He) as (n & Hn & Hin).
    destruct (minimizeOids_cover toWalk (Oid n) Hin) as (r & Hr' & Hrn).
    destruct (Hroots r Hr') as (nr & Hnr & Hinr).
    assert (Oid nr = r) as Hoid.
    { pose proof (minimizeOids_elem_of _ _ Hr') as Hrt.
      destruct (Hfrom r Hrt) as [Hnil|(e' & n' & _ & Hn' & ->)];
        [by apply elem_of_nil in Hnil|].
      destruct (Hclosed e' n' Hn') as (n'' & Hn'' & Heq). congruence. }
    destruct (minimizeOids_cover (elements needed) r) as (a & Ha' & Har).
    { apply elem_of_elements, Hsub. by rewrite <- Hoid. }
    exists n, a. split; [done|]. split; [done|].
    by eapply dotted_prefix_trans.
  - apply generateConfigModule_outputs in Hm
      as (discovered & needed0 & needed & _ & _ & _ & -> & Hout).
    intros o l Ho Hl.
    apply list_elem_of_lookup_1 in Ho as [i Hi].
    destruct (Forall2_lookup_r _ _ _ _ _ Hout Hi) as (d & _ & He).
    destruct He as (_ & _ & _ & _ & _ & Hls).
    rewrite Forall_forall in Hls. destruct (Hls l Hl) as [_ Hin].
    apply minimizeOids_cover. by apply elem_of_elements.
Qed.

Lemma ifNameToNode_closed : closed_index ifNameToNode.
Proof.
  intros k n Hk. unfold ifNameToNode in Hk.
  repeat (apply lookup_insert_Some in Hk as [[_ <-]|[_ Hk]];
          [eexists; split; [vm_compute; reflexivity | reflexivity]|]).
  by rewrite lookup_empty in Hk.
Qed.

Lemma walk_covers_requests_witness :
  closed_index ifNameToNode /\
  (forall e, e ∈ ["ifInOctets"] ->
     exists n a, ifNameToNode !! e = Some n /\
                 a ∈ ["1.3.6.1.2.1.2.2.1.10"] /\ dotted_prefix a (Oid n)).
Proof.
  split; [exact ifNameToNode_closed|].
  destruct (walk_covers_requests (mkModuleConfig ["ifInOctets"] [] [])
              ifInOctets ifNameToNode
              (mkModule ["1.3.6.1.2.1.2.2.1.10"] [ifInOctetsMetric])
              ifNameToNode_closed) as [H _]; [vm_compute; reflexivity|].
  exact H.
Defined.

Lemma closed_index_keys (nameToNode : gmap string Node) :
  closed_index nameToNode -> oids_are_keys nameToNode.
Proof. intros H k n Hk. destruct (H k n Hk) as (n' & -> & _). by eexists. Qed.

(** X12. When the OID of every node of the Name Index is a key, a run
    never panics: [nameToNode[oid]] is never nil in the metric walk.  If
    moreover every [walk] entry resolves and the target of every lookup
    rule resolves to a node of classifiable type, the run returns a
    module. *)
Theorem closed_index_run (cfg : ModuleConfig) (node : Node)
    (nameToNode : gmap string Node) :
  oids_are_keys nameToNode ->
  generateConfigModule cfg node nameToNode <> Panic /\
  ((forall e, e ∈ cfg_Walk cfg -> is_Some (nameToNode !! e)) ->
   Forall (fun rule => exists indexNode typ,
             nameToNode !! NewIndex rule = Some indexNode /\
             metricType (Type_ indexNode) = Some typ) (cfg_Lookups cfg) ->
   exists m, generateConfigModule cfg node nameToNode = Ok m).
Proof.
  intros Hkeys.
  assert (forall toWalk,
            resolveWalk nameToNode (cfg_Walk cfg) [] = Ok toWalk ->
            exists st, findMetrics nameToNode (minimizeOids toWalk) ([], ∅)
                       = Ok st) as Hfind.
  { intros toWalk Hr. apply findMetrics_resolved. intros oid Hoid.
    apply minimizeOids_elem_of in Hoid.
    destruct (resolveWalk_Ok _ _ _ _ Hr) as (_ & Hfrom & _).
    destruct (Hfrom oid Hoid) as [Hnil|(e & n & _ & Hn & ->)];
      [by apply elem_of_nil in Hnil|].
    exact (Hkeys e n Hn). }
  unfold generateConfigModule, lookupsApplied. split.
  - destruct (resolveWalk nameToNode (cfg_Walk cfg) []) as [toWalk| |] eqn:Hr;
      [|done|by apply resolveWalk_not_Panic in Hr].
    cbn [mbind result_bind].
    destruct (Hfind toWalk eq_refl) as [st ->]. cbn [mbind result_bind].
    destruct (applyLookups nameToNode (cfg_Lookups cfg) st)
      as [[ms ntw]| |] eqn:Ha; [done|done|].
    by apply applyLookups_not_Panic in Ha.
  - intros Hwalk Hrules.
    destruct (resolveWalk_resolved nameToNode (cfg_Walk cfg) [] Hwalk)
      as [toWalk Hr].
    rewrite Hr. cbn [mbind result_bind].
    destruct (Hfind toWalk Hr) as [st ->].
    cbn [mbind result_bind].
    destruct (applyLookups_resolved_Ok nameToNode (cfg_Lookups cfg) st Hrules)
      as [[ms ntw] ->].
    by eexists.
Qed.

Lemma closed_index_run_witness :
  oids_are_keys ifNameToNode /\
  generateConfigModule
    (mkModuleConfig ["ifInOctets"; "ifIndex"]
       [mkLookupRule "ifIndex" "ifInOctets"] []) ifInOctets ifNameToNode
  <> Panic /\
  exists m,
    generateConfigModule
      (mkModuleConfig ["ifInOctets"; "ifIndex"]
         [mkLookupRule "ifIndex" "ifInOctets"] []) ifInOctets ifNameToNode
    = Ok m.
Proof.
  pose proof (closed_index_keys _ ifNameToNode_closed) as Hkeys.
  split; [exact Hkeys|].
  destruct (closed_index_run
              (mkModuleConfig ["ifInOctets"; "ifIndex"]
                 [mkLookupRule "ifIndex" "ifInOctets"] [])
              ifInOctets ifNameToNode Hkeys) as [Hnp Hok].
  split; [exact Hnp|]. apply Hok.
  - intros e He. cbn [cfg_Walk] in He.
    repeat (apply elem_of_cons in He as [->|He]);
      [..|by apply elem_of_nil in He]; by eexists.
  - cbn [cfg_Lookups]. constructor; [|constructor].
    exists ifInOctets, "counter". by split.
Defined.

(** * Further properties of [PrepareTree] *)

(** ** The Name Index *)

Lemma indexNode_lookup (nodes : Node) (p : ptr) (st : gmap string ptr)
    (name : string) :
  indexNode nodes p st !! name =
  if named nodes name p then Some p else st !! name.
Proof.
  unfold indexNode, named. destruct (deref p nodes) as [n|]; [|done].
  case_bool_decide as H.
  - destruct (decide (Label n = name)) as [<- | Hne];
      [by rewrite lookup_insert_eq|].
    rewrite lookup_insert_ne by done.
    destruct H as [-> | ->]; [by rewrite lookup_insert_eq | done].
  - rewrite !lookup_insert_ne; [done|..]; intros <-; apply H; auto.
Qed.

Lemma fold_indexNode (nodes : Node) (l : list ptr) (st : gmap string ptr)
    (name : string) :
  fold_left (fun st p => indexNode nodes p st) l st !! name =
  match last (filter (fun p => named nodes name p) l) with
  | Some p => Some p
  | None => st !! name
  end.
Proof.
  revert st. induction l as [|p l IH]; intros st; [done|].
  cbn [fold_left]. rewrite IH, indexNode_lookup, filter_cons.
  destruct (named nodes name p) eqn:E.
  - rewrite decide_True by exact I. rewrite last_cons.
    by destruct (last (filter _ l)).
  - by rewrite decide_False by (intros []).
Qed.

(** X13. A name of the Name Index points at the node that goes by it
    and that [WalkNode] visits last: when two nodes share a label or an
    OID, or the label of one is the OID of the other, the later one in
    pre-order wins; a name that no node goes by is no key. *)
Theorem PrepareTree_index_last_wins (nodes : Node) (name : string) :
  (PrepareTree nodes).2 !! name =
  last (filter (fun p => named nodes name p) (paths nodes)).
Proof.
  unfold PrepareTree. cbn [snd]. rewrite WalkNodePtr_paths.
  cbn [app]. rewrite fold_indexNode, lookup_empty.
  by destruct (last _).
Qed.

(** ** The walks of [PrepareTree] as functions on trees *)

Lemma set_Indexes_same (n : Node) : set_Indexes (Indexes n) n = n.
Proof. by destruct n. Qed.

Lemma set_Children_twice (a b : list Node) (n : Node) :
  set_Children a (set_Children b n) = set_Children a n.
Proof. done. Qed.

Lemma update_app (p q : ptr) (g : Node -> Node) (t : Node) :
  update (p ++ q) g t = update p (update q g) t.
Proof.
  revert t. induction p as [|i p IH]; intros t; [done|].
  cbn [app update]. f_equal. apply list_alter_ext; [|done]. intros c _.
  apply IH.
Qed.

Lemma update_ext (p : ptr) (f g : Node -> Node) (t : Node) :
  (forall n, deref p t = Some n -> f n = g n) -> update p f t = update p g t.
Proof.
  revert t. induction p as [|i p IH]; intros t H; cbn [update].
  - by apply H.
  - f_equal. apply list_alter_ext; [|done]. intros c Hc. apply IH.
    intros n Hn. apply H. cbn [deref]. by rewrite Hc.
Qed.

Lemma update_same (p : ptr) (f : Node -> Node) (t : Node) :
  (forall n, deref p t = Some n -> f n = n) -> update p f t = t.
Proof.
  intros H. rewrite (update_ext p f id t H). clear H.
  revert t. induction p as [|i p IH]; intros t; [done|].
  cbn [update]. transitivity (set_Children (Children t) t);
    [|apply set_Children_same].
  f_equal. by apply list_alter_id.
Qed.

Lemma update_update (p : ptr) (f g : Node -> Node) (t : Node) :
  update p f (update p g t) = update p (fun n => f (g n)) t.
Proof.
  revert t. induction p as [|i p IH]; intros t; [done|].
  cbn [update]. rewrite set_Children_twice. f_equal.
  cbn [set_Children Children]. rewrite list_alter_alter_eq.
  apply list_alter_ext; [|done]. intros c _. apply IH.
Qed.

Lemma paths_unfold (n : Node) :
  paths n = [] :: number_paths 0 (map paths (Children n)).
Proof. by destruct n. Qed.

Lemma mapNodes_unfold (g : Node -> Node) (n : Node) :
  mapNodes g n = set_Children (mapNodes g <$> Children n) (g n).
Proof. by destruct n. Qed.

Lemma pushDown_unfold (indexes : list string) (n : Node) :
  pushDown indexes n =
  set_Children ((fun c => pushDown (inherited indexes c) c) <$> Children n)
    (set_Indexes indexes n).
Proof. by destruct n. Qed.

(** The walks below the node at [here], whose children not yet visited
    are [a <$> rest]: if the walk from a child [a c] leaves [t c] in its
    place, the walks leave the children [t <$> rest]. *)
Lemma walk_children (g : Node -> Node) (a t : Node -> Node) (here : ptr)
    (rest : list Node) :
  Forall (fun c => forall here root, deref here root = Some (a c) ->
            fold_left (fun st p => update (here ++ p) g st) (paths c) root =
            update here (fun _ => t c) root) rest ->
  forall (D : list Node) (st X : Node),
    deref here st = Some X -> Children X = D ++ (a <$> rest) ->
    fold_left (fun st p => update (here ++ p) g st)
      (number_paths (length D) (map paths rest)) st =
    update here (set_Children (D ++ (t <$> rest))) st.
Proof.
  induction 1 as [|c rest Hc _ IH]; intros D st X Hst HX.
  - cbn [map number_paths fold_left fmap list_fmap] in *.
    symmetry. apply update_same. intros n Hn.
    assert (n = X) as -> by congruence.
    rewrite <- HX. apply set_Children_same.
  - rewrite fmap_cons in HX.
    cbn [map number_paths]. rewrite fold_left_app, fold_left_fmap.
    rewrite (fold_left_pointwise
               (fun st p => update (here ++ length D :: p) g st)
               (fun st p => update ((here ++ [length D]) ++ p) g st))
      by (intros st' p; by rewrite <- app_assoc).
    assert (deref (here ++ [length D]) st = Some (a c)) as Hchild.
    { rewrite deref_app, Hst. cbn. rewrite HX.
      by rewrite (list_lookup_middle D _ (a c) (length D)). }
    rewrite (Hc _ _ Hchild).
    set (X' := set_Children (D ++ t c :: (a <$> rest)) X).
    assert (update (here ++ [length D]) (fun _ => t c) st =
            update here (fun _ => X') st) as Hst'.
    { rewrite update_app. apply update_ext. intros n Hn.
      assert (n = X) as -> by congruence.
      unfold X'. cbn [update]. f_equal. rewrite HX.
      rewrite <- (Nat.add_0_r (length D)) at 1. by rewrite alter_app_r. }
    rewrite Hst'.
    assert (deref here (update here (fun _ => X') st) = Some X') as HX'
      by by rewrite (deref_update_eq _ here st X Hst).
    assert (Children X' = (D ++ [t c]) ++ (a <$> rest)) as Hch
      by (unfold X'; cbn [set_Children Children]; by rewrite <- app_assoc).
    pose proof (IH (D ++ [t c]) _ X' HX' Hch) as IH'.
    rewrite length_app, Nat.add_1_r in IH'.
    etrans; [exact IH'|].
    rewrite update_update. apply update_ext. intros n Hn.
    assert (n = X) as -> by congruence.
    unfold X'. rewrite set_Children_twice, fmap_cons.
    by rewrite <- app_assoc.
Qed.

(** A walk whose callback changes the node it is called on, and not its
    children, applies the callback to every node once. *)
Lemma walk_mapNodes (g : Node -> Node) :
  (forall n, Children (g n) = Children n) ->
  forall (cur : Node) (here : ptr) (root : Node),
    deref here root = Some cur ->
    fold_left (fun st p => update (here ++ p) g st) (paths cur) root =
    update here (fun _ => mapNodes g cur) root.
Proof.
  intros Hg cur. induction cur as [cur IH] using Node_children_ind.
  intros here root Hcur.
  rewrite paths_unfold. cbn [fold_left]. rewrite app_nil_r.
  etrans.
  { apply (walk_children g id (mapNodes g) here (Children cur) IH []
             (update here g root) (g cur)).
    - by apply deref_update_eq.
    - by rewrite Hg, list_fmap_id. }
  rewrite update_update. apply update_ext. intros n Hn.
  assert (n = cur) as -> by congruence.
  by rewrite mapNodes_unfold.
Qed.

Lemma WalkNodePtr_mapNodes (g : Node -> Node) (t : Node) :
  (forall n, Children (g n) = Children n) ->
  WalkNodePtr t [] (fun p => update p g) t = mapNodes g t.
Proof.
  intros Hg. rewrite WalkNodePtr_paths.
  by rewrite (walk_mapNodes g Hg t [] t).
Qed.

Lemma copyIndexesDown_update (p : ptr) (root : Node) :
  copyIndexesDown p root = update p pushIndexes root.
Proof.
  unfold copyIndexesDown.
  destruct (deref p root) as [n|] eqn:Hp; [|by rewrite update_invalid].
  case_bool_decide as Hlen.
  - apply update_ext. intros n' Hn'. assert (n' = n) as -> by congruence.
    unfold pushIndexes. by case_bool_decide.
  - symmetry. apply update_same. intros n' Hn'.
    assert (n' = n) as -> by congruence.
    unfold pushIndexes. by case_bool_decide.
Qed.

Lemma children_pushIndexes (v : list string) (n : Node) :
  Children (pushIndexes (set_Indexes v n)) =
  (fun c => set_Indexes (inherited v c) c) <$> Children n.
Proof.
  unfold pushIndexes, inherited. cbn [set_Indexes Indexes].
  case_bool_decide.
  - done.
  - change (Children (set_Indexes v n)) with (Children n).
    induction (Children n) as [|c cs IH]; [done|].
    by rewrite fmap_cons, set_Indexes_same, <- IH.
Qed.

Lemma walk_pushDown (cur : Node) :
  forall (v : list string) (here : ptr) (root : Node),
    deref here root = Some (set_Indexes v cur) ->
    fold_left (fun st p => update (here ++ p) pushIndexes st) (paths cur) root
    = update here (fun _ => pushDown v cur) root.
Proof.
  induction cur as [cur IH] using Node_children_ind.
  intros v here root Hcur.
  rewrite paths_unfold. cbn [fold_left]. rewrite app_nil_r.
  etrans.
  { apply (walk_children pushIndexes
             (fun c => set_Indexes (inherited v c) c)
             (fun c => pushDown (inherited v c) c) here (Children cur))
      with (D := []) (X := pushIndexes (set_Indexes v cur)).
    - eapply Forall_impl; [exact IH|]. intros c Hc. apply Hc.
    - by apply deref_update_eq.
    - by rewrite children_pushIndexes. }
  rewrite update_update. apply update_ext. intros n Hn.
  assert (n = set_Indexes v cur) as -> by congruence.
  rewrite pushDown_unfold. cbn [app].
  unfold pushIndexes. case_bool_decide; [|done].
  unfold setChildrenIndexes. by rewrite set_Children_twice.
Qed.

(** The walk of "Copy indexes from table entries down to the entries",
    as a function on trees. *)
Lemma WalkNodePtr_copyIndexesDown (t : Node) :
  WalkNodePtr t [] copyIndexesDown t = pushDown (Indexes t) t.
Proof.
  rewrite WalkNodePtr_paths.
  rewrite (fold_left_pointwise _
             (fun st p => update ([] ++ p) pushIndexes st))
    by (intros; apply copyIndexesDown_update).
  rewrite (walk_pushDown t (Indexes t) [] t); [done|].
  by rewrite set_Indexes_same.
Qed.

Lemma deref_mapNodes (g : Node -> Node) (q : ptr) (t : Node) :
  deref q (mapNodes g t) = mapNodes g <$> deref q t.
Proof.
  revert t. induction q as [|i q IH]; intros t; [done|].
  rewrite (mapNodes_unfold g t). cbn [deref set_Children Children].
  rewrite list_lookup_fmap. destruct (Children t !! i) as [c|]; [|done].
  apply IH.
Qed.

Lemma mapNodes_ext (f g : Node -> Node) (t : Node) :
  (forall n, f n = g n) -> mapNodes f t = mapNodes g t.
Proof.
  intros H. induction t as [t IH] using Node_children_ind.
  rewrite !mapNodes_unfold, H. f_equal. by apply Forall_fmap_ext.
Qed.

Lemma mapNodes_fusion (f g : Node -> Node) (t : Node) :
  (forall cs n, f (set_Children cs n) = set_Children cs (f n)) ->
  mapNodes f (mapNodes g t) = mapNodes (fun n => f (g n)) t.
Proof.
  intros Hf. induction t as [t IH] using Node_children_ind.
  rewrite (mapNodes_unfold g t), (mapNodes_unfold (fun n => f (g n)) t).
  rewrite mapNodes_unfold. cbn [set_Children Children].
  rewrite Hf, set_Children_twice. f_equal.
  rewrite <- list_fmap_compose. by apply Forall_fmap_ext.
Qed.

Lemma erase_unfold (n : Node) :
  mapNodes (set_Indexes []) n =
  mkNode (Oid n) (Label n) (Augments n)
    (mapNodes (set_Indexes []) <$> Children n) (Description n) (Type_ n)
    (Hint n) (TextualConvention n) (FixedSize n) [] (Access n).
Proof. by destruct n. Qed.

(** A callback body that changes index lists only cannot be seen once
    the index lists are erased. *)
Lemma erase_update (g : Node -> Node) (p : ptr) (t : Node) :
  (forall n, mapNodes (set_Indexes []) (g n) = mapNodes (set_Indexes []) n) ->
  mapNodes (set_Indexes []) (update p g t) = mapNodes (set_Indexes []) t.
Proof.
  intros Hg. revert t. induction p as [|i p IH]; intros t; [apply Hg|].
  cbn [update]. rewrite (erase_unfold t), erase_unfold.
  cbn [set_Children Children Oid Label Augments Description Type_
       Hint TextualConvention FixedSize Indexes Access].
  f_equal. apply list_eq. intros j. rewrite !list_lookup_fmap.
  destruct (decide (j = i)) as [->|Hne].
  - rewrite list_lookup_alter_eq. destruct (Children t !! i); [|done].
    cbn. by rewrite IH.
  - by rewrite list_lookup_alter_ne.
Qed.

Lemma erase_set_Indexes (v : list string) (n : Node) :
  mapNodes (set_Indexes []) (set_Indexes v n) = mapNodes (set_Indexes []) n.
Proof. by destruct n. Qed.

Lemma erase_setChildrenIndexes (v : list string) (n : Node) :
  mapNodes (set_Indexes []) (setChildrenIndexes v n)
  = mapNodes (set_Indexes []) n.
Proof.
  rewrite (erase_unfold n), erase_unfold.
  cbn [setChildrenIndexes set_Children Children Oid Label Augments
       Description Type_ Hint TextualConvention FixedSize Indexes Access].
  f_equal. rewrite <- list_fmap_compose. apply list_fmap_ext.
  intros _ c _. apply erase_set_Indexes.
Qed.

Lemma erase_assignIndexes (v : list string) (n : Node) :
  mapNodes (set_Indexes []) (assignIndexes v n) = mapNodes (set_Indexes []) n.
Proof.
  unfold assignIndexes. by rewrite erase_set_Indexes, erase_setChildrenIndexes.
Qed.

Lemma erase_copyAugments (nameToNode : gmap string ptr) (p : ptr) (t : Node) :
  mapNodes (set_Indexes []) (copyAugments nameToNode p t)
  = mapNodes (set_Indexes []) t.
Proof.
  unfold copyAugments. destruct (deref p t) as [n|]; [|done].
  destruct (String.eqb (Augments n) ""); [done|].
  destruct (nameToNode !! Augments n ≫= _) as [augmented|]; [|done].
  apply erase_update. intros n'. apply erase_assignIndexes.
Qed.

Lemma erase_copyIndexesDown (p : ptr) (t : Node) :
  mapNodes (set_Indexes []) (copyIndexesDown p t)
  = mapNodes (set_Indexes []) t.
Proof.
  unfold copyIndexesDown. destruct (deref p t) as [n|]; [|done].
  case_bool_decide; [|done].
  apply erase_update. intros n'. apply erase_setChildrenIndexes.
Qed.

Lemma children_setType (n : Node) : Children (setType n) = Children n.
Proof.
  unfold setType.
  repeat match goal with |- context [if ?b then _ else _] => destruct b end;
    done.
Qed.

Lemma setType_set_Children (cs : list Node) (n : Node) :
  setType (set_Children cs n) = set_Children cs (setType n).
Proof.
  destruct n as [o l a c d ty hint tc fs ix ac].
  cbv [setType set_Children set_Type set_Indexes Oid Label Augments Children
       Description Type_ Hint TextualConvention FixedSize Indexes Access].
  destruct (String.eqb hint "1x:"), (displayStringRe_MatchString hint),
    (String.eqb tc "DisplayString"); reflexivity.
Qed.

Lemma setType_set_Indexes (v : list string) (n : Node) :
  set_Indexes v (setType n) = setType (set_Indexes v n).
Proof.
  destruct n as [o l a c d ty hint tc fs ix ac].
  cbv [setType set_Children set_Type set_Indexes Oid Label Augments Children
       Description Type_ Hint TextualConvention FixedSize Indexes Access].
  destruct (String.eqb hint "1x:"), (displayStringRe_MatchString hint),
    (String.eqb tc "DisplayString"); reflexivity.
Qed.

Lemma setType_set_Description (d : string) (n : Node) :
  setType (set_Description d n) = set_Description d (setType n).
Proof.
  destruct n as [o l a c d0 ty hint tc fs ix ac].
  cbv [setType set_Description set_Type Oid Label Augments Children
       Description Type_ Hint TextualConvention FixedSize Indexes Access].
  destruct (String.eqb hint "1x:"), (displayStringRe_MatchString hint),
    (String.eqb tc "DisplayString"); reflexivity.
Qed.

(** The six walks of [PrepareTree], the four that work on one node at a
    time as functions on trees. *)
Lemma PrepareTree_walks (nodes : Node) :
  let t2 := mapNodes fixIndexes (mapNodes trimDescription nodes) in
  (PrepareTree nodes).1 =
  mapNodes setType
    (WalkNodePtr (WalkNodePtr t2 [] (copyAugments (PrepareTree nodes).2) t2)
       [] copyIndexesDown
       (WalkNodePtr t2 [] (copyAugments (PrepareTree nodes).2) t2)).
Proof.
  unfold PrepareTree. cbn [fst snd].
  rewrite (WalkNodePtr_mapNodes trimDescription) by done.
  rewrite (WalkNodePtr_mapNodes fixIndexes) by done.
  by rewrite (WalkNodePtr_mapNodes setType) by apply children_setType.
Qed.

(** Apart from the index lists, the prepared tree is the tree with every
    description trimmed and every type set, once. *)
Lemma PrepareTree_erase (nodes : Node) :
  mapNodes (set_Indexes []) (PrepareTree nodes).1 =
  mapNodes (fun n => set_Indexes [] (setType (trimDescription n))) nodes.
Proof.
  rewrite PrepareTree_walks. cbv zeta.
  set (t2 := mapNodes fixIndexes (mapNodes trimDescription nodes)).
  set (t3 := WalkNodePtr t2 [] _ t2).
  rewrite mapNodes_fusion by done.
  rewrite (mapNodes_ext _ (fun n => setType (set_Indexes [] n)))
    by (intros n; apply setType_set_Indexes).
  rewrite <- (mapNodes_fusion setType) by apply setType_set_Children.
  assert (mapNodes (set_Indexes []) (WalkNodePtr t3 [] copyIndexesDown t3)
          = mapNodes (set_Indexes []) t2) as ->.
  { apply (WalkNodePtr_invariant
             (fun st => mapNodes (set_Indexes []) st
                        = mapNodes (set_Indexes []) t2)).
    { intros p st <-. apply erase_copyIndexesDown. }
    unfold t3.
    apply (WalkNodePtr_invariant
             (fun st => mapNodes (set_Indexes []) st
                        = mapNodes (set_Indexes []) t2)); [|done].
    intros p st <-. apply erase_copyAugments. }
  unfold t2.
  rewrite (mapNodes_fusion fixIndexes trimDescription) by done.
  rewrite (mapNodes_fusion (set_Indexes [])) by done.
  rewrite (mapNodes_fusion setType) by apply setType_set_Children.
  apply mapNodes_ext. intros n.
  rewrite setType_set_Indexes. by destruct n.
Qed.

(** What the equation of [PrepareTree_erase] says of one node. *)
Lemma erased_prepared_from (n0 n : Node) :
  mapNodes (set_Indexes []) n =
  mapNodes (fun n => set_Indexes [] (setType (trimDescription n))) n0 ->
  prepared_from n0 n.
Proof.
  intros E. rewrite !mapNodes_unfold in E.
  unfold prepared_from.
  pose proof (f_equal Oid E) as H1. pose proof (f_equal Label E) as H2.
  pose proof (f_equal Augments E) as H3. pose proof (f_equal Hint E) as H4.
  pose proof (f_equal TextualConvention E) as H5.
  pose proof (f_equal FixedSize E) as H6. pose proof (f_equal Access E) as H7.
  pose proof (f_equal Description E) as H8.
  pose proof (f_equal Type_ E) as H9.
  pose proof (f_equal (fun x => length (Children x)) E) as H10.
  cbn [set_Children set_Indexes Children Oid Label Augments Description Type_
       Hint TextualConvention FixedSize Indexes Access] in *.
  rewrite !length_fmap in H10.
  assert (forall n, Oid (setType n) = Oid n /\ Label (setType n) = Label n /\
            Augments (setType n) = Augments n /\ Hint (setType n) = Hint n /\
            TextualConvention (setType n) = TextualConvention n /\
            FixedSize (setType n) = FixedSize n /\
            Access (setType n) = Access n /\
            Description (setType n) = Description n) as HsetType.
  { intros m. unfold setType.
    repeat match goal with |- context [if ?b then _ else _] => destruct b end;
      done. }
  destruct (HsetType (trimDescription n0))
    as (E1 & E2 & E3 & E4 & E5 & E6 & E7 & E8).
  rewrite E1 in H1. rewrite E2 in H2. rewrite E3 in H3. rewrite E4 in H4.
  rewrite E5 in H5. rewrite E6 in H6. rewrite E7 in H7. rewrite E8 in H8.
  repeat split; try done.
  rewrite H9. unfold trimDescription. by rewrite setType_set_Description.
Qed.

(** What a pointer reaches in the prepared tree, next to what it
    reaches in the tree given. *)
Lemma prepared_at (nodes : Node) (q : ptr) :
  option_Forall2 prepared_from (deref q nodes) (deref q (PrepareTree nodes).1).
Proof.
  pose proof (f_equal (deref q) (PrepareTree_erase nodes)) as E.
  rewrite !deref_mapNodes in E.
  destruct (deref q nodes) as [n0|], (deref q (PrepareTree nodes).1) as [n|];
    try done; constructor.
  injection E as E. by apply erased_prepared_from.
Qed.

(** X14. Every pointer reaches a node in the prepared tree exactly when
    it reaches one in the tree given, and that node has the same OID,
    label, [Augments], hint, textual convention, fixed size, access and
    number of children; its description is the trimmed description and
    its type the type that [setType] gives, each computed once from the
    node given. *)
Theorem PrepareTree_fields (nodes : Node) (q : ptr) :
  match deref q nodes, deref q (PrepareTree nodes).1 with
  | Some n0, Some n => prepared_from n0 n
  | None, None => True
  | _, _ => False
  end.
Proof.
  pose proof (PrepareTree_erase nodes) as E.
  apply (f_equal (deref q)) in E. rewrite !deref_mapNodes in E.
  destruct (deref q nodes) as [n0|], (deref q (PrepareTree nodes).1) as [n|];
    try done.
  injection E as E. by apply erased_prepared_from.
Qed.

(** ** The order of the walk *)

Lemma preorder_unfold (n : Node) :
  preorder n = n :: concat (preorder <$> Children n).
Proof. by destruct n. Qed.

Lemma number_paths_elem_inv (l : list (list ptr)) (k : nat) (p : ptr) :
  p ∈ number_paths k l ->
  exists i ps q, p = (k + i)%nat :: q /\ l !! i = Some ps /\ q ∈ ps.
Proof.
  revert k. induction l as [|ps l IH]; intros k; cbn [number_paths].
  - by intros ?%elem_of_nil.
  - intros [(q & -> & Hq)%list_elem_of_fmap|H]%elem_of_app.
    + exists 0%nat, ps, q. by rewrite Nat.add_0_r.
    + destruct (IH _ H) as (i & ps' & q & -> & Hi & Hq).
      exists (S i), ps', q. split; [f_equal; lia | done].
Qed.

Lemma paths_deref (t : Node) (p : ptr) : p ∈ paths t -> is_Some (deref p t).
Proof.
  revert p. induction t as [t IH] using Node_children_ind. intros p.
  rewrite paths_unfold. intros [->|H]%elem_of_cons; [by eexists|].
  apply number_paths_elem_inv in H as (i & ps & q & -> & Hi & Hq).
  rewrite list_lookup_fmap in Hi.
  destruct (Children t !! i) as [c|] eqn:Hc; [|done]. injection Hi as <-.
  cbn [deref]. rewrite Nat.add_0_l, Hc.
  by apply (proj1 (Forall_lookup _ _) IH i c).
Qed.

Lemma NoDup_number_paths (l : list (list ptr)) (k : nat) :
  Forall NoDup l -> NoDup (number_paths k l).
Proof.
  intros H. revert k. induction H as [|ps l Hps _ IH]; intros k;
    cbn [number_paths]; [constructor|].
  apply NoDup_app. split; [|split; [|apply IH]].
  - apply NoDup_fmap_2; [|done]. by intros ? ? [=].
  - intros p (q & -> & _)%list_elem_of_fmap
      (i & ps' & q' & Hp & _)%number_paths_elem_inv.
    injection Hp as Hk _. lia.
Qed.

Lemma NoDup_paths (t : Node) : NoDup (paths t).
Proof.
  induction t as [t IH] using Node_children_ind.
  rewrite paths_unfold. apply NoDup_cons. split.
  - by intros (i & ps & q & ? & _)%number_paths_elem_inv.
  - apply NoDup_number_paths. by apply Forall_fmap.
Qed.

Lemma preorder_children (t : Node) (D rest : list Node) :
  Children t = D ++ rest ->
  Forall (fun c => Some <$> preorder c = (fun p => deref p c) <$> paths c)
    rest ->
  Some <$> concat (preorder <$> rest) =
  (fun p => deref p t) <$> number_paths (length D) (map paths rest).
Proof.
  intros Ht H. revert D Ht.
  induction H as [|c rest Hc _ IH]; intros D Ht; [done|].
  rewrite fmap_cons. cbn [concat map number_paths]. rewrite !fmap_app.
  f_equal.
  - rewrite Hc, <- list_fmap_compose. apply list_fmap_ext. intros _ q _.
    cbn [compose deref]. rewrite Ht.
    by rewrite (list_lookup_middle D rest c (length D)).
  - specialize (IH (D ++ [c])). rewrite length_app, Nat.add_1_r in IH.
    apply IH. by rewrite <- app_assoc.
Qed.

Lemma preorder_paths (t : Node) :
  Some <$> preorder t = (fun p => deref p t) <$> paths t.
Proof.
  induction t as [t IH] using Node_children_ind.
  rewrite preorder_unfold, paths_unfold, !fmap_cons. f_equal.
  by apply (preorder_children t []).
Qed.

(** X15. [WalkNode] calls a callback that leaves the children lists
    alone once for every node of the tree, in pre-order: the pointers it
    passes are distinct, they are the pointers that reach a node, and
    the nodes they reach are the nodes of the tree from the root on,
    each before its children and the children from first to last. *)
Theorem WalkNode_visits_once {St : Type} (f : ptr -> St -> St) (t : Node)
    (st : St) :
  exists visited : list ptr,
    WalkNodePtr t [] f st = fold_left (fun st p => f p st) visited st /\
    NoDup visited /\
    (forall p, p ∈ visited <-> is_Some (deref p t)) /\
    (fun p => deref p t) <$> visited = Some <$> preorder t.
Proof.
  exists (paths t). split; [by rewrite WalkNodePtr_paths|].
  split; [apply NoDup_paths|]. split; [|by rewrite preorder_paths].
  intros p. split; [apply paths_deref|]. intros [n Hn]. by eapply deref_paths.
Qed.

(** ** The Name Index and the prepared tree *)

Lemma index_entry_named (nodes : Node) (name : string) (p : ptr) :
  (PrepareTree nodes).2 !! name = Some p -> named nodes name p = true.
Proof.
  unfold PrepareTree. cbn [snd]. rewrite WalkNodePtr_paths. cbn [app].
  rewrite fold_indexNode, lookup_empty. intros H.
  destruct (last _) as [p'|] eqn:Hlast; [|done]. injection H as ->.
  apply last_Some_elem_of, list_elem_of_filter in Hlast as [H _].
  by apply Is_true_true.
Qed.

Lemma index_has_name (nodes : Node) (name : string) (q : ptr) (n : Node) :
  deref q nodes = Some n -> name = Oid n \/ name = Label n ->
  is_Some ((PrepareTree nodes).2 !! name).
Proof.
  intros Hq Hname.
  unfold PrepareTree. cbn [snd]. rewrite WalkNodePtr_paths. cbn [app].
  rewrite fold_indexNode, lookup_empty.
  destruct (last _) as [p'|] eqn:Hlast; [done|].
  apply last_None in Hlast as Hnil.
  assert (q ∈ filter (fun p => named nodes name p) (paths nodes)) as Hin.
  { apply list_elem_of_filter. split; [|by eapply deref_paths].
    unfold named. rewrite Hq. by apply bool_decide_pack. }
  rewrite Hnil in Hin. by apply elem_of_nil in Hin.
Qed.

(** X16. The Name Index that [PrepareTree] returns has no dangling
    pointer and no wrong entry: every key points at a node of the
    prepared tree whose OID or label is the key. *)
Theorem PrepareTree_index_sound (nodes : Node) (name : string) (p : ptr) :
  (PrepareTree nodes).2 !! name = Some p ->
  exists n, deref p (PrepareTree nodes).1 = Some n /\
            (name = Oid n \/ name = Label n).
Proof.
  intros Hp. apply index_entry_named in Hp. unfold named in Hp.
  pose proof (prepared_at nodes p) as Hf.
  destruct (deref p nodes) as [n0|]; [|done].
  inversion Hf as [? n (Ho & Hl & _)|]; subst. exists n. split; [done|].
  apply bool_decide_eq_true in Hp. by rewrite Ho, Hl.
Qed.

Lemma PrepareTree_index_sound_witness :
  exists n, deref [0%nat] (PrepareTree ifEntry).1 = Some n /\
            ("ifIndex" = Oid n \/ "ifIndex" = Label n).
Proof.
  apply (PrepareTree_index_sound ifEntry "ifIndex" [0%nat]).
  vm_compute. reflexivity.
Defined.

(** X17. The Name Index that [PrepareTree] returns is complete: the OID
    and the label of every node of the prepared tree are keys. *)
Theorem PrepareTree_index_complete (nodes : Node) (q : ptr) (n : Node) :
  deref q (PrepareTree nodes).1 = Some n ->
  is_Some ((PrepareTree nodes).2 !! Oid n) /\
  is_Some ((PrepareTree nodes).2 !! Label n).
Proof.
  intros Hq. pose proof (prepared_at nodes q) as Hf.
  rewrite Hq in Hf. inversion Hf as [n0 ? (Ho & Hl & _) Hq0|]; subst.
  symmetry in Hq0. rewrite Ho, Hl.
  split; eapply index_has_name; eauto.
Qed.

Lemma PrepareTree_index_complete_witness :
  is_Some ((PrepareTree ifEntry).2 !! "1.3.6.1.2.1.2.2.1.2") /\
  is_Some ((PrepareTree ifEntry).2 !! "ifDescr").
Proof.
  apply (PrepareTree_index_complete ifEntry [1%nat]
           (mkNode "1.3.6.1.2.1.2.2.1.2" "ifDescr" "" [] "A textual string"
              "DisplayString" "255a" "" 0 ["ifIndex"] "ACCESS_READONLY")).
  vm_compute. reflexivity.
Defined.

(** X18. When no label of the tree is the OID of a node, the Name Index
    of the prepared tree is closed: the OID of every node it holds is a
    key for a node with that OID. *)
Theorem PrepareTree_closed_index (nodes : Node) :
  (forall p q n m, deref p nodes = Some n -> deref q nodes = Some m ->
                   Label n <> Oid m) ->
  closed_index (derefAll (PrepareTree nodes).1 (PrepareTree nodes).2).
Proof.
  intros Hdisj k n Hk. unfold derefAll in *. rewrite lookup_omap in Hk |- *.
  destruct ((PrepareTree nodes).2 !! k) as [p|] eqn:Hp; [|done].
  change (deref p (PrepareTree nodes).1 = Some n) in Hk.
  pose proof (prepared_at nodes p) as Hf. rewrite Hk in Hf.
  inversion Hf as [n0 ? (Ho & _) Hp0|]; subst. symmetry in Hp0.
  destruct (index_has_name nodes (Oid n0) p n0 Hp0) as [p' Hp']; [by left|].
  rewrite Ho, Hp'.
  change (exists n', deref p' (PrepareTree nodes).1 = Some n' /\
                     Oid n' = Oid n0).
  pose proof (index_entry_named _ _ _ Hp') as Hnamed. unfold named in Hnamed.
  pose proof (prepared_at nodes p') as Hf'.
  destruct (deref p' nodes) as [n1|] eqn:Hp1; [|done].
  inversion Hf' as [? n' (Ho' & _)|]; subst. exists n'. split; [done|].
  apply bool_decide_eq_true in Hnamed as [Hoid|Hlab]; [congruence|].
  by destruct (Hdisj p' p n1 n0).
Qed.

Lemma PrepareTree_closed_index_witness :
  closed_index (derefAll (PrepareTree ifEntry).1 (PrepareTree ifEntry).2) /\
  is_Some (derefAll (PrepareTree ifEntry).1 (PrepareTree ifEntry).2
           !! "1.3.6.1.2.1.2.2.1.2").
Proof.
  split; [|vm_compute; by eexists].
  apply PrepareTree_closed_index. intros p q n m Hp Hq.
  pose proof (deref_paths _ _ _ Hp) as Hpp.
  pose proof (deref_paths _ _ _ Hq) as Hqq.
  vm_compute in Hpp, Hqq.
  repeat (apply elem_of_cons in Hpp as [->|Hpp]);
    [..|by apply elem_of_nil in Hpp];
    repeat (apply elem_of_cons in Hqq as [->|Hqq]);
    try (by apply elem_of_nil in Hqq);
    vm_compute in Hp, Hq; injection Hp as <-; injection Hq as <-; done.
Defined.

(** ** Index lists in the prepared tree *)

Lemma indexes_pushDown (v : list string) (t : Node) :
  Indexes (pushDown v t) = v.
Proof. by rewrite pushDown_unfold. Qed.

Lemma pushDown_below (v : list string) (q : ptr) (t m : Node) :
  v <> [] -> deref q (pushDown v t) = Some m -> Indexes m = v.
Proof.
  intros Hv. revert t. induction q as [|i q IH]; intros t.
  - intros [= <-]. apply indexes_pushDown.
  - rewrite pushDown_unfold. cbn [deref set_Children Children].
    rewrite list_lookup_fmap. destruct (Children t !! i) as [c|]; [|done].
    cbn. unfold inherited. rewrite bool_decide_eq_true_2; [apply IH|].
    by destruct v.
Qed.

Lemma deref_pushDown (v : list string) (p : ptr) (t n : Node) :
  deref p (pushDown v t) = Some n -> exists v' t', n = pushDown v' t'.
Proof.
  revert v t. induction p as [|i p IH]; intros v t.
  - intros [= <-]. by exists v, t.
  - rewrite pushDown_unfold. cbn [deref set_Children Children].
    rewrite list_lookup_fmap. destruct (Children t !! i) as [c|]; [|done].
    apply IH.
Qed.

Lemma indexes_setType (n : Node) : Indexes (setType n) = Indexes n.
Proof.
  unfold setType.
  repeat match goal with |- context [if ?b then _ else _] => destruct b end;
    done.
Qed.

Lemma indexes_mapNodes_setType (n : Node) :
  Indexes (mapNodes setType n) = Indexes n.
Proof. rewrite mapNodes_unfold. apply indexes_setType. Qed.

(** X19. In the prepared tree every node below a node that has indexes has
    the same indexes. *)
Theorem PrepareTree_indexes_inherited (nodes : Node) (p q : ptr) (n m : Node) :
  deref p (PrepareTree nodes).1 = Some n -> Indexes n <> [] ->
  deref q n = Some m -> Indexes m = Indexes n.
Proof.
  rewrite PrepareTree_walks. cbv zeta.
  set (t3 := WalkNodePtr _ [] (copyAugments _) _).
  rewrite WalkNodePtr_copyIndexesDown, deref_mapNodes.
  intros Hp Hn Hq.
  destruct (deref p (pushDown (Indexes t3) t3)) as [n'|] eqn:Hp'; [|done].
  injection Hp as <-. rewrite deref_mapNodes in Hq.
  destruct (deref q n') as [m'|] eqn:Hq'; [|done]. injection Hq as <-.
  rewrite !indexes_mapNodes_setType in *.
  destruct (deref_pushDown _ _ _ _ Hp') as (v' & t' & ->).
  rewrite indexes_pushDown in *. by eapply pushDown_below.
Qed.

Lemma PrepareTree_indexes_inherited_witness :
  exists n m, deref [] (PrepareTree ifEntry).1 = Some n /\
              deref [1%nat] n = Some m /\ Indexes m = Indexes n.
Proof.
  eexists _, _. split; [vm_compute; reflexivity|].
  split; [vm_compute; reflexivity|].
  apply (PrepareTree_indexes_inherited ifEntry [] [1%nat]);
    vm_compute; done.
Defined.

(** X20. When no node is labelled ["INTEGER"], no index list of the
    prepared tree holds the placeholder ["INTEGER"]. *)
Theorem PrepareTree_no_placeholder (nodes : Node) (q : ptr) (n : Node) :
  (forall p n0, deref p nodes = Some n0 -> Label n0 <> "INTEGER") ->
  deref q (PrepareTree nodes).1 = Some n -> "INTEGER" ∉ Indexes n.
Proof.
  intros Hlab.
  pose (P := fun st : Node =>
               forall q l, Indexes <$> deref q st = Some l -> "INTEGER" ∉ l).
  assert (forall idx p st, P st -> P (copyAugments idx p st)) as Haug.
  { intros idx p st HP. unfold copyAugments.
    destruct (deref p st) as [n1|] eqn:Hp; [|done].
    destruct (String.eqb (Augments n1) ""); [done|].
    destruct (idx !! Augments n1) as [pa|]; [|done]. cbn.
    destruct (deref pa st) as [augmented|] eqn:Ha; [|done].
    assert ("INTEGER" ∉ Indexes augmented) as Hv
      by (apply (HP pa); by rewrite Ha).
    intros q' l.
    destruct (update_push_Indexes (assignIndexes (Indexes augmented))
                (Indexes augmented) p q' st n1
                (local_assignIndexes _) ltac:(done) Hp)
      as [[_ ->]|[(i & _ & ->)|[_ ->]]].
    - by intros [= <-].
    - destruct (deref q' st); [|done]. by intros [= <-].
    - apply HP. }
  assert (forall p st, P st -> P (copyIndexesDown p st)) as Hdown.
  { intros p st HP. unfold copyIndexesDown.
    destruct (deref p st) as [n1|] eqn:Hp; [|done].
    case_bool_decide; [|done].
    assert ("INTEGER" ∉ Indexes n1) as Hv by (apply (HP p); by rewrite Hp).
    intros q' l.
    destruct (update_push_Indexes (setChildrenIndexes (Indexes n1))
                (Indexes n1) p q' st n1
                (local_setChildrenIndexes _) ltac:(done) Hp)
      as [[_ ->]|[(i & _ & ->)|[_ ->]]].
    - by intros [= <-].
    - destruct (deref q' st); [|done]. by intros [= <-].
    - apply HP. }
  rewrite PrepareTree_walks. cbv zeta.
  set (t2 := mapNodes fixIndexes (mapNodes trimDescription nodes)).
  assert (P t2) as H2.
  { intros q' l. unfold t2. rewrite !deref_mapNodes.
    destruct (deref q' nodes) as [n0|] eqn:Hq'; [|done].
    cbn. intros [= <-]. rewrite !mapNodes_unfold.
    cbn [fixIndexes set_Children set_Indexes trimDescription set_Description
         Indexes Label].
    intros (i & Hi & _)%list_elem_of_fmap.
    destruct (String.eqb i "INTEGER") eqn:E.
    - by apply (Hlab q' n0).
    - apply String.eqb_neq in E. congruence. }
  set (t3 := WalkNodePtr t2 [] _ t2).
  assert (P t3) as H3 by (apply WalkNodePtr_invariant; [apply Haug | done]).
  assert (P (WalkNodePtr t3 [] copyIndexesDown t3)) as H4
    by (apply WalkNodePtr_invariant; [apply Hdown | done]).
  rewrite deref_mapNodes. intros Hq.
  destruct (deref q (WalkNodePtr t3 [] copyIndexesDown t3)) as [n'|] eqn:Hq';
    [|done].
  injection Hq as <-. rewrite indexes_mapNodes_setType.
  apply (H4 q). by rewrite Hq'.
Qed.

Lemma PrepareTree_no_placeholder_witness :
  exists n, deref [0%nat] (PrepareTree ifEntry).1 = Some n /\
            "INTEGER" ∉ Indexes n.
Proof.
  eexists. split; [vm_compute; reflexivity|].
  apply (PrepareTree_no_placeholder ifEntry [0%nat]);
    [|vm_compute; reflexivity].
  intros p n0 Hp. pose proof (deref_paths _ _ _ Hp) as Hpp.
  vm_compute in Hpp.
  repeat (apply elem_of_cons in Hpp as [->|Hpp]);
    [..|by apply elem_of_nil in Hpp];
    vm_compute in Hp; injection Hp as <-; done.
Defined.

(** ** Descriptions *)

Lemma byte_in_true (lo hi : N) (b : ascii) :
  byte_in lo hi b = true <-> (lo <= N_of_ascii b <= hi)%N.
Proof. unfold byte_in. rewrite andb_true_iff, !N.leb_le. done. Qed.

Lemma high_not_space (lo hi : N) (b : ascii) :
  (128 <= lo)%N -> byte_in lo hi b = true -> is_space_byte b = false.
Proof.
  intros Hlo [H1 H2]%byte_in_true. unfold is_space_byte.
  apply orb_false_iff. split; apply not_true_is_false;
    intros [H3 H4]%byte_in_true; lia.
Qed.

(** A rune that is no white space is a word. *)
Lemma rune_word (b0 : ascii) (r0 : string) :
  exists chunk rest,
    runes (String b0 r0) = chunk :: runes rest /\
    (String.length rest < String.length (String b0 r0))%nat /\
    (unicode_IsSpace chunk = false -> word chunk).
Proof.
  cbn [runes].
  destruct (rune_width (String b0 r0)) as [|[|[|[|[|w]]]]] eqn:W;
    destruct r0 as [|b1 [|b2 [|b3 r3]]];
    eexists _, _; (split; [reflexivity|]); (split; [simpl; lia|]);
    try (intros H; split; [done|]; split; [exact H | exact I]);
    intros _; (split; [done|]);
    unfold rune_width in W;
    repeat match type of W with
           | context [if ?b then _ else _] => destruct b eqn:?
           end; try discriminate;
    repeat match goal with
           | H : _ && _ = true |- _ => apply andb_true_iff in H as [? ?]
           end;
    repeat match goal with
           | H : context [if ?b then _ else _] |- _ => destruct b eqn:?
           end;
    cbn [string_Forall]; repeat split;
    (eapply high_not_space; [|eassumption]; lia).
Qed.

Lemma runes_words (s : string) :
  Forall (fun r => unicode_IsSpace r = false -> word r) (runes s).
Proof.
  assert (forall n s, (String.length s < n)%nat ->
            Forall (fun r => unicode_IsSpace r = false -> word r) (runes s))
    as H; [|apply (H (S (String.length s))); lia].
  clear s. induction n as [|n IH]; intros s Hn; [lia|].
  destruct s as [|b0 r0]; [constructor|].
  destruct (rune_word b0 r0) as (chunk & rest & -> & Hr & Hc).
  constructor; [done|]. apply IH. lia.
Qed.

Lemma fields_loop_words (rs : list string) (cur : option string) :
  Forall (fun r => unicode_IsSpace r = false -> word r) rs ->
  (forall f, cur = Some f -> word f) ->
  Forall word (fields_loop rs cur).
Proof.
  intros Hrs. revert cur. induction Hrs as [|r rs Hr _ IH]; intros cur Hcur.
  - cbn [fields_loop]. destruct cur as [f|]; [|constructor].
    constructor; [by apply Hcur | constructor].
  - cbn [fields_loop]. destruct (unicode_IsSpace r) eqn:E.
    + destruct cur as [f|]; [constructor; [by apply Hcur|]|]; by apply IH.
    + apply IH. intros f' [= <-]. destruct (Hr eq_refl) as [Hne Hall].
      destruct cur as [f|]; [|done].
      destruct (Hcur f eq_refl) as [Hf Hfall]. split.
      * destruct f; [done|]. by rewrite app_cons_s.
      * by apply string_Forall_app.
Qed.

Lemma single_spaced_word (b : bool) (f s : string) :
  word f -> single_spaced b (f +:+ s) = single_spaced false s.
Proof.
  intros [Hne Hall]. revert b. induction f as [|c f IH]; intros b; [done|].
  destruct Hall as [Hc Hall]. rewrite app_cons_s. cbn [single_spaced].
  rewrite Hc. destruct f as [|c' f']; [by rewrite app_nil_l_s|].
  by apply IH.
Qed.

Lemma single_spaced_Join (fields : list string) :
  Forall word fields ->
  single_spaced true (strings_Join fields " ") = true.
Proof.
  induction 1 as [|f fields Hf _ IH]; [done|].
  destruct fields as [|g fields].
  - cbn [strings_Join]. rewrite <- (app_nil_r_s f).
    by rewrite single_spaced_word.
  - change (strings_Join (f :: g :: fields) " ")
      with (f +:+ " " +:+ strings_Join (g :: fields) " ").
    rewrite single_spaced_word by done.
    change (" " +:+ ?x) with (String " " x).
    cbn [single_spaced]. by rewrite IH.
Qed.

Lemma single_spaced_first_sentence (b : bool) (s : string) :
  single_spaced b s = true -> single_spaced b (first_sentence s) = true.
Proof.
  revert b. induction s as [|c s IH]; intros b; [done|].
  cbn [first_sentence]. destruct (strings_HasPrefix _ _); [done|].
  cbn [single_spaced]. destruct (is_space_byte c).
  - intros [[-> ->]%andb_true_iff H]%andb_true_iff. by rewrite IH.
  - apply IH.
Qed.

Lemma first_sentence_head (c : ascii) (s : string) :
  strings_HasPrefix (first_sentence s) (String c "") = true ->
  strings_HasPrefix s (String c "") = true.
Proof.
  destruct s as [|d s]; [done|]. cbn [first_sentence].
  destruct (strings_HasPrefix (String d s) ". "); [done|].
  rewrite !HasPrefix_cons. by destruct (Ascii.eqb c d).
Qed.

Lemma first_sentence_Contains (s : string) :
  strings_Contains (first_sentence s) ". " = false.
Proof.
  induction s as [|c s IH]; [done|]. cbn [first_sentence].
  destruct (strings_HasPrefix (String c s) ". ") eqn:E; [done|].
  cbn [strings_Contains]. rewrite IH, orb_false_r.
  rewrite HasPrefix_cons in E |- *.
  destruct (Ascii.eqb "." c); [|done].
  apply not_true_is_false. intros H%first_sentence_head. congruence.
Qed.

(** A text in which no full stop is followed by a space is its own
    first sentence. *)
Lemma first_sentence_all (s : string) :
  strings_Contains s ". " = false -> first_sentence s = s.
Proof.
  induction s as [|c s IH]; [done|]. cbn [strings_Contains first_sentence].
  intros [-> H]%orb_false_iff. by rewrite IH.
Qed.

Lemma trimDescription_one_sentence (n : Node) :
  single_spaced true (Description (trimDescription n)) = true /\
  strings_Contains (Description (trimDescription n)) ". " = false.
Proof.
  cbn [trimDescription set_Description Description].
  split; [|apply first_sentence_Contains].
  apply single_spaced_first_sentence, single_spaced_Join.
  apply fields_loop_words; [apply runes_words | done].
Qed.

(** X21. The description of a node of the prepared tree reads on one
    line: its only ASCII white space is single spaces between words, it
    does not start with a space, and no full stop in it is followed by a
    space. *)
Theorem PrepareTree_descriptions (nodes : Node) (q : ptr) (n : Node) :
  deref q (PrepareTree nodes).1 = Some n ->
  single_spaced true (Description n) = true /\
  strings_Contains (Description n) ". " = false.
Proof.
  intros Hq. pose proof (prepared_at nodes q) as Hf. rewrite Hq in Hf.
  inversion Hf as [n0 n' (_ & _ & _ & _ & _ & _ & _ & Hd & _)|]; subst.
  rewrite Hd. apply trimDescription_one_sentence.
Qed.

Lemma PrepareTree_descriptions_witness :
  exists n, deref [0%nat] (PrepareTree ifEntry).1 = Some n /\
            Description n = "A unique value, greater than zero" /\
            single_spaced true (Description n) = true /\
            strings_Contains (Description n) ". " = false.
Proof.
  eexists. split; [vm_compute; reflexivity|]. split; [reflexivity|].
  apply (PrepareTree_descriptions ifEntry [0%nat]). vm_compute. reflexivity.
Defined.

(** ** Augmentation, in general *)

Lemma pushDown_unindexed (p : ptr) (v : list string) (t : Node) :
  (forall q r, p = q ++ r -> r <> [] ->
     Indexes <$> deref q (set_Indexes v t) = Some []) ->
  Indexes <$> deref p (pushDown v t) = Indexes <$> deref p (set_Indexes v t).
Proof.
  revert v t. induction p as [|i p IH]; intros v t Hanc.
  - cbn [deref fmap option_fmap option_map]. by rewrite indexes_pushDown.
  - pose proof (Hanc [] (i :: p) eq_refl ltac:(done)) as Hv.
    injection Hv as Hv. change (v = []) in Hv. subst v.
    rewrite pushDown_unfold. cbn [deref set_Children set_Indexes Children].
    rewrite list_lookup_fmap.
    destruct (Children t !! i) as [c|] eqn:Hc; [|done].
    cbn [fmap option_fmap option_map]. unfold inherited.
    rewrite bool_decide_eq_false_2 by (cbn; lia).
    rewrite IH.
    + by rewrite set_Indexes_same.
    + intros q r Hq Hr. rewrite set_Indexes_same.
      specialize (Hanc (i :: q) r ltac:(by rewrite Hq) Hr).
      cbn [deref set_Indexes Children] in Hanc. by rewrite Hc in Hanc.
Qed.

(** X22. Augmentation, whatever else the tree holds.  [B] augments the
    name that resolves to [A]; [A] and the node above [A] augment
    nothing, and the nodes above [B] have no indexes and augment
    nothing.  Then after [PrepareTree] the indexes of [B] are the
    corrected indexes of [A]: the augmentation walk reads, through the
    pointer of the Name Index, what the walk before it has written. *)
Theorem augmentation_reads_corrected_indexes (nodes : Node) (pA pB : ptr)
    (A B : Node) :
  deref pA nodes = Some A -> deref pB nodes = Some B ->
  Augments B <> "" ->
  (PrepareTree nodes).2 !! Augments B = Some pA ->
  Augments A = "" ->
  (forall q i n, pA = q ++ [i] -> deref q nodes = Some n -> Augments n = "") ->
  (forall q r n, pB = q ++ r -> r <> [] -> deref q nodes = Some n ->
                 Indexes n = [] /\ Augments n = "") ->
  exists B', deref pB (PrepareTree nodes).1 = Some B' /\
             Indexes B' = Indexes (fixIndexes A).
Proof.
  intros HA HB HaugB Hres HaugA HparA HancB.
  rewrite PrepareTree_walks. cbv zeta.
  set (idx := (PrepareTree nodes).2) in *.
  set (t2 := mapNodes fixIndexes (mapNodes trimDescription nodes)).
  set (v := Indexes (fixIndexes A)).
  assert (forall q, deref q t2 =
            mapNodes fixIndexes <$> (mapNodes trimDescription <$> deref q nodes))
    as Ht2 by (intros q; unfold t2; by rewrite !deref_mapNodes).
  pose (P := fun st : Node =>
               (forall q, Augments <$> deref q st = Augments <$> deref q nodes)
               /\ indexed_by v pA st /\ ancestors_unindexed pB st).
  pose (Q := fun st : Node => indexed_by v pB st).
  assert (forall q r, pB = q ++ r -> r <> [] ->
            exists n, deref q nodes = Some n /\ Indexes n = [] /\
                      Augments n = "") as Hanc0.
  { intros q r Hq Hr. pose proof HB as HB'. rewrite Hq, deref_app in HB'.
    destruct (deref q nodes) as [n|] eqn:E; [|done].
    exists n. split; [done|]. by apply (HancB q r). }
  assert (P t2) as HP2.
  { split; [|split].
    - intros q. rewrite Ht2. destruct (deref q nodes) as [n|]; [|done].
      cbn. by rewrite !mapNodes_unfold.
    - unfold indexed_by. rewrite Ht2, HA. cbn. by rewrite !mapNodes_unfold.
    - intros q r Hq Hr. destruct (Hanc0 q r Hq Hr) as (n & Hn & Hi & _).
      rewrite Ht2, Hn. cbn. rewrite !mapNodes_unfold.
      cbn [fixIndexes trimDescription set_Children set_Indexes
           set_Description Indexes]. by rewrite Hi. }
  (* What one call of the callback does. *)
  assert (forall p st, P st ->
            copyAugments idx p st = st \/
            exists n w, deref p st = Some n /\ Augments n <> "" /\
              copyAugments idx p st = update p (assignIndexes w) st /\
              (p = pB -> w = v)) as Hstep.
  { intros p st (Haug & HvA & _). unfold copyAugments.
    destruct (deref p st) as [n|] eqn:Hp; [|by left].
    destruct (String.eqb (Augments n) "") eqn:E; [by left|].
    apply String.eqb_neq in E.
    destruct (idx !! Augments n) as [pa|] eqn:Hpa; [|by left]. cbn.
    destruct (deref pa st) as [augmented|] eqn:Ha; [|by left].
    right. exists n, (Indexes augmented). repeat split; try done.
    intros ->. specialize (Haug pB). rewrite Hp, HB in Haug.
    injection Haug as Haug. rewrite Haug, Hres in Hpa. injection Hpa as <-.
    unfold indexed_by in HvA. rewrite Ha in HvA. by injection HvA. }
  assert (forall p st, P st -> P (copyAugments idx p st)) as HPstep.
  { intros p st HP.
    destruct (Hstep p st HP) as [->|(n & w & Hp & Hn & -> & _)]; [done|].
    destruct HP as (Haug & HvA & Hanc).
    assert (Augments <$> deref p nodes = Some (Augments n)) as Hp0
      by by rewrite <- Haug, Hp.
    pose proof (fun q => update_push_Indexes (assignIndexes w) w p q st n
                           (local_assignIndexes w) (fun n => eq_refl) Hp)
      as Hupd.
    split; [|split].
    - intros q.
      destruct (deref_update_names (assignIndexes w) p q st
                  (local_assignIndexes w)) as [_ ->]. apply Haug.
    - unfold indexed_by.
      destruct (Hupd pA) as [[-> _]|[(i & Hi & _)|[_ ->]]]; [| |done].
      + rewrite HA in Hp0. injection Hp0 as Hp0. congruence.
      + destruct (deref p nodes) as [n0|] eqn:E; [|done].
        injection Hp0 as Hp0. rewrite (HparA p i n0 Hi E) in Hp0. congruence.
    - intros q r Hq Hr.
      destruct (Hupd q) as [[-> _]|[(i & -> & _)|[_ ->]]];
        [| |by eapply Hanc].
      + destruct (Hanc0 p r Hq Hr) as (n0 & Hn0 & _ & Hau).
        rewrite Hn0 in Hp0. injection Hp0 as Hp0. congruence.
      + destruct (Hanc0 p ([i] ++ r)) as (n0 & Hn0 & _ & Hau);
          [by rewrite Hq, <- app_assoc | done |].
        rewrite Hn0 in Hp0. injection Hp0 as Hp0. congruence. }
  assert (forall p st, P st -> Q st -> Q (copyAugments idx p st)) as HQstep.
  { intros p st HP HQ.
    destruct (Hstep p st HP) as [->|(n & w & Hp & Hn & -> & Hw)]; [done|].
    destruct HP as (Haug & _ & _).
    assert (Augments <$> deref p nodes = Some (Augments n)) as Hp0
      by by rewrite <- Haug, Hp.
    unfold Q, indexed_by.
    destruct (update_push_Indexes (assignIndexes w) w p pB st n
                (local_assignIndexes w) (fun n => eq_refl) Hp)
      as [[Heq ->]|[(i & Hi & _)|[_ ->]]]; [| |done].
    + by rewrite (Hw (eq_sym Heq)).
    + destruct (Hanc0 p [i] Hi) as (n0 & Hn0 & _ & Hau); [done|].
      rewrite Hn0 in Hp0. injection Hp0 as Hp0. congruence. }
  assert (forall st, P st -> Q (copyAugments idx pB st)) as HQvisit.
  { intros st HP. pose proof HP as (Haug & HvA & _).
    pose proof (Haug pB) as HaB. rewrite HB in HaB.
    destruct (deref pB st) as [n|] eqn:Hp; [|done]. injection HaB as HaB.
    unfold indexed_by in HvA.
    destruct (deref pA st) as [a|] eqn:Ha; [|done]. injection HvA as HvA.
    unfold copyAugments. rewrite Hp, HaB.
    destruct (String.eqb (Augments B) "") eqn:E;
      [by apply String.eqb_eq in E|].
    rewrite Hres. cbn. rewrite Ha, HvA.
    unfold Q, indexed_by. by rewrite (deref_update_eq _ pB st n Hp). }
  assert (exists b, deref pB t2 = Some b) as [b Hb]
    by (rewrite Ht2, HB; by eexists).
  destruct (WalkNodePtr_visit P Q (copyAugments idx) t2 b pB t2 Hb
              HPstep HQvisit HQstep HP2) as [HP3 HQ3].
  set (t3 := WalkNodePtr t2 [] (copyAugments idx) t2) in *.
  destruct HP3 as (_ & _ & Hanc3). unfold Q, indexed_by in HQ3.
  rewrite WalkNodePtr_copyIndexesDown, deref_mapNodes.
  assert (Indexes <$> deref pB (pushDown (Indexes t3) t3) = Some v) as Hdown.
  { rewrite pushDown_unindexed; rewrite set_Indexes_same; [done|].
    exact Hanc3. }
  destruct (deref pB (pushDown (Indexes t3) t3)) as [B''|]; [|done].
  exists (mapNodes setType B''). split; [done|].
  rewrite indexes_mapNodes_setType. by injection Hdown.
Qed.

Lemma augmentation_reads_corrected_indexes_witness :
  exists B', deref [1%nat] (PrepareTree augmentingTree).1 = Some B' /\
             Indexes B' = ["A"].
Proof.
  apply (augmentation_reads_corrected_indexes augmentingTree [0%nat] [1%nat]
           rowA rowB); try (vm_compute; done).
  - intros q i n Hq. destruct q as [|? [|? ?]]; [|done..].
    intros [= <-]. done.
  - intros q r n Hq Hr. destruct q as [|? [|? ?]]; [|by destruct r|done].
    intros [= <-]. done.
Defined.

(** ** Augmentation, as the claim has it *)










